(** * A shallow embedding of the network epidemic simulation

    The development follows the three source modules: [graph.py] (class
    [Graph]), [model.py] (class [Model]) and [simulation.py] (class
    [Simulation]).  Python objects that are shared between the classes
    (the [Params] and [Graph] instances, the module-level random generator)
    live in one record, [World], that is threaded through a small
    state-and-exception monad.

    Conventions:
    - Python floats are IEEE binary64 numbers: [PrimFloat.float].
    - Python dictionaries are [gmap]s; where the iteration order of a
      dictionary decides what the program computes (the target states of a
      transition distribution, the behaviours) it is an association list.
    - An uncaught Python exception is the outcome [Raised], which keeps the
      state reached when it was raised ([Raise] in pure helpers); the code
      has no handler, so every exception ends the run.
    - The random generator is an oracle: two infinite streams read through a
      cursor.  Every statement quantified over [Rng] holds for every outcome
      of the random draws.
    - networkx is an external library; it is modelled at the level of its
      documented interface (section [networkx] below). *)

From Stdlib Require Import Floats.PrimFloat Ascii.
From Stdlib Require DecimalString DecimalZ DecimalPos.
From stdpp Require Import gmap strings list fin_maps.

(** ** Exceptions and results *)

Inductive exn :=
| KeyError | ValueError | IndexError | TypeError | AttributeError
| FileNotFoundError | NetworkXException
| Exception (msg : string).

Inductive result (A : Type) :=
| Ok (a : A)
| Raise (e : exn).
Arguments Ok {A} a.
Arguments Raise {A} e.

(** ** The random generator *)

Record Rng := {
  cursor : nat;
  uniform_src : nat → float;   (* outcomes of random.random() *)
  choice_src : nat → nat       (* entropy used to pick list positions *)
}.

Definition advance (r : Rng) : Rng :=
  {| cursor := S (cursor r); uniform_src := uniform_src r; choice_src := choice_src r |}.

(** [random.random()] *)
Definition random_random (r : Rng) : float * Rng :=
  (uniform_src r (cursor r), advance r).

(** Selection without replacement: [k] successive picks, each removing the
    picked position from the pool. *)
Fixpoint pick_without_replacement {A} (pool : list A) (k : nat) (r : Rng) : list A * Rng :=
  match k with
  | 0 => ([], r)
  | S k' =>
      let i := choice_src r (cursor r) `mod` length pool in
      match pool !! i with
      | None => ([], r)
      | Some x =>
          let '(rest, r') := pick_without_replacement (delete i pool) k' (advance r) in
          (x :: rest, r')
      end
  end.

(** [random.sample(population, k)]: ValueError when the sample is larger than
    the population. *)
Definition random_sample {A} (population : list A) (k : nat) (r : Rng) : result (list A * Rng) :=
  if decide (k ≤ length population) then Ok (pick_without_replacement population k r)
  else Raise ValueError.

(** [random.shuffle(l)]: some permutation of [l]. *)
Definition random_shuffle {A} (l : list A) (r : Rng) : list A * Rng :=
  pick_without_replacement l (length l) r.

(** ** networkx *)

(** Attribute dictionaries of nodes and edges.  An absent key is [None]
    (respectively [false] for the presence of [interaction_edge]). *)
Record NodeData := {
  location : option (Z * Z);
  age_group : option string;
  visit_days : gmap string (list nat)   (* behaviour name ↦ chosen weekdays *)
}.

Record EdgeData := {
  weight : option float;
  interaction_edge : bool
}.

(** [networkx.Graph]: nodes in insertion order, their attributes, and the
    undirected edges keyed by the ordered pair of their endpoints. *)
Record nxGraph := {
  nodes : list nat;
  node_data : gmap nat NodeData;
  edges : gmap (nat * nat) EdgeData
}.

Definition edge_key (u v : nat) : nat * nat := (u `min` v, u `max` v).

Definition has_edge (G : nxGraph) (u v : nat) : bool :=
  bool_decide (is_Some (edges G !! edge_key u v)).

Definition add_node (G : nxGraph) (u : nat) : nxGraph :=
  if decide (u ∈ nodes G) then G
  else {| nodes := nodes G ++ [u];
          node_data := <[u := {| location := None; age_group := None; visit_days := ∅ |}]> (node_data G);
          edges := edges G |}.

(** [G.add_edge(u, v, **attr)] for an edge that is not in the graph yet: both
    endpoints are added when they are missing. *)
Definition add_edge (G : nxGraph) (u v : nat) (attr : EdgeData) : nxGraph :=
  let G := add_node (add_node G u) v in
  {| nodes := nodes G; node_data := node_data G;
     edges := <[edge_key u v := attr]> (edges G) |}.

Definition remove_edge (G : nxGraph) (u v : nat) : nxGraph :=
  {| nodes := nodes G; node_data := node_data G;
     edges := delete (edge_key u v) (edges G) |}.

(** [G.neighbors(u)] *)
Definition neighbors (G : nxGraph) (u : nat) : list nat :=
  filter (λ v, has_edge G u v = true) (nodes G).

(** [G.edges], as the list of endpoint pairs. *)
Definition edge_list (G : nxGraph) : list (nat * nat) :=
  (map_to_list (edges G)).*1.

(** [nx.DiGraph] over grid points, as [navigable_small_world_graph]
    returns it. *)
Record DiGraph := {
  dnodes : list (nat * nat);
  dedges : list ((nat * nat) * (nat * nat))
}.

Definition lattice_distance (a b : nat * nat) : nat :=
  Z.to_nat (Z.abs (Z.of_nat a.1 - Z.of_nat b.1) + Z.abs (Z.of_nat a.2 - Z.of_nat b.2)).

(** Short-range links of grid point [p1]: every other point within lattice
    distance [p]. *)
Definition short_links (grid : list (nat * nat)) (p : nat) (p1 : nat * nat)
  : list ((nat * nat) * (nat * nat)) :=
  (λ p2, (p1, p2)) <$> filter (λ p2, p1 ≠ p2 ∧ lattice_distance p1 p2 ≤ p) grid.

(** Long-range links of [p1]: [q] targets.  The library chooses each target
    with probability proportional to [distance^-r]; here the choice is left to
    the oracle. *)
Fixpoint long_links (grid : list (nat * nat)) (q : nat) (p1 : nat * nat) (r : Rng)
  : list ((nat * nat) * (nat * nat)) * Rng :=
  match q with
  | 0 => ([], r)
  | S q' =>
      let target := grid !! (choice_src r (cursor r) `mod` length grid) in
      let '(rest, r') := long_links grid q' p1 (advance r) in
      (match target with Some p2 => (p1, p2) :: rest | None => rest end, r')
  end.

Fixpoint all_links (grid todo : list (nat * nat)) (p q : nat) (r : Rng)
  : list ((nat * nat) * (nat * nat)) * Rng :=
  match todo with
  | [] => ([], r)
  | p1 :: todo' =>
      let '(long, r1) := long_links grid q p1 r in
      let '(rest, r2) := all_links grid todo' p q r1 in
      (short_links grid p p1 ++ long ++ rest, r2)
  end.

(** [itertools.product(range(n), repeat=2)] *)
Definition grid_points (n : nat) : list (nat * nat) :=
  n0 ← seq 0 n; n1 ← seq 0 n; [(n0, n1)].

(** [nx.navigable_small_world_graph(n, p, q, r, dim=2)]: a directed graph
    whose nodes are the [n * n] points of the grid. *)
Definition navigable_small_world_graph (n p q : nat) (r : float) (g : Rng)
  : result (DiGraph * Rng) :=
  if decide (p < 1) then Raise NetworkXException
  else if (r <? 0)%float then Raise NetworkXException
  else
    let grid := grid_points n in
    let '(links, g') := all_links grid grid p q g in
    Ok ({| dnodes := grid; dedges := links |}, g').

(** [digraph.remove_nodes_from(extra)] *)
Definition remove_nodes_from (D : DiGraph) (extra : list (nat * nat)) : DiGraph :=
  {| dnodes := filter (λ x, x ∉ extra) (dnodes D);
     dedges := filter (λ e, (e.1 ∉ extra) ∧ (e.2 ∉ extra)) (dedges D) |}.

(** Position of [x] in [l]. *)
Fixpoint index_of {A} `{EqDecision A} (x : A) (l : list A) : option nat :=
  match l with
  | [] => None
  | y :: l' => if decide (x = y) then Some 0 else S <$> index_of x l'
  end.

(** [nx.convert_node_labels_to_integers(D.to_undirected(),
    label_attribute="location")]: the i-th node becomes node [i] and keeps its
    grid point as attribute [location]; edges lose their direction and carry
    an empty attribute dictionary. *)
Definition convert_node_labels_to_integers (D : DiGraph) : nxGraph :=
  let old := dnodes D in
  {| nodes := seq 0 (length old);
     node_data :=
       list_to_map (imap (λ i pt, (i, {| location := Some (Z.of_nat pt.1, Z.of_nat pt.2);
                                         age_group := None; visit_days := ∅ |})) old);
     edges :=
       foldr (λ e acc,
                match index_of e.1 old, index_of e.2 old with
                | Some u, Some v => <[edge_key u v := {| weight := None; interaction_edge := false |}]> acc
                | _, _ => acc
                end) ∅ (dedges D) |}.

(** [G.remove_edges_from(nx.selfloop_edges(G))] *)
Definition remove_selfloops (G : nxGraph) : nxGraph :=
  {| nodes := nodes G; node_data := node_data G;
     edges := filter (λ kv, kv.1.1 ≠ kv.1.2) (edges G) |}.

(** [nx.set_edge_attributes(G, value, "weight")] *)
Definition set_edge_weights (G : nxGraph) (value : option float) : nxGraph :=
  {| nodes := nodes G; node_data := node_data G;
     edges := (λ d, {| weight := value; interaction_edge := interaction_edge d |}) <$> edges G |}.

(** [nx.set_node_attributes(G, values, "age_group")]: keys of [values] that
    are not nodes are skipped. *)
Definition set_node_age_groups (G : nxGraph) (values : list (nat * string)) : nxGraph :=
  {| nodes := nodes G;
     node_data :=
       foldl (λ nd iv,
                alter (λ d, {| location := location d; age_group := Some iv.2;
                               visit_days := visit_days d |}) iv.1 nd)
             (node_data G) values;
     edges := edges G |}.

(** [itertools.combinations(l, 2)] *)
Fixpoint combinations2 {A} (l : list A) : list (A * A) :=
  match l with
  | [] => []
  | x :: l' => ((λ y, (x, y)) <$> l') ++ combinations2 l'
  end.

(** [math.ceil(math.sqrt(n))].  The float square root is exact on perfect
    squares and strictly between consecutive integers otherwise for every
    [n] below 2^52, so the result is the integer ceiling of the root. *)
Definition ceil_sqrt (n : nat) : nat :=
  let s := Nat.sqrt n in
  if decide (s * s = n) then s else S s.

(** ** The objects of the program *)

(** The simulation configuration's [graph_config] dictionary. *)
Record GraphConfig := {
  short_connection_diameter : nat;
  long_connection_diameter : nat;
  decay : float;
  closeness_threshold : Z
}.

(** [class Graph] of graph.py; every attribute starts as Python's None. *)
Record Graph := {
  graph : option nxGraph;
  time_horizon : option nat;
  num_infected : option nat;
  graph_config : option GraphConfig;
  infection_rate : option float;
  close_nodes_arr : option (list (list float))
}.

Record Behaviour := { visits : nat; num_people : nat }.

(** A transition distribution: target state ↦ (age group ↦ probability), in
    the order of the dictionary. *)
Abbreviation Distrib := (list (string * gmap string float)).

(** [class Params] of params.py.  [behaviours] holds the behaviour variants
    already split into name, visits and group size. *)
Record Params := {
  state_transitions : option (gmap string Distrib);
  generic_infection : option float;
  age_structure : option (list (string * nat));
  population_size : option nat;
  behaviours : option (list (string * Behaviour));
  behaviours_dict : option (list (string * Behaviour))
}.

(** Ghost record of what a run did: every assignment into the state
    timeline, tagged with the method that made it, and every infection draw. *)
Inductive Site := InMakeStatesDict | InBasicSimulation | InDoProgression | InInfectNeighbours.

Inductive Event :=
| Assign (site : Site) (t node : nat) (v : string)       (* states_dict[t][node] = v *)
| Draw (node neighbour : nat) (luck prob : float).       (* luck = random.random() *)

#[global] Instance Site_eq_dec : EqDecision Site.
Proof. solve_decision. Defined.

(** The [Simulation] object with the [Model] it drives, the random
    generator, the pickled graphs on disk, and the ghost trace. *)
Record World := {
  sim_params : Params;
  sim_graph : Graph;
  new_graph_per_run : bool;
  load_graph_filename : string;
  states_dict : gmap nat (gmap nat string);   (* Model.states_dict *)
  curr_time : nat;                            (* Model.curr_time *)
  rng : Rng;
  files : gmap string Graph;
  trace : list Event
}.

Definition with_params (p : Params) (w : World) : World :=
  {| sim_params := p; sim_graph := sim_graph w; new_graph_per_run := new_graph_per_run w;
     load_graph_filename := load_graph_filename w; states_dict := states_dict w;
     curr_time := curr_time w; rng := rng w; files := files w; trace := trace w |}.

Definition with_graph (g : Graph) (w : World) : World :=
  {| sim_params := sim_params w; sim_graph := g; new_graph_per_run := new_graph_per_run w;
     load_graph_filename := load_graph_filename w; states_dict := states_dict w;
     curr_time := curr_time w; rng := rng w; files := files w; trace := trace w |}.

Definition with_states_dict (sd : gmap nat (gmap nat string)) (w : World) : World :=
  {| sim_params := sim_params w; sim_graph := sim_graph w; new_graph_per_run := new_graph_per_run w;
     load_graph_filename := load_graph_filename w; states_dict := sd;
     curr_time := curr_time w; rng := rng w; files := files w; trace := trace w |}.

Definition with_curr_time (t : nat) (w : World) : World :=
  {| sim_params := sim_params w; sim_graph := sim_graph w; new_graph_per_run := new_graph_per_run w;
     load_graph_filename := load_graph_filename w; states_dict := states_dict w;
     curr_time := t; rng := rng w; files := files w; trace := trace w |}.

Definition with_rng (r : Rng) (w : World) : World :=
  {| sim_params := sim_params w; sim_graph := sim_graph w; new_graph_per_run := new_graph_per_run w;
     load_graph_filename := load_graph_filename w; states_dict := states_dict w;
     curr_time := curr_time w; rng := r; files := files w; trace := trace w |}.

Definition with_files (fs : gmap string Graph) (w : World) : World :=
  {| sim_params := sim_params w; sim_graph := sim_graph w; new_graph_per_run := new_graph_per_run w;
     load_graph_filename := load_graph_filename w; states_dict := states_dict w;
     curr_time := curr_time w; rng := rng w; files := fs; trace := trace w |}.

Definition log (e : Event) (w : World) : World :=
  {| sim_params := sim_params w; sim_graph := sim_graph w; new_graph_per_run := new_graph_per_run w;
     load_graph_filename := load_graph_filename w; states_dict := states_dict w;
     curr_time := curr_time w; rng := rng w; files := files w; trace := trace w ++ [e] |}.

(** Updates of the attributes of [Graph]. *)
Definition with_nx (G : nxGraph) (g : Graph) : Graph :=
  {| graph := Some G; time_horizon := time_horizon g; num_infected := num_infected g;
     graph_config := graph_config g; infection_rate := infection_rate g;
     close_nodes_arr := close_nodes_arr g |}.

Definition with_infection_rate (r : option float) (g : Graph) : Graph :=
  {| graph := graph g; time_horizon := time_horizon g; num_infected := num_infected g;
     graph_config := graph_config g; infection_rate := r;
     close_nodes_arr := close_nodes_arr g |}.

Definition with_close_nodes_arr (arr : list (list float)) (g : Graph) : Graph :=
  {| graph := graph g; time_horizon := time_horizon g; num_infected := num_infected g;
     graph_config := graph_config g; infection_rate := infection_rate g;
     close_nodes_arr := Some arr |}.

(** ** The monad of the program: state [World], exceptions [exn]

    An exception leaves the world as it was when it was raised. *)

Inductive outcome (A : Type) :=
| Returned (a : A) (w : World)
| Raised (e : exn) (w : World).
Arguments Returned {A} a w.
Arguments Raised {A} e w.

Definition M (A : Type) : Type := World → outcome A.

#[global] Instance M_ret : MRet M := λ A a w, Returned a w.
#[global] Instance M_bind : MBind M := λ A B f m w,
  match m w with
  | Returned a w' => f a w'
  | Raised e w' => Raised e w'
  end.

#[global] Instance result_ret : MRet result := λ A a, Ok a.
#[global] Instance result_bind : MBind result := λ A B f m,
  match m with
  | Ok a => f a
  | Raise e => Raise e
  end.

Definition get_world : M World := λ w, Returned w w.
Definition modify (f : World → World) : M unit := λ w, Returned tt (f w).
Definition raise {A} (e : exn) : M A := λ w, Raised e w.

Definition from_option {A} (e : exn) (o : option A) : M A :=
  match o with
  | Some a => mret a
  | None => raise e
  end.

Definition lift_result {A} (x : result A) : M A :=
  λ w, match x with Ok a => Returned a w | Raise e => Raised e w end.

(** Run a computation of the random generator on the world's generator. *)
Definition with_random {A} (f : Rng → A * Rng) : M A :=
  λ w, let '(a, r) := f (rng w) in Returned a (with_rng r w).

Definition with_random_result {A} (f : Rng → result (A * Rng)) : M A :=
  λ w, match f (rng w) with
       | Ok (a, r) => Returned a (with_rng r w)
       | Raise e => Raised e w
       end.

(** [for x in l: body(x)], also [list(map(body, l))] *)
Fixpoint for_each {A} (l : list A) (body : A → M unit) : M unit :=
  match l with
  | [] => mret tt
  | x :: l' => body x;; for_each l' body
  end.

(** The same loop for a local variable threaded through a pure body. *)
Fixpoint fold_result {A B} (body : B → A → result B) (l : list A) (acc : B) : result B :=
  match l with
  | [] => Ok acc
  | x :: l' => acc' ← body acc x; fold_result body l' acc'
  end.

(** [self.graph.graph] of the current [Graph] object. *)
Definition the_graph : M nxGraph :=
  w ← get_world; from_option AttributeError (graph (sim_graph w)).

Definition set_the_graph (G : nxGraph) : M unit :=
  modify (λ w, with_graph (with_nx G (sim_graph w)) w).

(** ** graph.py *)

(** [Graph._add_new_interaction_edge(pair)] *)
Definition _add_new_interaction_edge (pair : nat * nat) : M unit :=
  G ← the_graph;
  w ← get_world;
  if has_edge G pair.1 pair.2 then mret tt
  else set_the_graph (add_edge G pair.1 pair.2
                        {| weight := infection_rate (sim_graph w); interaction_edge := true |}).

(** [arr.nonzero()[0].tolist()] for one row of the closeness array. *)
Definition nonzero (row : list float) : list nat :=
  (filter (λ ix, (ix.2 =? 0)%float = false) (imap (λ i x, (i, x)) row)).*1.

(** [Graph.set_group_interaction_edges(behaviour, node, other_nodes, group_size)] *)
Definition set_group_interaction_edges (behaviour : string) (node : nat)
    (other_nodes : list nat) (group_size : nat) : M unit :=
  other_nodes ←
    (if decide (behaviour = "food_shopping") then
       w ← get_world;
       arr ← from_option TypeError (close_nodes_arr (sim_graph w));
       row ← from_option IndexError (arr !! node);
       mret (nonzero row)
     else mret other_nodes);
  let size := if decide (group_size ≤ length other_nodes) then group_size
              else length other_nodes in
  new_group ← with_random_result (random_sample other_nodes size);
  let new_edges :=
    if decide (behaviour = "food_shopping") then (λ neighbour, (node, neighbour)) <$> new_group
    else combinations2 (new_group ++ [node]) in
  for_each new_edges _add_new_interaction_edge.

(** [Graph.remove_group_interaction_edges()] *)
Definition remove_group_interaction_edges : M unit :=
  G ← the_graph;
  for_each (edge_list G) (λ uv,
    G' ← the_graph;
    d ← from_option KeyError (edges G' !! edge_key uv.1 uv.2);
    if interaction_edge d then set_the_graph (remove_edge G' uv.1 uv.2)
    else mret tt).

(** [Graph._calculate_chebyshev_dist(location_a, location_b)] *)
Definition _calculate_chebyshev_dist (location_a location_b : Z * Z) : Z :=
  Z.abs (location_a.1 - location_b.1) `max` Z.abs (location_a.2 - location_b.2).

(** [node_arr[i][j] = x] on a two-dimensional numpy array *)
Definition arr_set (arr : list (list float)) (i j : nat) (x : float) : result (list (list float)) :=
  match arr !! i with
  | None => Raise IndexError
  | Some row =>
      if decide (j < length row) then Ok (<[i := <[j := x]> row]> arr)
      else Raise IndexError
  end.

Definition location_of (G : nxGraph) (node : nat) : result (Z * Z) :=
  match node_data G !! node with
  | Some d => match location d with Some l => Ok l | None => Raise KeyError end
  | None => Raise KeyError
  end.

(** The array computed by [Graph._set_close_nodes_arr]. *)
Definition close_nodes_of (G : nxGraph) (threshold : Z) : result (list (list float)) :=
  let n_nodes := length (nodes G) in
  let node_arr := replicate n_nodes (replicate n_nodes 0%float) in
  fold_result (λ node_arr node,
      node_location ← location_of G node;
      fold_result (λ node_arr other_node,
          if decide (node ≠ other_node) then
            other_location ← location_of G other_node;
            let chebyshev_dist := _calculate_chebyshev_dist other_location node_location in
            if decide (chebyshev_dist ≤ threshold)%Z then arr_set node_arr node other_node 1%float
            else Ok node_arr
          else Ok node_arr)
        (nodes G) node_arr)
    (nodes G) node_arr.

(** [Graph._set_close_nodes_arr()] *)
Definition _set_close_nodes_arr : M unit :=
  w ← get_world;
  cfg ← from_option TypeError (graph_config (sim_graph w));
  let threshold := closeness_threshold cfg in
  G ← the_graph;
  node_arr ← lift_result (close_nodes_of G threshold);
  modify (λ w, with_graph (with_close_nodes_arr node_arr (sim_graph w)) w).

(** [Graph._set_generic_weights()] *)
Definition _set_generic_weights : M unit :=
  G ← the_graph;
  w ← get_world;
  set_the_graph (set_edge_weights G (infection_rate (sim_graph w))).

(** [Graph._set_ages(age_structure)] *)
Definition _set_ages (age_structure : list (string * nat)) : M unit :=
  let age_group_list := gn ← age_structure; replicate gn.2 gn.1 in
  age_group_list ← with_random (random_shuffle age_group_list);
  let age_group_dict := imap (λ i ag, (i, ag)) age_group_list in
  G ← the_graph;
  set_the_graph (set_node_age_groups G age_group_dict).

(** [Graph._set_navigable_small_world_graph(age_structure,
    short_connection_diameter, long_connection_diameter, decay)] *)
Definition _set_navigable_small_world_graph (age_structure : list (string * nat))
    (short_connection_diameter long_connection_diameter : nat) (decay : float) : M unit :=
  let num_people := sum_list (age_structure.*2) in
  let root_num_people := ceil_sqrt num_people in
  digraph ← with_random_result
    (navigable_small_world_graph root_num_people short_connection_diameter
       long_connection_diameter decay);
  (if decide (root_num_people ^ 2 < num_people) then raise ValueError else mret tt);;
  let num_extra := root_num_people ^ 2 - num_people in
  extra_nodes ← with_random_result (random_sample (dnodes digraph) num_extra);
  let digraph := remove_nodes_from digraph extra_nodes in
  let graph := convert_node_labels_to_integers digraph in
  let graph := remove_selfloops graph in
  set_the_graph graph;;
  _set_generic_weights;;
  _set_ages age_structure;;
  _set_close_nodes_arr.

(** [Graph.create_graph(age_structure, infection_rate)] *)
Definition Graph_create_graph (age_structure : list (string * nat))
    (infection_rate : option float) : M unit :=
  modify (λ w, with_graph (with_infection_rate infection_rate (sim_graph w)) w);;
  w ← get_world;
  cfg ← from_option TypeError (graph_config (sim_graph w));
  _set_navigable_small_world_graph age_structure
    (short_connection_diameter cfg) (long_connection_diameter cfg) (decay cfg).

(** ** model.py *)

(** The keys of [Model.STATES], in the order of the dictionary. *)
Definition STATES : list string := ["S"; "E"; "A"; "I"; "H"; "D"; "R"].

(** [self.states_dict[t][node]] *)
Definition get_state (t node : nat) : M string :=
  w ← get_world;
  row ← from_option KeyError (states_dict w !! t);
  from_option KeyError (row !! node).

(** [self.states_dict[t][node] = v] *)
Definition set_state (site : Site) (t node : nat) (v : string) : M unit :=
  w ← get_world;
  row ← from_option KeyError (states_dict w !! t);
  modify (λ w, log (Assign site t node v)
                 (with_states_dict (<[t := <[node := v]> row]> (states_dict w)) w)).

(** [Params._convert_behaviours_to_dict()]: a later variant of the same
    behaviour replaces the earlier one and keeps its place. *)
Fixpoint dict_set {V} (k : string) (v : V) (d : list (string * V)) : list (string * V) :=
  match d with
  | [] => [(k, v)]
  | (k', v') :: d' => if decide (k = k') then (k, v) :: d' else (k', v') :: dict_set k v d'
  end.

Definition _convert_behaviours_to_dict (behaviours : list (string * Behaviour))
  : list (string * Behaviour) :=
  foldl (λ d b, dict_set b.1 b.2 d) [] behaviours.

(** [Model._make_states_dict()] *)
Definition _make_states_dict : M unit :=
  w ← get_world;
  T ← from_option TypeError (time_horizon (sim_graph w));
  G ← the_graph;
  modify (with_states_dict (list_to_map ((λ timestep, (timestep, ∅)) <$> seq 0 (T + 1))));;
  for_each (nodes G) (λ guy, set_state InMakeStatesDict 0 guy "S").

(** The loop of [_choose_from_distrib]: the first target whose cumulative
    probability reaches [max_sum], if any. *)
Fixpoint cumulative_choice (age_group : string) (max_sum curr_sum : float)
    (distrib : Distrib) : result (option string) :=
  match distrib with
  | [] => Ok None
  | (value, by_age) :: rest =>
      match by_age !! age_group with
      | None => Raise KeyError
      | Some p =>
          let curr_sum := (curr_sum + p)%float in
          if (max_sum <=? curr_sum)%float then Ok (Some value)
          else cumulative_choice age_group max_sum curr_sum rest
      end
  end.

(** [min(keys)] on strings *)
Definition string_min (a b : string) : string := if String.ltb b a then b else a.

Definition min_key (keys : list string) : result string :=
  match keys with
  | [] => Raise ValueError
  | k :: ks => Ok (foldl string_min k ks)
  end.

(** [Model._choose_from_distrib(age_group, distrib)] *)
Definition _choose_from_distrib (age_group : string) (distrib : Distrib) : M string :=
  max_sum ← with_random random_random;
  found ← lift_result (cumulative_choice age_group max_sum 0%float distrib);
  match found with
  | Some value => mret value
  | None => lift_result (min_key (distrib.*1))
  end.

(** [self.graph.graph.nodes[node][behaviour] = {"visit_days": chosen_days}] *)
Definition set_visit_days (node : nat) (behaviour : string) (chosen_days : list nat) : M unit :=
  G ← the_graph;
  d ← from_option KeyError (node_data G !! node);
  set_the_graph
    {| nodes := nodes G;
       node_data := <[node := {| location := location d; age_group := age_group d;
                                 visit_days := <[behaviour := chosen_days]> (visit_days d) |}]>
                      (node_data G);
       edges := edges G |}.

(** [Model._add_interactions(node)] *)
Definition _add_interactions (node : nat) : M unit :=
  w ← get_world;
  let weekday := curr_time w `mod` 7 in
  G ← the_graph;
  let other_nodes := filter (λ other_node, other_node ≠ node) (nodes G) in
  bd ← from_option AttributeError (behaviours_dict (sim_params w));
  (if decide (weekday = 0) then
     for_each bd (λ b,
       chosen_days ← with_random_result (random_sample (seq 0 7) (visits b.2));
       set_visit_days node b.1 chosen_days)
   else mret tt);;
  for_each bd (λ b,
    G ← the_graph;
    d ← from_option KeyError (node_data G !! node);
    days ← from_option KeyError (visit_days d !! b.1);
    if decide (weekday ∈ days) then
      set_group_interaction_edges b.1 node other_nodes (num_people b.2)
    else mret tt).

(** [Model._remove_interactions()] *)
Definition _remove_interactions : M unit := remove_group_interaction_edges.

(** [Model._do_progression(node)] *)
Definition _do_progression (node : nat) : M unit :=
  w ← get_world;
  let next_time := curr_time w + 1 in
  state ← get_state (curr_time w) node;
  G ← the_graph;
  d ← from_option KeyError (node_data G !! node);
  node_age_group ← from_option KeyError (age_group d);
  if decide (state ∉ ["R"; "D"; "S"]) then
    table ← from_option TypeError (state_transitions (sim_params w));
    distrib ← from_option KeyError (table !! state);
    v ← _choose_from_distrib node_age_group distrib;
    set_state InDoProgression next_time node v
  else set_state InDoProgression next_time node state.

(** [Model._infect_neighbours(node, neighbour)] *)
Definition _infect_neighbours (node neighbour : nat) : M unit :=
  w ← get_world;
  s ← get_state (curr_time w) neighbour;
  if decide (s = "S") then
    G ← the_graph;
    d ← from_option KeyError (edges G !! edge_key node neighbour);
    infection_prob ← from_option KeyError (weight d);
    luck ← with_random random_random;
    modify (log (Draw node neighbour luck infection_prob));;
    if (luck <=? infection_prob)%float then
      set_state InInfectNeighbours (curr_time w + 1) neighbour "E"
    else mret tt
  else mret tt.

(** [Model._do_infection(node)] *)
Definition _do_infection (node : nat) : M unit :=
  w ← get_world;
  state ← get_state (curr_time w) node;
  if decide (state = "I" ∨ state = "A") then
    G ← the_graph;
    for_each (neighbors G node) (_infect_neighbours node)
  else mret tt.

(** [Counter(row.values())[state]] *)
Definition count_state (row : gmap nat string) (state : string) : Z :=
  Z.of_nat (length (filter (λ kv, kv.2 = state) (map_to_list row))).

(** [Model._get_state_counts(time)] *)
Definition _get_state_counts (time : nat) : M (string → Z) :=
  w ← get_world;
  row ← from_option KeyError (states_dict w !! time);
  mret (count_state row).

(** [range(start, stop, step)] for a positive step *)
Definition py_range (start stop step : nat) : list nat :=
  (λ k, start + step * k) <$> seq 0 ((stop - start + (step - 1)) / step).

(** The loop of [get_results]: for every step, append the count of every
    state to that state's list. *)
Fixpoint get_results_loop (steps : list nat) (output_dict : gmap string (list Z))
  : M (gmap string (list Z)) :=
  match steps with
  | [] => mret output_dict
  | step :: steps' =>
      counts ← _get_state_counts step;
      get_results_loop steps'
        (foldl (λ output_dict state, alter (λ l, l ++ [counts state]) state output_dict)
           output_dict STATES)
  end.

(** [Model.get_results()] *)
Definition get_results : M (gmap string (list Z)) :=
  w ← get_world;
  T ← from_option TypeError (time_horizon (sim_graph w));
  let output_dict : gmap string (list Z) := list_to_map ((λ key, (key, [])) <$> STATES) in
  get_results_loop (py_range 1 (T + 1) 7) output_dict.

(** The body of the loop of [basic_simulation] for one value of [time]. *)
Definition timestep (time : nat) : M unit :=
  modify (with_curr_time time);;
  G ← the_graph;
  for_each (nodes G) _add_interactions;;
  G ← the_graph;
  for_each (nodes G) _do_progression;;
  G ← the_graph;
  for_each (nodes G) _do_infection;;
  _remove_interactions.

(** [Model.basic_simulation()] *)
Definition basic_simulation : M unit :=
  w ← get_world;
  b ← from_option TypeError (behaviours (sim_params w));
  modify (λ w, with_params
                 {| state_transitions := state_transitions (sim_params w);
                    generic_infection := generic_infection (sim_params w);
                    age_structure := age_structure (sim_params w);
                    population_size := population_size (sim_params w);
                    behaviours := behaviours (sim_params w);
                    behaviours_dict := Some (_convert_behaviours_to_dict b) |} w);;
  G ← the_graph;
  k ← from_option TypeError (num_infected (sim_graph w));
  infected ← with_random_result (random_sample (nodes G) k);
  _make_states_dict;;
  for_each infected (λ vertex, set_state InBasicSimulation 0 vertex "I");;
  T ← from_option TypeError (time_horizon (sim_graph w));
  for_each (seq 0 T) timestep.

(** ** simulation.py *)

(** [Simulation.create_graph()] *)
Definition create_graph : M unit :=
  w ← get_world;
  let msg :=
    match population_size (sim_params w) with
    | None => ["the community has not been set"]
    | Some _ => []
    end ++
    match generic_infection (sim_params w) with
    | None => ["the infection data has not been set"]
    | Some _ => []
    end in
  if decide (msg ≠ []) then
    raise (Exception ("Cannot create the graph: " +:+ String.concat ", " msg))
  else
    age_structure ← from_option AttributeError (age_structure (sim_params w));
    Graph_create_graph age_structure (generic_infection (sim_params w)).

(** [Simulation.save_graph_to_file(filename)] *)
Definition save_graph_to_file (filename : string) : M unit :=
  modify (λ w, with_files (<[filename := sim_graph w]> (files w)) w).

(** Python's [==] on the values that [load_graph_from_file] compares. *)
Definition float_eq (a b : option float) : bool :=
  match a, b with
  | Some x, Some y => (x =? y)%float
  | None, None => true
  | _, _ => false
  end.

Definition config_eq (a b : option GraphConfig) : bool :=
  match a, b with
  | Some x, Some y =>
      bool_decide (short_connection_diameter x = short_connection_diameter y)
      && bool_decide (long_connection_diameter x = long_connection_diameter y)
      && (decay x =? decay y)%float
      && bool_decide (closeness_threshold x = closeness_threshold y)
  | None, None => true
  | _, _ => false
  end.

Definition mismatch : exn :=
  Exception "The graph to be loaded does not adhere to the graph configuration".

(** [Simulation.load_graph_from_file(filename)] *)
Definition load_graph_from_file (filename : string) : M unit :=
  w ← get_world;
  loaded_graph ← from_option FileNotFoundError (files w !! filename);
  let valid_config := config_eq (graph_config loaded_graph) (graph_config (sim_graph w)) in
  let valid_time := bool_decide (time_horizon loaded_graph = time_horizon (sim_graph w)) in
  let valid_infected := bool_decide (num_infected loaded_graph = num_infected (sim_graph w)) in
  G ← from_option AttributeError (graph loaded_graph);
  let valid_population := bool_decide (Some (length (nodes G)) = population_size (sim_params w)) in
  let valid_infection_rate :=
    float_eq (infection_rate loaded_graph) (generic_infection (sim_params w)) in
  if negb (valid_config && valid_time && valid_infected && valid_population
           && valid_infection_rate) then raise mismatch
  else modify (with_graph loaded_graph).

(** [Simulation.run_single()] *)
Definition run_single : M (gmap string (list Z)) :=
  w ← get_world;
  (if new_graph_per_run w then
     if decide (load_graph_filename w ≠ "") then load_graph_from_file (load_graph_filename w)
     else create_graph
   else mret tt);;
  basic_simulation;;
  get_results.

(** [zip] applied to the unpacked list of lists *)
Fixpoint zip_star {A} (lists : list (list A)) : list (list A) :=
  match lists with
  | [] => []
  | [l] => (λ x, [x]) <$> l
  | l :: lists' => zip_with cons l (zip_star lists')
  end.

(** [int(np.round(np.mean(item)))]: the mean rounded to the nearest integer,
    halves to the even neighbour.  The float mean of integers is exact on
    halves and never rounds onto one, as long as the sum stays below 2^52. *)
Definition round_mean (item : list Z) : Z :=
  let n := Z.of_nat (length item) in
  let total := foldr Z.add 0%Z item in
  let q := (total `div` n)%Z in
  let r := (total `mod` n)%Z in
  if decide (2 * r < n)%Z then q
  else if decide (n < 2 * r)%Z then (q + 1)%Z
  else if Z.even q then q else (q + 1)%Z.

(** [max(d, key=d.get)] over the items of [d]: the first key whose value
    is maximal. *)
Fixpoint max_by_value (items : list (string * Z)) (best : string * Z) : string * Z :=
  match items with
  | [] => best
  | kv :: items' => max_by_value items' (if decide (best.2 < kv.2)%Z then kv else best)
  end.

Definition py_max (items : list (string * Z)) : result string :=
  match items with
  | [] => Raise ValueError
  | kv :: items' => Ok (max_by_value items' kv).1
  end.

(** [averaged[state][timestep]] *)
Definition averaged_at (averaged : gmap string (list Z)) (timestep : nat) (state : string)
  : result Z :=
  match averaged !! state with
  | None => Raise KeyError
  | Some l => match l !! timestep with Some x => Ok x | None => Raise IndexError end
  end.

(** [[body(x) for x in l]] for a body that may raise *)
Fixpoint map_result {A B} (body : A → result B) (l : list A) : result (list B) :=
  match l with
  | [] => Ok []
  | x :: l' => y ← body x; ys ← map_result body l'; Ok (y :: ys)
  end.

(** [state_dict[state]] *)
Definition result_of (state_dict : gmap string (list Z)) (state : string) : result (list Z) :=
  match state_dict !! state with
  | Some l => Ok l
  | None => Raise KeyError
  end.

(** The averaging loop of [run_multiple]. *)
Definition average (all_results : list (gmap string (list Z))) : result (gmap string (list Z)) :=
  fold_result (λ (averaged : gmap string (list Z)) (state : string),
      state_lists ← map_result (λ state_dict, result_of state_dict state) all_results;
      Ok (<[state := round_mean <$> zip_star state_lists]> averaged))
    STATES ∅.

(** One iteration of the repair loop of [run_multiple]. *)
Definition repair (population_size : option nat) (averaged : gmap string (list Z))
    (timestep : nat) : result (gmap string (list Z)) :=
  values ← map_result (averaged_at averaged timestep) STATES;
  let total := foldr Z.add 0%Z values in
  if decide (Some total ≠ Z.of_nat <$> population_size) then
    let states_at_timestep := zip STATES values in
    biggest_state ← py_max states_at_timestep;
    match population_size with
    | None => Raise TypeError
    | Some population_size =>
        Ok (alter (λ l, alter (λ x, x + (Z.of_nat population_size - total))%Z timestep l)
              biggest_state averaged)
    end
  else Ok averaged.

Fixpoint repeat_run {A} (n : nat) (run : M A) : M (list A) :=
  match n with
  | 0 => mret []
  | S n' => x ← run; xs ← repeat_run n' run; mret (x :: xs)
  end.

(** [Simulation.run_multiple(n)] *)
Definition run_multiple (n : nat) : M (gmap string (list Z)) :=
  all_results ← repeat_run n run_single;
  averaged ← lift_result (average all_results);
  w ← get_world;
  T ← from_option TypeError (time_horizon (sim_graph w));
  lift_result (fold_result (repair (population_size (sim_params w))) (seq 0 (T / 7)) averaged).

(** The representation invariant of [nxGraph]: node labels are distinct and
    every edge is stored under [edge_key] of its endpoints. *)
Record nx_wf (G : nxGraph) : Prop := {
  wf_nodes : NoDup (nodes G);
  wf_keys : ∀ u v d, edges G !! (u, v) = Some d → u ≤ v
}.

(** The state of [node] at timestep [t] in the timeline of [w]. *)
Definition state_at (w : World) (t node : nat) : option string :=
  states_dict w !! t ≫= λ row, row !! node.

(** The events a computation appended to the trace. *)
Definition new_events (w w' : World) (evs : list Event) : Prop :=
  trace w' = trace w ++ evs.

(** The nodes assigned at timestep [t] by [site], in order and with repetitions. *)
Definition written_by (site : Site) (t : nat) (evs : list Event) : list nat :=
  omap (λ e, match e with
             | Assign site' t' node _ =>
                 if decide (site' = site ∧ t' = t) then Some node else None
             | Draw _ _ _ _ => None
             end) evs.

(** Whether [evs] holds a successful infection draw against [node]. *)
Definition infected_in (evs : list Event) (node : nat) : bool :=
  existsb (λ e, match e with
                | Draw _ neighbour luck prob => bool_decide (neighbour = node) && (luck <=? prob)%float
                | Assign _ _ _ _ => false
                end) evs.

(** The series that samples the count of [state] every 7 timesteps from
    timestep [start] up to [T]. *)
Definition sampled_series (start T : nat) (w : World) (state : string) : list Z :=
  (λ k, count_state (default ∅ (states_dict w !! (start + 7 * k))) state)
    <$> seq 0 ((T + 7 - start) / 7).

(** The loaded graph agrees with the current configuration on the five
    validated fields. *)
Definition same_configuration (loaded : Graph) (w : World) : Prop :=
  config_eq (graph_config loaded) (graph_config (sim_graph w)) = true ∧
  time_horizon loaded = time_horizon (sim_graph w) ∧
  num_infected loaded = num_infected (sim_graph w) ∧
  (∃ G, graph loaded = Some G ∧ population_size (sim_params w) = Some (length (nodes G))) ∧
  float_eq (infection_rate loaded) (generic_infection (sim_params w)) = true.

(** [m] keeps [I], whether it returns or raises. *)
Definition preserves {A} (I : World → Prop) (m : M A) : Prop :=
  ∀ w, I w → match m w with Returned _ w' => I w' | Raised _ w' => I w' end.

(** ** Reasoning about monadic code *)

Definition progresses_to (p : Params) (s v : string) : Prop :=
  if decide (s ∈ ["R"; "D"; "S"]) then v = s
  else ∃ table distrib,
      state_transitions p = Some table ∧ table !! s = Some distrib ∧ v ∈ distrib.*1.

(** Everything but the timeline, the random generator and the trace is the same. *)
Definition same_setup (w w' : World) : Prop :=
  sim_params w' = sim_params w ∧ sim_graph w' = sim_graph w ∧ curr_time w' = curr_time w.

Definition infectious (w : World) (t node : nat) : Prop :=
  state_at w t node = Some "I" ∨ state_at w t node = Some "A".

(** What the infection pass of the timestep that starts in [w], on graph [G],
    may append to the trace. *)
Definition infection_event (w : World) (t : nat) (G : nxGraph) (e : Event) : Prop :=
  match e with
  | Draw node neighbour luck prob =>
      node ∈ nodes G ∧ neighbour ∈ neighbors G node ∧ infectious w t node ∧
      state_at w t neighbour = Some "S" ∧
      ∃ d, edges G !! edge_key node neighbour = Some d ∧ weight d = Some prob
  | Assign site t' node v =>
      site = InInfectNeighbours ∧ t' = t + 1 ∧ v = "E" ∧ state_at w t node = Some "S"
  end.

(** The state [w1] reached from [w] by infection steps that appended [evs]. *)
Definition infection_inv (w : World) (G : nxGraph) (row1 : gmap nat string)
    (evs : list Event) (w1 : World) : Prop :=
  same_setup w w1 ∧
  (∀ t, t ≠ curr_time w + 1 → states_dict w1 !! t = states_dict w !! t) ∧
  trace w1 = trace w ++ evs ∧
  Forall (infection_event w (curr_time w) G) evs ∧
  ∃ row1', states_dict w1 !! (curr_time w + 1) = Some row1' ∧
           ∀ u, row1' !! u = if infected_in evs u then Some "E" else row1 !! u.

(** Only the networkx graph inside the [Graph] object (and the random
    generator) may differ between [w] and [w']. *)
Definition same_settings (g g' : Graph) : Prop :=
  time_horizon g' = time_horizon g ∧ num_infected g' = num_infected g ∧
  graph_config g' = graph_config g ∧ infection_rate g' = infection_rate g ∧
  close_nodes_arr g' = close_nodes_arr g.

Definition only_nx_changed (w w' : World) : Prop :=
  sim_params w' = sim_params w ∧ curr_time w' = curr_time w ∧
  states_dict w' = states_dict w ∧ trace w' = trace w ∧
  same_settings (sim_graph w) (sim_graph w').

(** The edge data of an interaction edge created at infection rate [rate]. *)
Definition interaction_data (rate : option float) : EdgeData :=
  {| weight := rate; interaction_edge := true |}.

(** [G1] is [G] with interaction edges at rate [rate] added. *)
Definition nx_extends (rate : option float) (G G1 : nxGraph) : Prop :=
  (∃ extra, nodes G1 = nodes G ++ extra) ∧
  (nx_wf G → nx_wf G1) ∧
  (∀ k d, edges G !! k = Some d → edges G1 !! k = Some d) ∧
  (∀ k d, edges G1 !! k = Some d → edges G !! k = Some d ∨ d = interaction_data rate).

Definition adds_interactions (w w1 : World) : Prop :=
  only_nx_changed w w1 ∧
  ∀ G, graph (sim_graph w) = Some G →
       ∃ G1, graph (sim_graph w1) = Some G1 ∧ nx_extends (infection_rate (sim_graph w)) G G1.

Definition no_interaction_edges (G : nxGraph) : Prop :=
  ∀ k d, edges G !! k = Some d → interaction_edge d = false.

(** The transition table only names compartments as targets. *)
Definition valid_targets (p : Params) : Prop :=
  ∀ table s distrib v,
    state_transitions p = Some table → table !! s = Some distrib → v ∈ distrib.*1 →
    v ∈ STATES.

(** [row] gives a compartment to every node of [G], and to nothing else. *)
Definition covers (G : nxGraph) (row : gmap nat string) : Prop :=
  (∀ n, n ∈ nodes G → ∃ s, row !! n = Some s ∧ s ∈ STATES) ∧
  (∀ n, is_Some (row !! n) → n ∈ nodes G).

(** The timeline of a run of horizon [T] on graph [G] after [k] timesteps. *)
Definition timeline_inv (G : nxGraph) (T : nat) (p : Params) (g : Graph) (k : nat)
    (w : World) : Prop :=
  (∃ Gk, graph (sim_graph w) = Some Gk ∧ nodes Gk = nodes G ∧ nx_wf Gk) ∧
  sim_params w = p ∧ same_settings g (sim_graph w) ∧
  (∀ t, t ≤ k → ∃ row, states_dict w !! t = Some row ∧ covers G row) ∧
  (∀ t, k < t ≤ T → states_dict w !! t = Some ∅).

(** The counts of the compartments at one timestep, in the order of [STATES]. *)
Definition compartment_counts (row : gmap nat string) : list Z :=
  count_state row <$> STATES.

(** The graph that [create_graph] stores, from the lattice [D] left after
    the removal of the extra nodes. *)
Definition constructed_graph (D : DiGraph) (rate : option float) (ages : list (nat * string))
  : nxGraph :=
  set_node_age_groups
    (set_edge_weights (remove_selfloops (convert_node_labels_to_integers D)) rate) ages.

(** [arr[i][j]] *)
Definition entry (arr : list (list float)) (i j : nat) : option float :=
  arr !! i ≫= λ row, row !! j.

(** [arr] has shape [(n, n)]. *)
Definition square (n : nat) (arr : list (list float)) : Prop :=
  length arr = n ∧ ∀ i row, arr !! i = Some row → length row = n.

(** Nodes [i] and [j] are distinct and their grid locations are within
    Chebyshev distance [threshold]. *)
Definition is_close (G : nxGraph) (threshold : Z) (i j : nat) : bool :=
  match location_of G i, location_of G j with
  | Ok li, Ok lj =>
      bool_decide (i ≠ j) && bool_decide (_calculate_chebyshev_dist lj li ≤ threshold)%Z
  | _, _ => false
  end.

(** Every edge of the graph carries weight [rate], the infection rate of
    the [Graph] object. *)
Definition uniform_weights (rate : option float) (g : Graph) : Prop :=
  infection_rate g = rate ∧
  ∀ G k d, graph g = Some G → edges G !! k = Some d → weight d = rate.

Definition weights_are (rate : option float) (w : World) : Prop :=
  uniform_weights rate (sim_graph w).


Definition final_world {A} (o : outcome A) : World :=
  match o with
  | Returned _ w => w
  | Raised _ w => w
  end.

Definition returned {A} (o : outcome A) : option A :=
  match o with
  | Returned a _ => Some a
  | Raised _ _ => None
  end.

Definition example_node : NodeData :=
  {| location := None; age_group := Some "(0, 9)"; visit_days := ∅ |}.

Definition example_edge : EdgeData :=
  {| weight := Some 1%float; interaction_edge := false |}.

(** Nodes 0..4 with the edges 0-1, 0-2 and 2-3 of weight 1.0. *)
Definition example_nx : nxGraph :=
  {| nodes := [0; 1; 2; 3; 4];
     node_data := list_to_map ((λ n, (n, example_node)) <$> [0; 1; 2; 3; 4]);
     edges := list_to_map [((0, 1), example_edge); ((0, 2), example_edge);
                           ((2, 3), example_edge)] |}.

Definition example_graph (T : nat) : Graph :=
  {| graph := Some example_nx; time_horizon := Some T; num_infected := Some 1;
     graph_config := None; infection_rate := Some 1%float; close_nodes_arr := None |}.

Definition certain (target : string) : Distrib := [(target, {[ "(0, 9)" := 1%float ]})].

(** E → A → I → H → R, each with probability 1. *)
Definition example_transitions : gmap string Distrib :=
  list_to_map [("E", certain "A"); ("A", certain "I"); ("I", certain "H");
               ("H", certain "R")].

Definition example_params (bs : list (string * Behaviour)) : Params :=
  {| state_transitions := Some example_transitions; generic_infection := Some 1%float;
     age_structure := None; population_size := Some 5;
     behaviours := Some bs; behaviours_dict := Some bs |}.

(** Every uniform draw is 0.5 and every sample starts at position 3. *)
Definition example_rng : Rng :=
  {| cursor := 0; uniform_src := λ _, 0.5%float; choice_src := λ _, 3 |}.

(** A simulation of 7 timesteps without behaviours. *)
Definition example_world : World :=
  {| sim_params := example_params []; sim_graph := example_graph 7;
     new_graph_per_run := false; load_graph_filename := "";
     states_dict := ∅; curr_time := 0; rng := example_rng; files := ∅; trace := [] |}.

(** The state before the first timestep: node 3 is infected, and on every
    day each node meets two others at a party. *)
Definition example_seeded : World :=
  {| sim_params := example_params [("party", {| visits := 7; num_people := 2 |})];
     sim_graph := example_graph 1;
     new_graph_per_run := false; load_graph_filename := "";
     states_dict := {[ 0 := list_to_map [(0, "S"); (1, "S"); (2, "S"); (3, "I"); (4, "S")];
                       1 := ∅ ]};
     curr_time := 0; rng := example_rng; files := ∅; trace := [] |}.

(** The world after the run of the example, and after the first timestep of
    the seeded example. *)
Definition example_final : World := final_world (basic_simulation example_world).

Definition example_after : World := final_world (timestep 0 example_seeded).

Definition example_config : GraphConfig :=
  {| short_connection_diameter := 1; long_connection_diameter := 1; decay := 2%float;
     closeness_threshold := 1 |}.

(** A simulation that has not built its graph yet, for 3 people. *)
Definition example_unbuilt : World :=
  {| sim_params :=
       {| state_transitions := Some example_transitions; generic_infection := Some 0.5%float;
          age_structure := Some [("(0, 9)", 3)]; population_size := Some 3;
          behaviours := Some []; behaviours_dict := None |};
     sim_graph :=
       {| graph := None; time_horizon := Some 8; num_infected := Some 1;
          graph_config := Some example_config; infection_rate := None;
          close_nodes_arr := None |};
     new_graph_per_run := false; load_graph_filename := "";
     states_dict := ∅; curr_time := 0; rng := example_rng; files := ∅; trace := [] |}.

Definition example_built : World :=
  final_world (Graph_create_graph [("(0, 9)", 3)] (Some 0.5%float) example_unbuilt).

(** The example with its own graph saved to a file. *)
Definition example_saved : World :=
  final_world (save_graph_to_file "graph.pkl"
                 {| sim_params := sim_params example_world;
                    sim_graph := example_graph 7;
                    new_graph_per_run := false; load_graph_filename := "";
                    states_dict := ∅; curr_time := 0; rng := example_rng; files := ∅;
                    trace := [] |}).

(** The counts of the 7 compartments at reporting step [k] of a series, in
    the order of [STATES]. *)
Definition step_counts (series : gmap string (list Z)) (k : nat) : result (list Z) :=
  map_result (averaged_at series k) STATES.

(** Two runs on a graph built for 3 people: a star with centre 0.  In both
    runs a leaf is infected; in the first run its draw against the centre
    fails, in the second it succeeds.  Every state moves on to R in one step. *)
Definition bug_rng : Rng :=
  {| cursor := 0;
     uniform_src := λ i, if decide (i = 10) then 0.9%float else 0.1%float;
     choice_src := λ i, if decide (i = 8 ∨ i = 11) then 1 else 3 |}.

Definition bug_world : World :=
  {| sim_params :=
       {| state_transitions :=
            Some (list_to_map [("E", certain "R"); ("A", certain "R"); ("I", certain "R");
                               ("H", certain "R")]);
          generic_infection := Some 0.5%float;
          age_structure := Some [("(0, 9)", 3)]; population_size := Some 3;
          behaviours := Some []; behaviours_dict := None |};
     sim_graph :=
       {| graph := None; time_horizon := Some 8; num_infected := Some 1;
          graph_config := Some example_config; infection_rate := None;
          close_nodes_arr := None |};
     new_graph_per_run := false; load_graph_filename := "";
     states_dict := ∅; curr_time := 0; rng := bug_rng; files := ∅; trace := [] |}.

Definition bug_built : World := final_world (create_graph bug_world).

Definition bug_averaged : outcome (gmap string (list Z)) := run_multiple 2 bug_built.

(** No transition of the table leads back to S. *)
Definition no_reinfection (p : Params) : Prop :=
  ∀ table s distrib,
    state_transitions p = Some table → table !! s = Some distrib → "S" ∉ distrib.*1.

(** Every node with a state at timestep [t] is a node of the graph. *)
Definition within_graph (w : World) (t : nat) : Prop :=
  ∃ G, graph (sim_graph w) = Some G ∧ ∀ u, is_Some (state_at w t u) → u ∈ nodes G.

(** The example graph with [k] initially infected nodes. *)
Definition example_graph_with (k : nat) : Graph :=
  {| graph := Some example_nx; time_horizon := Some 7; num_infected := Some k;
     graph_config := None; infection_rate := Some 1%float; close_nodes_arr := None |}.

(** ** model.py: the series of [plot_doubling_time]
    [[body(x) for x in l]] for a body that runs in the monad: *)
Fixpoint for_list {A B} (l : list A) (body : A → M B) : M (list B) :=
  match l with
  | [] => mret []
  | x :: l' => y ← body x; ys ← for_list l' body; mret (y :: ys)
  end.

(** The first loop of [Model.plot_doubling_time(filename)]: the cumulative
    cases, everyone who is not in state S, for every timestep before the
    time horizon. *)
Definition infectious_counts : M (list Z) :=
  w ← get_world;
  T ← from_option TypeError (time_horizon (sim_graph w));
  for_list (seq 0 T) (λ timestep,
    counts ← _get_state_counts timestep;
    population_size ← from_option TypeError (population_size (sim_params w));
    mret (Z.of_nat population_size - counts "S")%Z).

(** Its inner loop for one [ix]: the first [ix_future] after [ix] at which the
    count is at least twice the count at [ix], as the distance from [ix]. *)
Definition doubling_at (infectious_counts : list Z) (ix : nat) : option nat :=
  (λ found, found.2 - ix) <$>
    list_find (λ ix_future, (infectious_counts !!! ix * 2 ≤ infectious_counts !!! ix_future)%Z)
      (seq (ix + 1) (length infectious_counts - (ix + 1))).

(** Its second loop: the doubling times that were found, appended one after
    the other. *)
Definition double_times_found (infectious_counts : list Z) : list nat :=
  foldl (λ double_times ix,
           match doubling_at infectious_counts ix with
           | Some d => double_times ++ [d]
           | None => double_times
           end) [] (seq 0 (length infectious_counts)).

(** The list that is plotted against the timesteps: the doubling times
    found, filled up with None to the length of the counts. *)
Definition double_times (infectious_counts : list Z) : list (option nat) :=
  let double_times := Some <$> double_times_found infectious_counts in
  let diff := length infectious_counts - length double_times in
  if decide (diff ≠ 0) then double_times ++ replicate diff None else double_times.


(** The graph built in the example, and the row of node 0 in its closeness
    array. *)
Definition example_built_nx : nxGraph :=
  default {| nodes := []; node_data := ∅; edges := ∅ |} (graph (sim_graph example_built)).

Definition example_row : list float :=
  default [] (close_nodes_arr (sim_graph example_built) ≫= λ arr, arr !! 0).

(** The attributes of [n], a node of [G], are those of [d] in the current graph. *)
Definition node_keeps (n : nat) (d : NodeData) (w : World) : Prop :=
  ∃ G, graph (sim_graph w) = Some G ∧ n ∈ nodes G ∧ node_data G !! n = Some d.

(** ** params.py: the community
    [class Params] with the two attributes that hold the community besides
    the parameters the simulation reads: [community_data], which gives for a
    community the ["age_structure"] entry of its data if there is one, and
    [community]. *)
Record ParamsObject := {
  base : Params;
  community_data : option (gmap string (option (list (string * nat))));
  community : option string
}.

(** What a method of [Params] leaves behind: the object as it is when the
    method returns or raises. *)
Inductive params_outcome :=
| PReturned (p : ParamsObject)
| PRaised (e : exn) (p : ParamsObject).

(** [Params.set_community(community)]; the argument is called [name] here, to
    tell it from the attribute. *)
Definition set_community (name : string) (p : ParamsObject) : params_outcome :=
  match community_data p with
  | None => PRaised (Exception "Please load the community data first.") p
  | Some data =>
      match data !! name with
      | None =>
          PRaised (Exception ("Community " +:+ name
                              +:+ " not found in the community data")) p
      | Some entry =>
          let p := {| base := base p; community_data := community_data p;
                      community := Some name |} in
          match entry with
          | None => PRaised KeyError p
          | Some age_structure =>
              PReturned
                {| base :=
                     {| state_transitions := state_transitions (base p);
                        generic_infection := generic_infection (base p);
                        age_structure := Some age_structure;
                        population_size := Some (sum_list age_structure.*2);
                        behaviours := behaviours (base p);
                        behaviours_dict := behaviours_dict (base p) |};
                   community_data := community_data p;
                   community := community p |}
          end
      end
  end.

(** [Params.set_app_input(community, behaviours)] *)
Definition set_app_input (name : string) (variants : list (string * Behaviour))
    (p : ParamsObject) : params_outcome :=
  match set_community name p with
  | PReturned p =>
      PReturned
        {| base :=
             {| state_transitions := state_transitions (base p);
                generic_infection := generic_infection (base p);
                age_structure := age_structure (base p);
                population_size := population_size (base p);
                behaviours := Some variants;
                behaviours_dict := behaviours_dict (base p) |};
           community_data := community_data p;
           community := community p |}
  | PRaised e p => PRaised e p
  end.





(** ** params.py: behaviour variants as strings
    [s.split(sep)] for a separator of one character: *)
Fixpoint py_split (sep : ascii) (s : string) : list string :=
  match s with
  | EmptyString => [EmptyString]
  | String c s' =>
      if decide (c = sep) then EmptyString :: py_split sep s'
      else match py_split sep s' with
           | piece :: pieces => String c piece :: pieces
           | [] => [String c EmptyString]
           end
  end.

(** White space, as [int] strips it (ASCII). *)
Definition is_space (c : ascii) : bool :=
  let n := nat_of_ascii c in
  bool_decide (9 ≤ n ≤ 13) || bool_decide (28 ≤ n ≤ 32).

Fixpoint lstrip (s : string) : string :=
  match s with
  | EmptyString => EmptyString
  | String c s' => if is_space c then lstrip s' else s
  end.

Fixpoint rstrip (s : string) : string :=
  match s with
  | EmptyString => EmptyString
  | String c s' =>
      match rstrip s' with
      | EmptyString => if is_space c then EmptyString else String c EmptyString
      | r => String c r
      end
  end.

(** [int(s)] for a string without underscores: white space around, an
    optional sign, decimal digits.  (Python also accepts digits and white
    space beyond ASCII.) *)
Definition py_int (s : string) : result Z :=
  let s := rstrip (lstrip s) in
  let '(negative, digits) :=
    match s with
    | String "-" s' => (true, s')
    | String "+" s' => (false, s')
    | _ => (false, s)
    end in
  match DecimalString.NilZero.uint_of_string digits with
  | Some d => Ok (if negative : bool then - Z.of_uint d else Z.of_uint d)%Z
  | None => Raise ValueError
  end.

(** [str(n)] for an integer *)
Definition py_str (n : Z) : string := DecimalString.NilZero.string_of_int (Z.to_int n).

(** [l[-k]] for [k >= 1] *)
Definition from_end {A} (l : list A) (k : nat) : result A :=
  if decide (k ≤ length l) then
    match l !! (length l - k) with Some x => Ok x | None => Raise IndexError end
  else Raise IndexError.

(** One turn of the loop of [Params._convert_behaviours_to_dict]: the name,
    the visits and the number of people of a variant. *)
Definition split_behaviour (behaviour : string) : result (string * (Z * Z)) :=
  let splitted := py_split "_" behaviour in
  let name := String.concat "_" (take (length splitted - 2) splitted) in
  visits ← from_end splitted 2 ≫= py_int;
  num_people ← from_end splitted 1 ≫= py_int;
  Ok (name, (visits, num_people)).

(** [Params._convert_behaviours_to_dict()] on the strings themselves. *)
Definition convert_behaviour_strings (behaviours : list string)
  : result (list (string * (Z * Z))) :=
  fold_result (λ behaviours_dict behaviour,
      '(name, numbers) ← split_behaviour behaviour;
      Ok (dict_set name numbers behaviours_dict))
    behaviours [].

(** ** run_all.py: generating the variants
    [get_behaviour_variants(behaviour, input_values)], with the two
    dictionaries of [input_values] it reads. *)
Definition get_behaviour_variants (behaviour : string)
    (num_visits num_people : gmap string (list Z)) : result (list string) :=
  visits ← match num_visits !! behaviour with Some l => Ok l | None => Raise KeyError end;
  people ← match num_people !! behaviour with Some l => Ok l | None => Raise KeyError end;
  let visits_vals := py_str <$> visits in
  let num_people_vals := py_str <$> people in
  let variants_tuples :=
    b ← [behaviour]; v ← visits_vals; n ← num_people_vals; [[b; v; n]] in
  let variants := String.concat "_" <$> variants_tuples in
  Ok (variants ++ [behaviour +:+ "_0_0"]).

(** The string of a variant. *)
Definition variant (name : string) (visits num_people : Z) : string :=
  name +:+ "_" +:+ py_str visits +:+ "_" +:+ py_str num_people.

(** The characters of a string *)
Fixpoint chars (s : string) : list ascii :=
  match s with
  | EmptyString => []
  | String c s' => c :: chars s'
  end.

Definition is_digit (c : ascii) : Prop := c ∈ chars "0123456789".

(** The numbers of a behaviour, as the strings carry them. *)
Definition numbers_of (nb : string * Behaviour) : string * (Z * Z) :=
  (nb.1, (Z.of_nat (visits nb.2), Z.of_nat (num_people nb.2))).

Lemma bind_returned {A B} (m : M A) (f : A → M B) w b w2 :
  (m ≫= f) w = Returned b w2 ↔ ∃ a w1, m w = Returned a w1 ∧ f a w1 = Returned b w2.
Proof.
  unfold mbind, M_bind. split.
  - destruct (m w) as [a w1|e w1]; [eauto | discriminate].
  - intros (a & w1 & -> & ?). done.
Qed.

Lemma ret_returned {A} (a b : A) w w' : mret (M := M) a w = Returned b w' ↔ a = b ∧ w = w'.
Proof. unfold mret, M_ret. split; [by inversion 1 | by intros [-> ->]]. Qed.

Lemma from_option_returned {A} e (o : option A) w a w' :
  from_option e o w = Returned a w' ↔ o = Some a ∧ w = w'.
Proof.
  destruct o as [x|]; simpl; unfold mret, M_ret, raise; split.
  - by inversion 1.
  - by intros [[= ->] ->].
  - inversion 1.
  - by intros [? _].
Qed.

Lemma lift_result_returned {A} (x : result A) w a w' :
  lift_result x w = Returned a w' ↔ x = Ok a ∧ w = w'.
Proof.
  unfold lift_result. destruct x as [x|e]; split.
  - by inversion 1.
  - by intros [[= ->] ->].
  - inversion 1.
  - by intros [? _].
Qed.

Lemma with_random_result_returned {A} (f : Rng → result (A * Rng)) w a w' :
  with_random_result f w = Returned a w' ↔ ∃ r, f (rng w) = Ok (a, r) ∧ w' = with_rng r w.
Proof.
  unfold with_random_result. destruct (f (rng w)) as [[a0 r]|e]; split.
  - inversion 1; subst. eauto.
  - by intros (r' & [= -> ->] & ->).
  - inversion 1.
  - by intros (? & ? & _).
Qed.

Lemma with_random_returned {A} (f : Rng → A * Rng) w a w' :
  with_random f w = Returned a w' ↔ ∃ r, f (rng w) = (a, r) ∧ w' = with_rng r w.
Proof.
  unfold with_random. destruct (f (rng w)) as [a0 r]. split.
  - inversion 1; subst. eauto.
  - by intros (r' & [= -> ->] & ->).
Qed.

Lemma the_graph_returned w G w' :
  the_graph w = Returned G w' ↔ graph (sim_graph w) = Some G ∧ w = w'.
Proof.
  unfold the_graph. rewrite bind_returned. split.
  - intros (w0 & w1 & [= <- <-] & H). by apply from_option_returned in H.
  - intros [H <-]. exists w, w. split; [done|]. by apply from_option_returned.
Qed.

Lemma get_state_returned t node w s w' :
  get_state t node w = Returned s w' ↔ state_at w t node = Some s ∧ w = w'.
Proof.
  unfold get_state, state_at. rewrite bind_returned. split.
  - intros (w0 & w1 & [= <- <-] & H). apply bind_returned in H as (row & w1 & H1 & H).
    apply from_option_returned in H1 as [H1 <-]. apply from_option_returned in H as [H <-].
    by rewrite H1.
  - intros [H <-]. exists w, w. split; [done|].
    destruct (states_dict w !! t) as [row|] eqn:Hrow; [|done]. simpl in H.
    apply bind_returned. exists row, w. split; by apply from_option_returned.
Qed.

Lemma set_state_returned site t node v w w' :
  set_state site t node v w = Returned tt w' ↔
  ∃ row, states_dict w !! t = Some row ∧
         w' = log (Assign site t node v)
                (with_states_dict (<[t := <[node := v]> row]> (states_dict w)) w).
Proof.
  unfold set_state. rewrite bind_returned. split.
  - intros (w0 & w1 & [= <- <-] & H). apply bind_returned in H as (row & w1 & H1 & H).
    apply from_option_returned in H1 as [H1 <-]. injection H as <-. eauto.
  - intros (row & Hrow & ->). exists w, w. split; [done|].
    apply bind_returned. exists row, w. split; [by apply from_option_returned | done].
Qed.

(** Take apart a hypothesis that says a computation returned. *)
Ltac minv H :=
  lazymatch type of H with
  | (_ ≫= _) _ = Returned _ _ =>
      let a := fresh "a" in let w := fresh "w" in
      let H1 := fresh H in
      apply bind_returned in H as (a & w & H1 & H); minv H1; minv H
  | mret _ _ = Returned _ _ => apply ret_returned in H as [? ?]; subst
  | get_world _ = Returned _ _ => injection H as ? ?; subst
  | modify _ _ = Returned _ _ => injection H as ?; subst
  | raise _ _ = Returned _ _ => discriminate H
  | from_option _ _ _ = Returned _ _ => apply from_option_returned in H as [H ?]; subst
  | lift_result _ _ = Returned _ _ => apply lift_result_returned in H as [H ?]; subst
  | the_graph _ = Returned _ _ => apply the_graph_returned in H as [H ?]; subst
  | get_state _ _ _ = Returned _ _ => apply get_state_returned in H as [H ?]; subst
  | set_state _ _ _ _ _ = Returned _ _ =>
      let row := fresh "row" in apply set_state_returned in H as (row & H & ?); subst
  | with_random_result _ _ = Returned _ _ =>
      let r := fresh "r" in apply with_random_result_returned in H as (r & H & ?); subst
  | with_random _ _ = Returned _ _ =>
      let r := fresh "r" in apply with_random_returned in H as (r & H & ?); subst
  | _ => idtac
  end.

Lemma for_each_returned {A} (I : list A → World → Prop) (l : list A) (body : A → M unit) w w' :
  (∀ done x rest w1 w2,
      l = done ++ x :: rest → I done w1 → body x w1 = Returned tt w2 → I (done ++ [x]) w2) →
  I [] w → for_each l body w = Returned tt w' → I l w'.
Proof.
  intros Hstep. revert w.
  assert (∀ rest done w, l = done ++ rest → I done w →
            for_each rest body w = Returned tt w' → I l w') as Hgen.
  { induction rest as [|x rest IH]; intros done w Hl HI Hrun; simpl in Hrun.
    - apply ret_returned in Hrun as [_ <-]. by rewrite Hl, app_nil_r.
    - apply bind_returned in Hrun as ([] & w1 & Hx & Hrun).
      apply (IH (done ++ [x]) w1); [by rewrite <- app_assoc | | done].
      eapply Hstep; eauto. }
  intros w. by apply (Hgen l []).
Qed.

Lemma for_each_preserves {A} (I : World → Prop) (l : list A) (body : A → M unit) :
  (∀ x, x ∈ l → preserves I (body x)) → preserves I (for_each l body).
Proof.
  induction l as [|x l IH]; intros Hbody w HI; simpl; [done|].
  unfold mbind, M_bind. pose proof (Hbody x (list_elem_of_here _ _) w HI) as Hx.
  destruct (body x w) as [[] w1|e w1]; [|done].
  apply IH; [|done]. intros y Hy. apply Hbody. by right.
Qed.

Lemma bind_preserves {A B} (I : World → Prop) (m : M A) (f : A → M B) :
  preserves I m → (∀ a, preserves I (f a)) → preserves I (m ≫= f).
Proof.
  intros Hm Hf w HI. unfold mbind, M_bind. specialize (Hm w HI).
  destruct (m w) as [a w1|e w1]; [by apply Hf | done].
Qed.

(** ** The progression pass *)

Lemma cumulative_choice_in ag m c (d : Distrib) v :
  cumulative_choice ag m c d = Ok (Some v) → v ∈ d.*1.
Proof.
  revert c. induction d as [|[value by_age] d IH]; intros c; simpl; [done|].
  destruct (by_age !! ag) as [p|]; [|done].
  destruct (m <=? c + p)%float.
  - intros [= ->]. left.
  - intros H. right. by eapply IH.
Qed.

Lemma foldl_string_min_in k ks : foldl string_min k ks ∈ k :: ks.
Proof.
  revert k. induction ks as [|k' ks IH]; intros k; simpl; [left|].
  specialize (IH (string_min k k')). unfold string_min in *.
  destruct (String.ltb k' k); apply elem_of_cons in IH as [->|IH]; set_solver.
Qed.

Lemma min_key_in ks k : min_key ks = Ok k → k ∈ ks.
Proof. destruct ks; simpl; [done|]. intros [= <-]. apply foldl_string_min_in. Qed.

Lemma _choose_from_distrib_returned ag d w v w' :
  _choose_from_distrib ag d w = Returned v w' →
  v ∈ d.*1 ∧ same_setup w w' ∧ states_dict w' = states_dict w ∧ trace w' = trace w.
Proof.
  unfold _choose_from_distrib. intros H. minv H.
  destruct a0 as [value|]; minv H.
  - split; [by eapply cumulative_choice_in | done].
  - split; [by apply min_key_in | done].
Qed.

Lemma _do_progression_returned node w w' :
  _do_progression node w = Returned tt w' →
  ∃ s v row1,
    state_at w (curr_time w) node = Some s ∧
    progresses_to (sim_params w) s v ∧
    states_dict w !! (curr_time w + 1) = Some row1 ∧
    states_dict w' = <[curr_time w + 1 := <[node := v]> row1]> (states_dict w) ∧
    trace w' = trace w ++ [Assign InDoProgression (curr_time w + 1) node v] ∧
    same_setup w w'.
Proof.
  unfold _do_progression. intros H.
  apply bind_returned in H as (w0 & w1 & [= <- <-] & H).
  apply bind_returned in H as (s & w1 & Hs & H).
  apply get_state_returned in Hs as [Hs <-].
  apply bind_returned in H as (G & w1 & HG & H).
  apply the_graph_returned in HG as [HG <-].
  apply bind_returned in H as (d & w1 & Hd & H).
  apply from_option_returned in Hd as [Hd <-].
  apply bind_returned in H as (ag & w1 & Hag & H).
  apply from_option_returned in Hag as [Hag <-].
  unfold progresses_to. destruct (decide (s ∉ _)) as [Hin|Hin].
  - apply bind_returned in H as (table & w1 & Htable & H).
    apply from_option_returned in Htable as [Htable <-].
    apply bind_returned in H as (distrib & w1 & Hdistrib & H).
    apply from_option_returned in Hdistrib as [Hdistrib <-].
    apply bind_returned in H as (v & w1 & Hv & H).
    apply _choose_from_distrib_returned in Hv as (Hv & (Hp & Hg & Ht) & Hsd & Htr).
    apply set_state_returned in H as (row & Hrow & ->).
    exists s, v, row. rewrite decide_False by done.
    simpl. rewrite Hsd, Htr. rewrite Hsd in Hrow. repeat split; eauto.
  - apply set_state_returned in H as (row & Hrow & ->).
    exists s, s, row. apply dec_stable in Hin. rewrite decide_True by done.
    done.
Qed.

Lemma with_states_dict_lookup_ne (sd : gmap nat (gmap nat string)) t t' row :
  t ≠ t' → <[t := row]> sd !! t' = sd !! t'.
Proof. apply lookup_insert_ne. Qed.

(** The progression pass over the node list [l]. *)
Lemma progression_pass (l : list nat) (w w' : World) (row1 : gmap nat string) :
  states_dict w !! (curr_time w + 1) = Some row1 →
  for_each l _do_progression w = Returned tt w' →
  same_setup w w' ∧
  (∀ t, t ≠ curr_time w + 1 → states_dict w' !! t = states_dict w !! t) ∧
  (∃ vs row1',
      Forall2 (λ n v, ∃ s, state_at w (curr_time w) n = Some s ∧
                           progresses_to (sim_params w) s v) l vs ∧
      trace w' = trace w ++ zip_with (Assign InDoProgression (curr_time w + 1)) l vs ∧
      states_dict w' !! (curr_time w + 1) = Some row1' ∧
      (∀ n, n ∉ l → row1' !! n = row1 !! n) ∧
      (∀ n, n ∈ l → ∃ s v, state_at w (curr_time w) n = Some s ∧ row1' !! n = Some v ∧
                            progresses_to (sim_params w) s v)).
Proof.
  intros Hrow1 Hrun.
  pose (I := λ (done : list nat) (w1 : World),
    same_setup w w1 ∧
    (∀ t, t ≠ curr_time w + 1 → states_dict w1 !! t = states_dict w !! t) ∧
    (∃ vs row1',
      Forall2 (λ n v, ∃ s, state_at w (curr_time w) n = Some s ∧
                           progresses_to (sim_params w) s v) done vs ∧
      trace w1 = trace w ++ zip_with (Assign InDoProgression (curr_time w + 1)) done vs ∧
      states_dict w1 !! (curr_time w + 1) = Some row1' ∧
      (∀ n, n ∉ done → row1' !! n = row1 !! n) ∧
      (∀ n, n ∈ done → ∃ s v, state_at w (curr_time w) n = Some s ∧ row1' !! n = Some v ∧
                            progresses_to (sim_params w) s v))).
  apply (for_each_returned I l _do_progression w w'); [| |done].
  - clear Hrun w'.
    intros done x rest w1 w2 Hl (Hsetup & Hother & vs & r1 & Hvs & Htr & Hr1 & Hout & Hin) Hx.
    apply _do_progression_returned in Hx as (s & v & row & Hs & Hv & Hrow & Hsd & Htr2 & Hsetup2).
    destruct Hsetup as (Hp & Hg & Ht). destruct Hsetup2 as (Hp2 & Hg2 & Ht2).
    rewrite Ht in *. rewrite Hr1 in Hrow. injection Hrow as <-.
    assert (state_at w (curr_time w) x = Some s) as Hs'.
    { unfold state_at in *. rewrite <- Hother; [done|lia]. }
    rewrite Hp in Hv.
    split; [|split].
    + unfold same_setup. by rewrite Hp2, Hg2, Ht2.
    + intros t Hne. rewrite Hsd, lookup_insert_ne by done. by apply Hother.
    + exists (vs ++ [v]), (<[x := v]> r1). split; [|split; [|split; [|split]]].
      * apply Forall2_app; [done|]. apply Forall2_cons. split; [eauto|apply Forall2_nil_2].
      * rewrite Htr2, Htr, <- app_assoc. f_equal.
        rewrite zip_with_app by (by eapply Forall2_length). done.
      * by rewrite Hsd, lookup_insert_eq.
      * intros n Hn. apply not_elem_of_app in Hn as [Hn1 Hn2].
        apply not_elem_of_cons in Hn2 as [Hn2 _].
        rewrite lookup_insert_ne by done. by apply Hout.
      * intros n Hn. destruct (decide (n = x)) as [->|Hne].
        -- exists s, v. by rewrite lookup_insert_eq.
        -- rewrite lookup_insert_ne by done. apply Hin.
           apply elem_of_app in Hn as [Hn|Hn]; [done|].
           by apply list_elem_of_singleton in Hn.
  - split; [done|]. split; [done|]. exists [], row1. rewrite app_nil_r.
    split; [apply Forall2_nil_2|]. split; [done|]. split; [done|]. split; [done|].
    intros n Hn. by apply elem_of_nil in Hn.
Qed.

(** ** The infection pass *)

Lemma infected_in_app evs evs' u :
  infected_in (evs ++ evs') u = infected_in evs u || infected_in evs' u.
Proof. unfold infected_in. apply existsb_app. Qed.

Lemma infection_inv_state_at w G row1 evs w1 node :
  infection_inv w G row1 evs w1 →
  state_at w1 (curr_time w1) node = state_at w (curr_time w) node.
Proof.
  intros ((_ & _ & Ht) & Hother & _). unfold state_at. rewrite Ht, Hother; [done|lia].
Qed.

Lemma _infect_neighbours_step w G row1 evs w1 node neighbour w2 :
  graph (sim_graph w) = Some G →
  infection_inv w G row1 evs w1 →
  node ∈ nodes G → neighbour ∈ neighbors G node → infectious w (curr_time w) node →
  _infect_neighbours node neighbour w1 = Returned tt w2 →
  ∃ evs', infection_inv w G row1 (evs ++ evs') w2 ∧
          (state_at w (curr_time w) neighbour = Some "S" →
           ∃ luck prob, Draw node neighbour luck prob ∈ evs').
Proof.
  intros HG Hinv Hnode Hnb Hinf H.
  pose proof (infection_inv_state_at _ _ _ _ _ neighbour Hinv) as Hst.
  destruct Hinv as (Hsetup & Hother & Htr & Hevs & row1' & Hrow1' & Hrow).
  pose proof Hsetup as (Hp & Hg & Ht).
  unfold _infect_neighbours in H.
  apply bind_returned in H as (w0 & w3 & [= <- <-] & H).
  apply bind_returned in H as (s & w3 & Hs & H).
  apply get_state_returned in Hs as [Hs <-]. rewrite Hst in Hs.
  destruct (decide (s = "S")) as [->|Hne].
  - apply bind_returned in H as (G' & w3 & HG' & H).
    apply the_graph_returned in HG' as [HG' <-]. rewrite Hg, HG in HG'. injection HG' as <-.
    apply bind_returned in H as (d & w3 & Hd & H).
    apply from_option_returned in Hd as [Hd <-].
    apply bind_returned in H as (p & w3 & Hpw & H).
    apply from_option_returned in Hpw as [Hpw <-].
    apply bind_returned in H as (luck & w3 & Hluck & H).
    apply with_random_returned in Hluck as (r & Hluck & ->).
    apply bind_returned in H as ([] & w3 & Hlog & H).
    injection Hlog as <-.
    assert (infection_event w (curr_time w) G (Draw node neighbour luck p)) as Hdraw.
    { simpl. repeat split; eauto. }
    destruct (luck <=? p)%float eqn:Hle.
    + apply set_state_returned in H as (row & Hrow2 & ->). simpl in *.
      rewrite Ht, Hrow1' in Hrow2. injection Hrow2 as <-.
      exists [Draw node neighbour luck p; Assign InInfectNeighbours (curr_time w + 1) neighbour "E"].
      split.
      * split; [done|]. split; [|split; [|split]]; simpl.
        -- intros t Hne. rewrite Ht, lookup_insert_ne by done. by apply Hother.
        -- rewrite Htr, Ht, <- !app_assoc. done.
        -- apply Forall_app. split; [done|].
           apply Forall_cons. split; [exact Hdraw|].
           apply Forall_cons. split; [by simpl|]. apply Forall_nil_2.
        -- exists (<[neighbour := "E"]> row1'). rewrite Ht, lookup_insert_eq. split; [done|].
           intros u. rewrite infected_in_app. simpl. rewrite Hle.
           destruct (decide (neighbour = u)) as [->|Hne].
           ++ rewrite lookup_insert_eq, bool_decide_eq_true_2 by done. simpl.
              by rewrite orb_true_r.
           ++ rewrite lookup_insert_ne, bool_decide_eq_false_2 by done. simpl.
              rewrite orb_false_r. apply Hrow.
      * intros _. exists luck, p. left.
    + apply ret_returned in H as [_ <-]. exists [Draw node neighbour luck p]. split.
      * split; [done|]. split; [|split; [|split]]; simpl.
        -- done.
        -- by rewrite Htr, <- app_assoc.
        -- apply Forall_app. split; [done|].
           apply Forall_cons. split; [exact Hdraw|]. apply Forall_nil_2.
        -- exists row1'. split; [done|]. intros u. rewrite infected_in_app. simpl.
           rewrite Hle, andb_false_r. simpl. rewrite orb_false_r. apply Hrow.
      * intros _. exists luck, p. left.
  - apply ret_returned in H as [_ <-]. exists []. rewrite app_nil_r. split.
    + repeat split; eauto.
    + intros Hs'. congruence.
Qed.

Lemma infection_inv_refl w G row1 :
  states_dict w !! (curr_time w + 1) = Some row1 → infection_inv w G row1 [] w.
Proof.
  intros Hrow. split; [done|]. split; [done|]. split; [by rewrite app_nil_r|].
  split; [apply Forall_nil_2|]. exists row1. done.
Qed.

Lemma _do_infection_step w G row1 evs w1 node w2 :
  graph (sim_graph w) = Some G →
  infection_inv w G row1 evs w1 →
  node ∈ nodes G →
  _do_infection node w1 = Returned tt w2 →
  ∃ evs', infection_inv w G row1 (evs ++ evs') w2 ∧
          (infectious w (curr_time w) node → ∀ u, u ∈ neighbors G node →
           state_at w (curr_time w) u = Some "S" →
           ∃ luck prob, Draw node u luck prob ∈ evs').
Proof.
  intros HG Hinv Hnode H.
  pose proof (infection_inv_state_at _ _ _ _ _ node Hinv) as Hst.
  pose proof Hinv as ((Hp & Hg & Ht) & _).
  unfold _do_infection in H.
  apply bind_returned in H as (w0 & w3 & [= <- <-] & H).
  apply bind_returned in H as (s & w3 & Hs & H).
  apply get_state_returned in Hs as [Hs <-]. rewrite Hst in Hs.
  destruct (decide (s = "I" ∨ s = "A")) as [Hinf|Hninf].
  - assert (infectious w (curr_time w) node) as Hinf' by (destruct Hinf as [-> | ->]; [by left | by right]).
    apply bind_returned in H as (G' & w3 & HG' & H).
    apply the_graph_returned in HG' as [HG' <-]. rewrite Hg, HG in HG'. injection HG' as <-.
    pose (I := λ (done : list nat) (w' : World),
      ∃ evs', infection_inv w G row1 (evs ++ evs') w' ∧
              ∀ u, u ∈ done → state_at w (curr_time w) u = Some "S" →
                   ∃ luck prob, Draw node u luck prob ∈ evs').
    assert (I (neighbors G node) w2) as (evs' & Hinv' & Hall).
    { apply (for_each_returned I (neighbors G node) (_infect_neighbours node) w1 w2); [| |done].
      - intros done x rest w' w'' Hl (evs' & Hinv' & Hall) Hx.
        eapply _infect_neighbours_step in Hx as (evs'' & Hinv'' & Hdraw); eauto.
        2:{ rewrite Hl. set_solver. }
        exists (evs' ++ evs''). rewrite app_assoc. split; [done|].
        intros u [Hu| ->%list_elem_of_singleton]%elem_of_app HS.
        + destruct (Hall u Hu HS) as (luck & prob & Hin). exists luck, prob. set_solver.
        + destruct (Hdraw HS) as (luck & prob & Hin). exists luck, prob. set_solver.
      - exists []. rewrite app_nil_r. split; [done|]. intros u Hu. by apply elem_of_nil in Hu. }
    exists evs'. split; [done|]. intros _. exact Hall.
  - apply ret_returned in H as [_ <-]. exists []. rewrite app_nil_r. split; [done|].
    intros [Hi|Hi]; rewrite Hi in Hs; injection Hs as <-; destruct Hninf; eauto.
Qed.

(** The infection pass over the nodes [l] of [G]. *)
Lemma infection_pass_over (l : list nat) w G row1 w' :
  graph (sim_graph w) = Some G →
  states_dict w !! (curr_time w + 1) = Some row1 →
  (∀ v, v ∈ l → v ∈ nodes G) →
  for_each l _do_infection w = Returned tt w' →
  ∃ evs, infection_inv w G row1 evs w' ∧
         ∀ v u, v ∈ l → infectious w (curr_time w) v → u ∈ neighbors G v →
                state_at w (curr_time w) u = Some "S" →
                ∃ luck prob, Draw v u luck prob ∈ evs.
Proof.
  intros HG Hrow Hl Hrun.
  pose (I := λ (done : list nat) (w1 : World),
    ∃ evs, infection_inv w G row1 evs w1 ∧
           ∀ v u, v ∈ done → infectious w (curr_time w) v → u ∈ neighbors G v →
                  state_at w (curr_time w) u = Some "S" →
                  ∃ luck prob, Draw v u luck prob ∈ evs).
  apply (for_each_returned I l _do_infection w w'); [| |done].
  - intros done x rest w1 w2 Heq (evs & Hinv & Hall) Hx.
    eapply _do_infection_step in Hx as (evs' & Hinv' & Hdraw); eauto.
    2:{ apply Hl. rewrite Heq. set_solver. }
    exists (evs ++ evs'). split; [done|].
    intros v u [Hv| ->%list_elem_of_singleton]%elem_of_app Hinf Hu HS.
    + destruct (Hall v u Hv Hinf Hu HS) as (luck & prob & Hin). exists luck, prob. set_solver.
    + destruct (Hdraw Hinf u Hu HS) as (luck & prob & Hin). exists luck, prob. set_solver.
  - exists []. split; [by apply infection_inv_refl|]. intros v u Hv. by apply elem_of_nil in Hv.
Qed.

(** ** Adding interaction edges *)

Lemma only_nx_changed_refl w : only_nx_changed w w.
Proof. by repeat split. Qed.

Lemma only_nx_changed_trans w1 w2 w3 :
  only_nx_changed w1 w2 → only_nx_changed w2 w3 → only_nx_changed w1 w3.
Proof.
  unfold only_nx_changed, same_settings. intros (?&?&?&?&?&?&?&?&?) (?&?&?&?&?&?&?&?&?).
  repeat split; congruence.
Qed.

Lemma nx_extends_refl rate G : nx_extends rate G G.
Proof.
  split; [exists []; by rewrite app_nil_r|]. split; [done|]. split; [done|]. eauto.
Qed.

Lemma nx_extends_trans rate G1 G2 G3 :
  nx_extends rate G1 G2 → nx_extends rate G2 G3 → nx_extends rate G1 G3.
Proof.
  intros ([e1 Hn1] & Hwf1 & Hin1 & Hout1) ([e2 Hn2] & Hwf2 & Hin2 & Hout2).
  split; [exists (e1 ++ e2); by rewrite Hn2, Hn1, app_assoc|].
  split; [tauto|]. split; [eauto|].
  intros k d Hk. destruct (Hout2 k d Hk) as [H|H]; eauto.
Qed.

Lemma adds_interactions_refl w : adds_interactions w w.
Proof.
  split; [apply only_nx_changed_refl|]. intros G HG. exists G. split; [done|].
  apply nx_extends_refl.
Qed.

Lemma adds_interactions_trans w1 w2 w3 :
  adds_interactions w1 w2 → adds_interactions w2 w3 → adds_interactions w1 w3.
Proof.
  intros [Hf1 Hg1] [Hf2 Hg2]. split; [by eapply only_nx_changed_trans|].
  intros G HG. destruct (Hg1 G HG) as (G2 & HG2 & Hext1).
  destruct (Hg2 G2 HG2) as (G3 & HG3 & Hext2). exists G3. split; [done|].
  eapply nx_extends_trans; [done|].
  destruct Hf1 as (_&_&_&_&_&_&_&Hrate&_). by rewrite <- Hrate.
Qed.

Lemma add_node_nodes G u : ∃ extra, nodes (add_node G u) = nodes G ++ extra.
Proof.
  unfold add_node. destruct (decide (u ∈ nodes G)); [exists []; by rewrite app_nil_r|].
  by exists [u].
Qed.

Lemma add_node_NoDup G u : NoDup (nodes G) → NoDup (nodes (add_node G u)).
Proof.
  unfold add_node. destruct (decide (u ∈ nodes G)); [done|]. simpl.
  intros Hnd. apply NoDup_app. split; [done|]. split; [|apply NoDup_singleton].
  intros x Hx ->%list_elem_of_singleton. done.
Qed.

Lemma add_node_edges G u : edges (add_node G u) = edges G.
Proof. unfold add_node. by destruct (decide (u ∈ nodes G)). Qed.

Lemma edge_key_le u v : (edge_key u v).1 ≤ (edge_key u v).2.
Proof. unfold edge_key. simpl. lia. Qed.

Lemma edge_key_normal u v : u ≤ v → edge_key u v = (u, v).
Proof. intros H. unfold edge_key. f_equal; lia. Qed.

Lemma add_edge_extends rate G u v :
  has_edge G u v = false →
  nx_extends rate G (add_edge G u v (interaction_data rate)).
Proof.
  intros Hno. unfold has_edge in Hno. apply bool_decide_eq_false in Hno.
  rewrite <- eq_None_not_Some in Hno.
  split; [|split; [|split]].
  - unfold add_edge. simpl.
    destruct (add_node_nodes G u) as [e1 H1].
    destruct (add_node_nodes (add_node G u) v) as [e2 H2].
    exists (e1 ++ e2). by rewrite H2, H1, app_assoc.
  - intros [Hnd Hkeys]. split.
    + unfold add_edge. simpl. by do 2 apply add_node_NoDup.
    + unfold add_edge. simpl. rewrite !add_node_edges. intros a b d.
      destruct (decide (edge_key u v = (a, b))) as [Heq|Hne].
      * intros _. pose proof (edge_key_le u v) as Hle. by rewrite Heq in Hle.
      * rewrite lookup_insert_ne by done. apply Hkeys.
  - intros k d Hk. unfold add_edge. simpl. rewrite !add_node_edges.
    rewrite lookup_insert_ne; [done|]. intros <-. congruence.
  - intros k d. unfold add_edge. simpl. rewrite !add_node_edges.
    destruct (decide (edge_key u v = k)) as [<-|Hne].
    + rewrite lookup_insert_eq. intros [= <-]. by right.
    + rewrite lookup_insert_ne by done. by left.
Qed.

Lemma set_the_graph_adds w G G1 :
  graph (sim_graph w) = Some G →
  nx_extends (infection_rate (sim_graph w)) G G1 →
  adds_interactions w (with_graph (with_nx G1 (sim_graph w)) w).
Proof.
  intros HG Hext. split; [by repeat split|].
  intros G' HG'. rewrite HG in HG'. injection HG' as <-. exists G1. done.
Qed.

Lemma _add_new_interaction_edge_adds pair w w' :
  _add_new_interaction_edge pair w = Returned tt w' → adds_interactions w w'.
Proof.
  unfold _add_new_interaction_edge. intros H.
  apply bind_returned in H as (G & w1 & HG & H).
  apply the_graph_returned in HG as [HG <-].
  apply bind_returned in H as (w0 & w1 & [= <- <-] & H).
  destruct (has_edge G pair.1 pair.2) eqn:Hhas.
  - apply ret_returned in H as [_ <-]. apply adds_interactions_refl.
  - injection H as <-. apply (set_the_graph_adds w G); [done|]. by apply add_edge_extends.
Qed.

Lemma for_each_adds {A} (l : list A) (body : A → M unit) w w' :
  (∀ x w1 w2, body x w1 = Returned tt w2 → adds_interactions w1 w2) →
  for_each l body w = Returned tt w' → adds_interactions w w'.
Proof.
  intros Hbody Hrun.
  apply (for_each_returned (λ _ w1, adds_interactions w w1) l body w w'); [| |done].
  - intros done x rest w1 w2 _ H1 Hx. eapply adds_interactions_trans; eauto.
  - apply adds_interactions_refl.
Qed.

Lemma with_rng_adds r w : adds_interactions w (with_rng r w).
Proof.
  split; [by repeat split|]. intros G HG. exists G. split; [done|]. apply nx_extends_refl.
Qed.

Lemma set_group_interaction_edges_adds behaviour node other_nodes group_size w w' :
  set_group_interaction_edges behaviour node other_nodes group_size w = Returned tt w' →
  adds_interactions w w'.
Proof.
  unfold set_group_interaction_edges. intros H.
  apply bind_returned in H as (others & w1 & Hothers & H).
  assert (w1 = w) as ->.
  { destruct (decide (behaviour = "food_shopping")).
    - apply bind_returned in Hothers as (w0 & w2 & [= <- <-] & Hothers).
      apply bind_returned in Hothers as (arr & w2 & Harr & Hothers).
      apply from_option_returned in Harr as [_ <-].
      apply bind_returned in Hothers as (row & w2 & Hrow & Hothers).
      apply from_option_returned in Hrow as [_ <-].
      by apply ret_returned in Hothers as [_ <-].
    - by apply ret_returned in Hothers as [_ <-]. }
  apply bind_returned in H as (new_group & w1 & Hsample & H).
  apply with_random_result_returned in Hsample as (r & _ & ->).
  eapply adds_interactions_trans; [apply (with_rng_adds r)|].
  eapply for_each_adds; [|exact H].
  intros x w1 w2. apply _add_new_interaction_edge_adds.
Qed.

Lemma set_visit_days_adds node behaviour chosen_days w w' :
  set_visit_days node behaviour chosen_days w = Returned tt w' → adds_interactions w w'.
Proof.
  unfold set_visit_days. intros H.
  apply bind_returned in H as (G & w1 & HG & H).
  apply the_graph_returned in HG as [HG <-].
  apply bind_returned in H as (d & w1 & Hd & H).
  apply from_option_returned in Hd as [Hd <-].
  injection H as <-. apply (set_the_graph_adds w G); [done|].
  split; [exists []; by rewrite app_nil_r|]. split; [|split; [done|eauto]].
  intros [Hnd Hkeys]. by split.
Qed.

Lemma _add_interactions_adds node w w' :
  _add_interactions node w = Returned tt w' → adds_interactions w w'.
Proof.
  unfold _add_interactions. intros H.
  apply bind_returned in H as (w0 & w1 & [= <- <-] & H).
  apply bind_returned in H as (G & w1 & HG & H).
  apply the_graph_returned in HG as [HG <-].
  apply bind_returned in H as (bd & w1 & Hbd & H).
  apply from_option_returned in Hbd as [Hbd <-].
  apply bind_returned in H as ([] & w1 & Hweek & H).
  eapply adds_interactions_trans.
  - destruct (decide (curr_time w `mod` 7 = 0)).
    + eapply for_each_adds; [|exact Hweek]. intros b w2 w3 Hb.
      apply bind_returned in Hb as (days & w4 & Hdays & Hb).
      apply with_random_result_returned in Hdays as (r & _ & ->).
      eapply adds_interactions_trans; [apply (with_rng_adds r)|].
      by eapply set_visit_days_adds.
    + apply ret_returned in Hweek as [_ <-]. apply adds_interactions_refl.
  - eapply for_each_adds; [|exact H]. intros b w2 w3 Hb.
    apply bind_returned in Hb as (G' & w4 & HG' & Hb).
    apply the_graph_returned in HG' as [HG' <-].
    apply bind_returned in Hb as (d & w4 & Hd & Hb).
    apply from_option_returned in Hd as [Hd <-].
    apply bind_returned in Hb as (days & w4 & Hdays & Hb).
    apply from_option_returned in Hdays as [Hdays <-].
    destruct (decide (curr_time w `mod` 7 ∈ days)).
    + by eapply set_group_interaction_edges_adds.
    + apply ret_returned in Hb as [_ <-]. apply adds_interactions_refl.
Qed.

(** The pass that adds the interactions of every node of [l]. *)
Lemma add_interactions_pass l w w' :
  for_each l _add_interactions w = Returned tt w' → adds_interactions w w'.
Proof. apply for_each_adds. intros x w1 w2. apply _add_interactions_adds. Qed.

(** ** Removing interaction edges *)

Lemma edge_list_elem G k : k ∈ edge_list G ↔ is_Some (edges G !! k).
Proof.
  unfold edge_list. rewrite list_elem_of_fmap. split.
  - intros ([k' d] & -> & Hin). apply elem_of_map_to_list in Hin. eauto.
  - intros [d Hd]. exists (k, d). split; [done|]. by apply elem_of_map_to_list.
Qed.

Lemma edge_list_NoDup G : NoDup (edge_list G).
Proof. apply NoDup_fst_map_to_list. Qed.

Lemma remove_group_interaction_edges_returned w w' G :
  graph (sim_graph w) = Some G →
  remove_group_interaction_edges w = Returned tt w' →
  only_nx_changed w w' ∧ rng w' = rng w ∧
  ∃ G', graph (sim_graph w') = Some G' ∧ nodes G' = nodes G ∧ node_data G' = node_data G ∧
        (nx_wf G →
         ∀ k, edges G' !! k
              = edges G !! k ≫= λ d, if interaction_edge d then None else Some d).
Proof.
  intros HG H. unfold remove_group_interaction_edges in H.
  apply bind_returned in H as (G0 & w1 & HG0 & H).
  apply the_graph_returned in HG0 as [HG0 <-]. rewrite HG in HG0. injection HG0 as <-.
  pose (I := λ (done : list (nat * nat)) (w1 : World),
    only_nx_changed w w1 ∧ rng w1 = rng w ∧
    ∃ G1, graph (sim_graph w1) = Some G1 ∧ nodes G1 = nodes G ∧ node_data G1 = node_data G ∧
          (nx_wf G →
           ∀ k, edges G1 !! k
                = edges G !! k ≫= λ d, if interaction_edge d && bool_decide (k ∈ done)
                                        then None else Some d)).
  assert (I (edge_list G) w') as (Hframe & Hrng & G' & HG' & Hn & Hd & He).
  { eapply (for_each_returned I); [| |exact H].
    - clear H w'. intros done [a b] rest w1 w2 Hl (Hframe & Hrng & G1 & HG1 & Hn & Hd & He) Hx.
      assert ((a, b) ∉ done) as Hfresh.
      { pose proof (edge_list_NoDup G) as Hnd'. rewrite Hl in Hnd'.
        apply NoDup_app in Hnd' as (_ & Hdisj & _). intros Hin. apply (Hdisj _ Hin). left. }
      assert (is_Some (edges G !! (a, b))) as [d0 Hd0].
      { apply edge_list_elem. rewrite Hl. apply elem_of_app. right. left. }
      apply bind_returned in Hx as (G1' & w3 & HG1' & Hx).
      apply the_graph_returned in HG1' as [HG1' <-]. rewrite HG1 in HG1'. injection HG1' as <-.
      apply bind_returned in Hx as (d & w3 & Hdx & Hx).
      apply from_option_returned in Hdx as [Hdx <-]. cbn [fst snd] in Hdx, Hx.
      destruct (interaction_edge d) eqn:Hflag.
      + injection Hx as <-. split.
        { eapply only_nx_changed_trans; [exact Hframe|]. by repeat split. }
        split; [done|].
        exists (remove_edge G1 a b). split; [done|]. split; [done|]. split; [done|].
        intros Hwf k. specialize (He Hwf).
        assert (edge_key a b = (a, b)) as Hkey.
        { apply edge_key_normal. destruct Hwf as [_ Hkeys]. eauto. }
        rewrite Hkey in Hdx. rewrite He, Hd0 in Hdx. simpl in Hdx.
        rewrite (bool_decide_eq_false_2 _ Hfresh), andb_false_r in Hdx. injection Hdx as <-.
        unfold remove_edge. cbn [edges]. rewrite Hkey.
        destruct (decide (k = (a, b))) as [->|Hne].
        * rewrite lookup_delete_eq, Hd0. simpl.
          rewrite Hflag, bool_decide_eq_true_2; [done|]. apply elem_of_app. right. left.
        * rewrite lookup_delete_ne by done. rewrite He.
          destruct (edges G !! k) as [d|]; [simpl|done].
          replace (bool_decide (k ∈ done ++ [(a, b)])) with (bool_decide (k ∈ done)); [done|].
          apply bool_decide_ext. rewrite elem_of_app, list_elem_of_singleton. tauto.
      + apply ret_returned in Hx as [_ <-]. split; [done|]. split; [done|].
        exists G1. split; [done|]. split; [done|]. split; [done|].
        intros Hwf k. specialize (He Hwf).
        assert (edge_key a b = (a, b)) as Hkey.
        { apply edge_key_normal. destruct Hwf as [_ Hkeys]. eauto. }
        rewrite Hkey in Hdx. rewrite He, Hd0 in Hdx. simpl in Hdx.
        rewrite (bool_decide_eq_false_2 _ Hfresh), andb_false_r in Hdx. injection Hdx as <-.
        rewrite He. destruct (edges G !! k) as [d|] eqn:Hk; [simpl|done].
        destruct (decide (k = (a, b))) as [->|Hne].
        * assert (d = d0) as -> by congruence. by rewrite Hflag.
        * replace (bool_decide (k ∈ done ++ [(a, b)])) with (bool_decide (k ∈ done)); [done|].
          apply bool_decide_ext. rewrite elem_of_app, list_elem_of_singleton. tauto.
    - split; [apply only_nx_changed_refl|]. split; [done|].
      exists G. split; [done|]. split; [done|].
      split; [done|]. intros _ k. destruct (edges G !! k) as [d|]; [simpl|done].
      by rewrite ?andb_false_r. }
  split; [done|]. split; [done|].
  exists G'. split; [done|]. split; [done|]. split; [done|].
  intros Hwf k. rewrite (He Hwf). destruct (edges G !! k) as [d|] eqn:Hk; [simpl|done].
  rewrite bool_decide_eq_true_2, andb_true_r; [done|]. apply edge_list_elem. eauto.
Qed.

(** ** One timestep *)

Lemma state_at_with_curr_time t w t' n : state_at (with_curr_time t w) t' n = state_at w t' n.
Proof. done. Qed.

Lemma infection_event_with_curr_time t0 w t G e :
  infection_event (with_curr_time t0 w) t G e ↔ infection_event w t G e.
Proof. done. Qed.

Lemma infection_event_states w w1 t G e :
  states_dict w1 !! t = states_dict w !! t →
  infection_event w1 t G e → infection_event w t G e.
Proof.
  intros Heq. unfold infection_event, infectious, state_at. rewrite Heq. done.
Qed.

Lemma timestep_returned t w w' G row1 :
  graph (sim_graph w) = Some G →
  states_dict w !! (t + 1) = Some row1 →
  timestep t w = Returned tt w' →
  ∃ G1 G' vs evs row3,
    nx_extends (infection_rate (sim_graph w)) G G1 ∧
    Forall2 (λ n v, ∃ s, state_at w t n = Some s ∧ progresses_to (sim_params w) s v)
      (nodes G1) vs ∧
    Forall (infection_event w t G1) evs ∧
    (∀ v u, v ∈ nodes G1 → infectious w t v → u ∈ neighbors G1 v →
            state_at w t u = Some "S" → ∃ luck prob, Draw v u luck prob ∈ evs) ∧
    trace w' = trace w ++ zip_with (Assign InDoProgression (t + 1)) (nodes G1) vs ++ evs ∧
    (∀ t', t' ≠ t + 1 → states_dict w' !! t' = states_dict w !! t') ∧
    states_dict w' !! (t + 1) = Some row3 ∧
    (∀ u, u ∉ nodes G1 → row3 !! u = if infected_in evs u then Some "E" else row1 !! u) ∧
    (∀ u, u ∈ nodes G1 →
          ∃ s v, state_at w t u = Some s ∧ progresses_to (sim_params w) s v ∧
                 row3 !! u = if infected_in evs u then Some "E" else Some v) ∧
    sim_params w' = sim_params w ∧ curr_time w' = t ∧
    same_settings (sim_graph w) (sim_graph w') ∧
    graph (sim_graph w') = Some G' ∧ nodes G' = nodes G1 ∧ node_data G' = node_data G1 ∧
    (nx_wf G →
     ∀ k, edges G' !! k = edges G1 !! k ≫= λ d, if interaction_edge d then None else Some d).
Proof.
  intros HG Hrow1 H. unfold timestep in H.
  apply bind_returned in H as ([] & wt & Hwt & H). injection Hwt as <-.
  (* interactions are added *)
  apply bind_returned in H as (G0 & w0 & HG0 & H).
  apply the_graph_returned in HG0 as [HG0 <-]. simpl in HG0. rewrite HG in HG0.
  injection HG0 as <-.
  apply bind_returned in H as ([] & w1 & Hadd & H).
  apply add_interactions_pass in Hadd as [Hframe1 Hext].
  destruct (Hext G HG) as (G1 & HG1 & Hext1). simpl in Hext1.
  destruct Hframe1 as (Hp1 & Ht1 & Hsd1 & Htr1 & Hset1). simpl in Hp1, Ht1, Hsd1, Htr1, Hset1.
  (* progression *)
  apply bind_returned in H as (G1' & w1' & HG1' & H).
  apply the_graph_returned in HG1' as [HG1' <-]. rewrite HG1 in HG1'. injection HG1' as <-.
  apply bind_returned in H as ([] & w2 & Hprog & H).
  apply (progression_pass _ _ _ row1) in Hprog
    as ((Hp2 & Hg2 & Ht2) & Hother2 & vs & row2 & Hvs & Htr2 & Hrow2 & Hout2 & Hin2);
    [|by rewrite Ht1, Hsd1].
  rewrite Ht1 in *. rewrite Hp1 in *. rewrite Htr1 in Htr2.
  assert (∀ n, state_at w1 t n = state_at w t n) as Hst1.
  { intros n. unfold state_at. by rewrite Hsd1. }
  (* infection *)
  apply bind_returned in H as (G2 & w2' & HG2 & H).
  apply the_graph_returned in HG2 as [HG2 <-]. rewrite Hg2, HG1 in HG2. injection HG2 as <-.
  apply bind_returned in H as ([] & w3 & Hinf & H).
  apply (infection_pass_over _ _ G1 row2) in Hinf
    as (evs & ((Hp3 & Hg3 & Ht3) & Hother3 & Htr3 & Hevs & row3 & Hrow3 & Hrow3') & Hcomplete);
    [|by rewrite Hg2|by rewrite Ht2|done].
  rewrite Ht2 in *.
  assert (∀ n, state_at w2 t n = state_at w t n) as Hst2.
  { intros n. rewrite <- Hst1. unfold state_at. rewrite Hother2; [done|lia]. }
  (* removal *)
  unfold _remove_interactions in H.
  apply (remove_group_interaction_edges_returned _ _ G1) in H
    as ((Hp4 & Ht4 & Hsd4 & Htr4 & Hset4) & _ & G' & HG' & Hn' & Hd' & He');
    [|by rewrite Hg3, Hg2].
  exists G1, G', vs, evs, row3.
  split; [done|]. split.
  { eapply Forall2_impl; [exact Hvs|]. intros n v (s & Hs & Hv). rewrite Hst1 in Hs. eauto. }
  split.
  { eapply Forall_impl; [exact Hevs|]. intros e He.
    eapply infection_event_states; [|exact He]. rewrite Hother2, Hsd1; [done|lia]. }
  split.
  { intros v u Hv Hi Hu HS. apply (Hcomplete v u Hv); [|done|by rewrite Hst2].
    unfold infectious in *. by rewrite !Hst2. }
  split; [by rewrite Htr4, Htr3, Htr2, <- app_assoc|].
  split.
  { intros t' Hne. rewrite Hsd4, Hother3, Hother2, Hsd1; done. }
  split; [by rewrite Hsd4|].
  split.
  { intros u Hu. rewrite Hrow3', Hout2; done. }
  split.
  { intros u Hu. destruct (Hin2 u Hu) as (s & v & Hs & Hv & Hprog).
    exists s, v. rewrite Hst1 in Hs. split; [done|]. split; [done|].
    by rewrite Hrow3', Hv. }
  split; [by rewrite Hp4, Hp3, Hp2|].
  split; [by rewrite Ht4, Ht3|].
  split.
  { unfold same_settings in *. rewrite Hg3, Hg2 in Hset4.
    destruct Hset1 as (?&?&?&?&?), Hset4 as (?&?&?&?&?). repeat split; congruence. }
  split; [done|]. split; [done|]. split; [done|].
  intros Hwf. apply He'. destruct Hext1 as (_ & Hwf1 & _). by apply Hwf1.
Qed.

Lemma same_setup_refl w : same_setup w w.
Proof. done. Qed.

Lemma same_setup_trans w1 w2 w3 : same_setup w1 w2 → same_setup w2 w3 → same_setup w1 w3.
Proof. intros (?&?&?) (?&?&?). repeat split; congruence. Qed.

Lemma for_each_same_setup {A} (l : list A) (body : A → M unit) w w' :
  (∀ x w1 w2, body x w1 = Returned tt w2 → same_setup w1 w2) →
  for_each l body w = Returned tt w' → same_setup w w'.
Proof.
  intros Hbody Hrun.
  apply (for_each_returned (λ _ w1, same_setup w w1) l body w w'); [| |done].
  - intros done x rest w1 w2 _ H1 Hx. eapply same_setup_trans; eauto.
  - apply same_setup_refl.
Qed.

Lemma _do_progression_same_setup node w w' :
  _do_progression node w = Returned tt w' → same_setup w w'.
Proof. intros H. apply _do_progression_returned in H as (?&?&?&?&?&?&?&?&?). done. Qed.

Lemma _infect_neighbours_same_setup node neighbour w w' :
  _infect_neighbours node neighbour w = Returned tt w' → same_setup w w'.
Proof.
  unfold _infect_neighbours. intros H.
  apply bind_returned in H as (w0 & w3 & [= <- <-] & H).
  apply bind_returned in H as (s & w3 & Hs & H).
  apply get_state_returned in Hs as [Hs <-].
  destruct (decide (s = "S")) as [->|Hne].
  - apply bind_returned in H as (G' & w3 & HG' & H).
    apply the_graph_returned in HG' as [HG' <-].
    apply bind_returned in H as (d & w3 & Hd & H).
    apply from_option_returned in Hd as [Hd <-].
    apply bind_returned in H as (p & w3 & Hpw & H).
    apply from_option_returned in Hpw as [Hpw <-].
    apply bind_returned in H as (luck & w3 & Hluck & H).
    apply with_random_returned in Hluck as (r & Hluck & ->).
    apply bind_returned in H as ([] & w3 & Hlog & H).
    injection Hlog as <-.
    destruct (luck <=? p)%float.
    + apply set_state_returned in H as (row & Hrow2 & ->). done.
    + by apply ret_returned in H as [_ <-].
  - by apply ret_returned in H as [_ <-].
Qed.

Lemma _do_infection_same_setup node w w' :
  _do_infection node w = Returned tt w' → same_setup w w'.
Proof.
  unfold _do_infection. intros H.
  apply bind_returned in H as (w0 & w3 & [= <- <-] & H).
  apply bind_returned in H as (s & w3 & Hs & H).
  apply get_state_returned in Hs as [Hs <-].
  destruct (decide (s = "I" ∨ s = "A")).
  - apply bind_returned in H as (G' & w3 & HG' & H).
    apply the_graph_returned in HG' as [HG' <-].
    eapply for_each_same_setup; [|exact H]. intros x w1 w2.
    apply _infect_neighbours_same_setup.
  - by apply ret_returned in H as [_ <-].
Qed.

(** What a timestep does to the graph. *)
Lemma timestep_graph t w w' G :
  graph (sim_graph w) = Some G →
  timestep t w = Returned tt w' →
  ∃ G1 G',
    nx_extends (infection_rate (sim_graph w)) G G1 ∧
    graph (sim_graph w') = Some G' ∧ nodes G' = nodes G1 ∧ node_data G' = node_data G1 ∧
    same_settings (sim_graph w) (sim_graph w') ∧ sim_params w' = sim_params w ∧
    (nx_wf G →
     ∀ k, edges G' !! k = edges G1 !! k ≫= λ d, if interaction_edge d then None else Some d).
Proof.
  intros HG H. unfold timestep in H.
  apply bind_returned in H as ([] & wt & Hwt & H). injection Hwt as <-.
  apply bind_returned in H as (G0 & w0 & HG0 & H).
  apply the_graph_returned in HG0 as [HG0 <-]. simpl in HG0. rewrite HG in HG0.
  injection HG0 as <-.
  apply bind_returned in H as ([] & w1 & Hadd & H).
  apply add_interactions_pass in Hadd as [Hframe1 Hext].
  destruct (Hext G HG) as (G1 & HG1 & Hext1). simpl in Hext1.
  destruct Hframe1 as (Hp1 & Ht1 & Hsd1 & Htr1 & Hset1). simpl in Hp1, Ht1, Hsd1, Htr1, Hset1.
  apply bind_returned in H as (G1' & w1' & HG1' & H).
  apply the_graph_returned in HG1' as [HG1' <-]. rewrite HG1 in HG1'. injection HG1' as <-.
  apply bind_returned in H as ([] & w2 & Hprog & H).
  apply for_each_same_setup in Hprog as (Hp2 & Hg2 & Ht2);
    [|intros x wa wb; apply _do_progression_same_setup].
  apply bind_returned in H as (G2 & w2' & HG2 & H).
  apply the_graph_returned in HG2 as [HG2 <-]. rewrite Hg2, HG1 in HG2. injection HG2 as <-.
  apply bind_returned in H as ([] & w3 & Hinf & H).
  apply for_each_same_setup in Hinf as (Hp3 & Hg3 & Ht3);
    [|intros x wa wb; apply _do_infection_same_setup].
  unfold _remove_interactions in H.
  apply (remove_group_interaction_edges_returned _ _ G1) in H
    as ((Hp4 & Ht4 & Hsd4 & Htr4 & Hset4) & _ & G' & HG' & Hn' & Hd' & He');
    [|by rewrite Hg3, Hg2].
  exists G1, G'. split; [done|]. split; [done|]. split; [done|]. split; [done|].
  split.
  { unfold same_settings in *. rewrite Hg3, Hg2 in Hset4.
    destruct Hset1 as (?&?&?&?&?), Hset4 as (?&?&?&?&?). repeat split; congruence. }
  split; [by rewrite Hp4, Hp3, Hp2|].
  intros Hwf. apply He'. destruct Hext1 as (_ & Hwf1 & _). by apply Hwf1.
Qed.

Lemma restored_edges rate G G1 G' :
  nx_extends rate G G1 → no_interaction_edges G →
  (∀ k, edges G' !! k = edges G1 !! k ≫= λ d, if interaction_edge d then None else Some d) →
  edges G' = edges G.
Proof.
  intros (_ & _ & Hin & Hout) Hlattice He. apply map_eq. intros k. rewrite He.
  destruct (edges G1 !! k) as [d1|] eqn:H1; simpl.
  - destruct (Hout k d1 H1) as [H0| ->].
    + by rewrite (Hlattice k d1 H0).
    + simpl. destruct (edges G !! k) as [d|] eqn:H0; [|done].
      pose proof (Hlattice k d H0) as Hflag.
      apply Hin in H0. rewrite H1 in H0. injection H0 as <-. done.
  - destruct (edges G !! k) as [d|] eqn:H0; [|done]. apply Hin in H0. congruence.
Qed.

(** ** The reporting series *)

Lemma NoDup_STATES : NoDup STATES.
Proof. refine (bool_decide_unpack _ _). vm_compute. exact I. Qed.

Lemma append_counts_lookup (c : string → Z) (keys : list string) (od : gmap string (list Z)) state :
  NoDup keys →
  foldl (λ od s, alter (λ l, l ++ [c s]) s od) od keys !! state
  = if decide (state ∈ keys) then (λ l, l ++ [c state]) <$> od !! state else od !! state.
Proof.
  revert od. induction keys as [|k keys IH]; intros od Hnd; cbn [foldl].
  - case_decide; [by apply elem_of_nil in H | done].
  - apply NoDup_cons in Hnd as [Hk Hnd]. rewrite IH by done.
    destruct (decide (state = k)) as [->|Hne].
    + rewrite (decide_False (P := k ∈ keys)) by done.
      rewrite (decide_True (P := k ∈ k :: keys)) by left.
      by rewrite lookup_alter_eq.
    + rewrite lookup_alter_ne by done.
      destruct (decide (state ∈ keys)) as [Hin|Hin].
      * by rewrite (decide_True (P := state ∈ k :: keys)) by (by right).
      * rewrite (decide_False (P := state ∈ k :: keys)); [done|].
        intros [->|?]%elem_of_cons; done.
Qed.

Lemma get_results_loop_returns (steps : list nat) (od : gmap string (list Z)) (w : World) :
  (∀ step, step ∈ steps → is_Some (states_dict w !! step)) →
  ∃ od', get_results_loop steps od w = Returned od' w ∧
    ∀ state, state ∈ STATES →
      od' !! state
      = (λ l, l ++ ((λ step, count_state (default ∅ (states_dict w !! step)) state) <$> steps))
          <$> od !! state.
Proof.
  revert od. induction steps as [|step steps IH]; intros od Hrows; cbn [get_results_loop].
  - exists od. split; [done|]. intros state _.
    destruct (od !! state); simpl; [|done]. by rewrite app_nil_r.
  - destruct (Hrows step) as [row Hrow]; [set_solver|].
    unfold mbind at 1, M_bind at 1.
    unfold _get_state_counts, mbind, M_bind, get_world. rewrite Hrow.
    cbn [from_option mret M_ret].
    edestruct IH as (od' & Hrun & Hod'); [set_solver|].
    exists od'. split; [exact Hrun|].
    intros state Hstate. rewrite Hod' by done.
    rewrite append_counts_lookup by apply NoDup_STATES.
    rewrite decide_True by done.
    destruct (od !! state); simpl; [|done]. by rewrite Hrow, <- app_assoc.
Qed.

Lemma empty_output_lookup state :
  state ∈ STATES →
  (list_to_map ((λ key, (key, [])) <$> STATES) : gmap string (list Z)) !! state = Some [].
Proof.
  unfold STATES. intros H.
  repeat (apply elem_of_cons in H as [->|H]; [reflexivity|]).
  by apply elem_of_nil in H.
Qed.

(** C1 (as the code has it): on a timeline that has every timestep up to
    the time horizon [T], [get_results] returns, leaves the model as it is,
    and gives for every compartment the counts at the timesteps 1, 8, 15, ...
    up to [T]: entry [k] is the count at timestep [1 + 7 * k]. *)
Theorem get_results_samples_from_step_1 (w : World) (T : nat) :
  time_horizon (sim_graph w) = Some T →
  (∀ t, t ≤ T → is_Some (states_dict w !! t)) →
  ∃ results, get_results w = Returned results w ∧
    ∀ state, state ∈ STATES → results !! state = Some (sampled_series 1 T w state).
Proof.
  intros HT Hrows. unfold get_results.
  unfold mbind at 1, M_bind at 1, get_world. rewrite HT. simpl.
  edestruct (get_results_loop_returns (py_range 1 (T + 1) 7)) as (results & Hrun & Hres).
  2:{ exists results. split; [exact Hrun|]. intros state Hstate.
      rewrite Hres, empty_output_lookup by done. simpl. f_equal.
      unfold sampled_series, py_range. rewrite <- list_fmap_compose.
      replace (T + 1 - 1 + (7 - 1)) with (T + 7 - 1) by lia. done. }
  intros step Hstep. apply Hrows. unfold py_range in Hstep.
  apply list_elem_of_fmap in Hstep as (k & -> & Hk). apply elem_of_seq in Hk.
  assert (7 * k + 7 ≤ T + 1 - 1 + (7 - 1)); [|lia].
  pose proof (Nat.Div0.mul_div_le (T + 1 - 1 + (7 - 1)) 7). lia.
Qed.

(** ** Reloading a graph *)

(** C8: for a file that holds a pickled graph, [load_graph_from_file]
    returns, with the loaded graph in place of the current one, when the five
    validated fields agree with the current configuration; otherwise it
    raises and leaves the simulation, its current graph included, as it was. *)
Theorem load_graph_from_file_validates (filename : string) (loaded : Graph) (w : World) :
  files w !! filename = Some loaded →
  (same_configuration loaded w →
     load_graph_from_file filename w = Returned tt (with_graph loaded w)) ∧
  (¬ same_configuration loaded w → ∃ e, load_graph_from_file filename w = Raised e w).
Proof.
  intros Hfile. unfold load_graph_from_file, same_configuration.
  unfold mbind, M_bind, get_world. rewrite Hfile. simpl.
  destruct (graph loaded) as [G|] eqn:HG; simpl.
  - destruct (config_eq _ _) eqn:Hc; simpl.
    2:{ split; [intros (? & _); done | eauto]. }
    destruct (bool_decide (time_horizon loaded = _)) eqn:Ht; simpl.
    2:{ apply bool_decide_eq_false in Ht. split; [intros (_ & ? & _); done | eauto]. }
    destruct (bool_decide (num_infected loaded = _)) eqn:Hn; simpl.
    2:{ apply bool_decide_eq_false in Hn. split; [intros (_ & _ & ? & _); done | eauto]. }
    destruct (bool_decide (Some (length (nodes G)) = _)) eqn:Hp; simpl.
    2:{ apply bool_decide_eq_false in Hp. split; [|eauto].
        intros (_ & _ & _ & (G' & [= <-] & Hpop) & _). by rewrite Hpop in Hp. }
    destruct (float_eq _ _) eqn:Hf; simpl.
    2:{ split; [intros (_ & _ & _ & _ & ?); done | eauto]. }
    apply bool_decide_eq_true in Ht, Hn, Hp.
    split; [done|]. intros []. repeat split; eauto.
  - split; [intros (_ & _ & _ & (G' & ? & _) & _); done | eauto].
Qed.

(** ** What one timestep writes *)

Lemma written_by_app site t evs evs' :
  written_by site t (evs ++ evs') = written_by site t evs ++ written_by site t evs'.
Proof. unfold written_by. apply omap_app. Qed.

Lemma written_by_progression t l vs :
  length vs = length l →
  written_by InDoProgression t (zip_with (Assign InDoProgression t) l vs) = l.
Proof.
  revert vs. induction l as [|n l IH]; intros [|v vs] Hlen; simpl in *; try done.
  unfold written_by in *. simpl. rewrite decide_True by done. simpl. f_equal. apply IH. lia.
Qed.

Lemma written_by_progression_other site t l vs :
  site ≠ InDoProgression →
  written_by site t (zip_with (Assign InDoProgression t) l vs) = [].
Proof.
  intros Hne. revert vs. induction l as [|n l IH]; intros [|v vs]; simpl; try done.
  unfold written_by in *. simpl. rewrite decide_False by (intros [? _]; done). apply IH.
Qed.

Lemma zip_with_assign_elem site t' u v t l vs :
  Assign site t' u v ∈ zip_with (Assign InDoProgression t) l vs →
  site = InDoProgression ∧ t' = t ∧ ∃ i, l !! i = Some u ∧ vs !! i = Some v.
Proof.
  intros Hin. apply list_elem_of_lookup in Hin as [i Hi].
  apply lookup_zip_with_Some in Hi as (n & x & [= -> -> -> ->] & Hl & Hvs). eauto.
Qed.

Lemma infected_in_spec evs u :
  infected_in evs u = true ↔
  ∃ v luck prob, Draw v u luck prob ∈ evs ∧ (luck <=? prob)%float = true.
Proof.
  unfold infected_in. rewrite existsb_exists. split.
  - intros ([site t n v|v n luck prob] & Hin & Hx); [done|].
    apply andb_true_iff in Hx as [Hn Hle]. apply bool_decide_eq_true in Hn as ->.
    exists v, luck, prob. split; [by apply list_elem_of_In|done].
  - intros (v & luck & prob & Hin & Hle). exists (Draw v u luck prob).
    split; [by apply list_elem_of_In|]. by rewrite bool_decide_eq_true_2.
Qed.

Lemma infection_events_written w t G evs site t' :
  Forall (infection_event w t G) evs →
  ∀ u, u ∈ written_by site t' evs →
       site = InInfectNeighbours ∧ t' = t + 1 ∧ state_at w t u = Some "S".
Proof.
  intros Hevs u Hu. unfold written_by in Hu. apply list_elem_of_omap in Hu as (e & He & Hm).
  rewrite Forall_forall in Hevs. specialize (Hevs e He).
  destruct e as [site0 t0 n v|]; [|done]. simpl in Hevs.
  destruct (decide (site0 = site ∧ t0 = t')) as [[<- <-]|]; [|done].
  injection Hm as ->. by destruct Hevs as (-> & -> & _ & HS).
Qed.

Lemma infection_events_not_progression w t G evs t' :
  Forall (infection_event w t G) evs → written_by InDoProgression t' evs = [].
Proof.
  intros Hevs. destruct (written_by InDoProgression t' evs) as [|u l] eqn:Heq; [done|].
  destruct (infection_events_written w t G evs InDoProgression t' Hevs u) as [? _];
    [rewrite Heq; left | done].
Qed.

Lemma nodes_fixed G extra (P : nat → Prop) :
  NoDup (nodes G ++ extra) →
  (∀ n, n ∈ nodes G ++ extra → P n) → (∀ n, P n → n ∈ nodes G) → extra = [].
Proof.
  intros Hnd Hall Hdom. destruct extra as [|x extra]; [done|].
  apply NoDup_app in Hnd as (_ & Hdisj & _). exfalso.
  apply (Hdisj x); [|left]. apply Hdom, Hall. apply elem_of_app. right. left.
Qed.

(** In a timeline whose timestep [t] covers exactly the nodes of the graph,
    a timestep that returns did not add any node. *)
Lemma timestep_nodes_fixed rate G G1 (w : World) t vs :
  nx_wf G → nx_extends rate G G1 →
  Forall2 (λ n v, ∃ s, state_at w t n = Some s ∧ progresses_to (sim_params w) s v)
    (nodes G1) vs →
  (∀ n, is_Some (state_at w t n) → n ∈ nodes G) →
  nodes G1 = nodes G.
Proof.
  intros Hwf ([extra Hnodes] & Hwf1 & _) Hvs Hdom.
  assert (extra = []) as ->; [|by rewrite Hnodes, app_nil_r].
  apply (nodes_fixed G extra (λ n, is_Some (state_at w t n))); [| |done].
  - rewrite <- Hnodes. by apply Hwf1.
  - intros n Hn. rewrite <- Hnodes in Hn.
    apply list_elem_of_lookup in Hn as [i Hi].
    destruct (Forall2_lookup_l _ _ _ _ _ Hvs Hi) as (v & _ & s & Hs & _). eauto.
Qed.

(** C6: after the removal that ends a timestep the edges of the graph are
    exactly the lattice edges the timestep started with, each with the data
    (weight included) it had; in particular no lattice edge is removed and no
    interaction edge is left for the next timestep, which starts again from a
    graph without interaction edges. *)
Theorem timestep_restores_lattice (t : nat) (w w' : World) (G : nxGraph) :
  graph (sim_graph w) = Some G → nx_wf G → no_interaction_edges G →
  timestep t w = Returned tt w' →
  ∃ G', graph (sim_graph w') = Some G' ∧ edges G' = edges G ∧
        no_interaction_edges G' ∧ nx_wf G'.
Proof.
  intros HG Hwf Hlattice Hrun.
  destruct (timestep_graph t w w' G HG Hrun)
    as (G1 & G' & Hext & HG' & Hn & _ & _ & _ & He).
  specialize (He Hwf).
  assert (edges G' = edges G) as Hedges by (by eapply restored_edges).
  exists G'. split; [done|]. split; [done|]. split.
  - intros k d. rewrite Hedges. apply Hlattice.
  - destruct Hext as (_ & Hwf1 & _). destruct (Hwf1 Hwf) as [Hnd1 _]. split.
    + by rewrite Hn.
    + intros u v d. rewrite Hedges. by destruct Hwf as [_ Hkeys]; apply Hkeys.
Qed.

(** C5: in one timestep a dead or recovered node keeps its state; a
    susceptible node stays susceptible or becomes exposed, and it becomes
    exposed exactly when the infection pass made a successful draw against
    it.  The draws of the pass are those of the infectious nodes against
    their susceptible neighbours in the graph of the timestep, each against
    the weight of the edge between them; the progression pass writes S, never
    E, for a susceptible node. *)
Theorem timestep_transitions (t : nat) (w w' : World) (G : nxGraph) (row1 : gmap nat string) :
  graph (sim_graph w) = Some G →
  states_dict w !! (t + 1) = Some row1 →
  timestep t w = Returned tt w' →
  ∃ G1 progressed draws,
    nx_extends (infection_rate (sim_graph w)) G G1 ∧
    trace w' = trace w ++ progressed ++ draws ∧
    (∀ site t' u v, Assign site t' u v ∈ progressed →
       site = InDoProgression ∧ (state_at w t u = Some "S" → v = "S")) ∧
    Forall (infection_event w t G1) draws ∧
    (∀ v u, v ∈ nodes G1 → infectious w t v → u ∈ neighbors G1 v →
            state_at w t u = Some "S" → ∃ luck prob, Draw v u luck prob ∈ draws) ∧
    ∀ u, u ∈ nodes G →
      (∀ s, state_at w t u = Some s → s = "D" ∨ s = "R" →
            state_at w' (t + 1) u = Some s) ∧
      (state_at w t u = Some "S" →
         (state_at w' (t + 1) u = Some "S" ∨ state_at w' (t + 1) u = Some "E") ∧
         (state_at w' (t + 1) u = Some "E" ↔
          ∃ v luck prob, Draw v u luck prob ∈ draws ∧ (luck <=? prob)%float = true)).
Proof.
  intros HG Hrow1 Hrun.
  destruct (timestep_returned t w w' G row1 HG Hrow1 Hrun)
    as (G1 & G' & vs & evs & row3 & Hext & Hvs & Hevs & Hcomplete & Htr & Hother & Hrow3
        & Hout & Hin & _).
  exists G1, (zip_with (Assign InDoProgression (t + 1)) (nodes G1) vs), evs.
  split; [done|]. split; [done|]. split.
  { intros site t' u v Hassign.
    apply zip_with_assign_elem in Hassign as (-> & -> & i & Hu & Hv). split; [done|].
    intros HS. destruct (Forall2_lookup_lr _ _ _ _ _ _ Hvs Hu Hv) as (s & Hs & Hprog).
    rewrite HS in Hs. injection Hs as <-. unfold progresses_to in Hprog.
    by rewrite decide_True in Hprog by (right; right; left). }
  split; [done|]. split; [done|].
  intros u Hu.
  assert (u ∈ nodes G1) as Hu1.
  { destruct Hext as ([extra ->] & _). apply elem_of_app. by left. }
  destruct (Hin u Hu1) as (s & v & Hs & Hprog & Hfinal).
  assert (state_at w' (t + 1) u = if infected_in evs u then Some "E" else Some v) as Hstate.
  { unfold state_at. rewrite Hrow3. done. }
  assert (infected_in evs u = true → s = "S") as Hinfected.
  { intros (v0 & luck & prob & Hdraw & _)%infected_in_spec.
    rewrite Forall_forall in Hevs. destruct (Hevs _ Hdraw) as (_ & _ & _ & HS & _).
    congruence. }
  split.
  - intros s' Hs' Habs. rewrite Hs in Hs'. injection Hs' as <-.
    rewrite Hstate. destruct (infected_in evs u) eqn:Hi.
    + specialize (Hinfected eq_refl). destruct Habs; congruence.
    + unfold progresses_to in Hprog. rewrite decide_True in Hprog; [by subst|].
      destruct Habs as [-> | ->]; [right; left | left].
  - intros HS. rewrite Hs in HS. injection HS as ->.
    unfold progresses_to in Hprog. rewrite decide_True in Hprog by (right; right; left).
    subst v. rewrite Hstate, <- infected_in_spec.
    destruct (infected_in evs u); split; eauto; split; done.
Qed.

(** C3 (as the code has it): the progression pass assigns the next state of
    every node exactly once, susceptible nodes included; the infection pass
    assigns only nodes that are susceptible at [t], only the value E, over
    what the progression pass wrote; after the timestep every node has a
    state at [t + 1]. *)
Theorem timestep_writes (t : nat) (w w' : World) (G : nxGraph) (row1 : gmap nat string) :
  graph (sim_graph w) = Some G → nx_wf G →
  states_dict w !! (t + 1) = Some row1 →
  (∀ n, is_Some (state_at w t n) → n ∈ nodes G) →
  timestep t w = Returned tt w' →
  ∃ evs,
    trace w' = trace w ++ evs ∧
    written_by InDoProgression (t + 1) evs = nodes G ∧
    (∀ u, u ∈ written_by InInfectNeighbours (t + 1) evs →
          u ∈ nodes G ∧ state_at w t u = Some "S") ∧
    (∀ site t' u v, Assign site t' u v ∈ evs →
       t' = t + 1 ∧ (site = InDoProgression ∨ site = InInfectNeighbours ∧ v = "E")) ∧
    ∀ u, u ∈ nodes G → is_Some (state_at w' (t + 1) u).
Proof.
  intros HG Hwf Hrow1 Hdom Hrun.
  destruct (timestep_returned t w w' G row1 HG Hrow1 Hrun)
    as (G1 & G' & vs & evs & row3 & Hext & Hvs & Hevs & Hcomplete & Htr & Hother & Hrow3
        & Hout & Hin & _).
  assert (nodes G1 = nodes G) as Hnodes by (by eapply timestep_nodes_fixed).
  rewrite Hnodes in *.
  exists (zip_with (Assign InDoProgression (t + 1)) (nodes G) vs ++ evs).
  split; [done|]. split; [|split; [|split]].
  - rewrite written_by_app, written_by_progression by (symmetry; by eapply Forall2_length).
    by rewrite (infection_events_not_progression w t G1 evs), app_nil_r.
  - intros u. rewrite written_by_app, written_by_progression_other, app_nil_l by done.
    intros Hu. destruct (infection_events_written w t G1 evs _ _ Hevs u Hu) as (_ & _ & HS).
    split; [|done]. apply Hdom. eauto.
  - intros site t' u v [Hassign|Hassign]%elem_of_app.
    + apply zip_with_assign_elem in Hassign as (-> & -> & _). eauto.
    + rewrite Forall_forall in Hevs. destruct (Hevs _ Hassign) as (-> & -> & -> & _). eauto.
  - intros u Hu. destruct (Hin u Hu) as (s & v & _ & _ & Hfinal).
    unfold state_at. rewrite Hrow3. simpl. rewrite Hfinal.
    by destruct (infected_in evs u).
Qed.

(** ** The whole run *)

Lemma pick_without_replacement_subset {A} (pool : list A) k r :
  ∀ x, x ∈ (pick_without_replacement pool k r).1 → x ∈ pool.
Proof.
  revert pool r. induction k as [|k IH]; intros pool r x; simpl.
  - intros Hx. by apply elem_of_nil in Hx.
  - destruct (pool !! _) as [y|] eqn:Hy; [|intros Hx; by apply elem_of_nil in Hx].
    destruct (pick_without_replacement _ k _) as [rest r'] eqn:Hrest. simpl.
    intros [->|Hx]%elem_of_cons.
    + by eapply list_elem_of_lookup_2.
    + eapply list_elem_of_delete_inv. apply (IH _ (advance r)). by rewrite Hrest.
Qed.

Lemma random_sample_subset {A} (population : list A) k r sample r' :
  random_sample population k r = Ok (sample, r') → ∀ x, x ∈ sample → x ∈ population.
Proof.
  unfold random_sample. destruct (decide _); [|done]. intros [= H] x Hx.
  apply (pick_without_replacement_subset population k r). by rewrite H.
Qed.

Lemma empty_timeline_lookup (l : list nat) t :
  (list_to_map ((λ timestep, (timestep, ∅)) <$> l) : gmap nat (gmap nat string)) !! t
  = if decide (t ∈ l) then Some ∅ else None.
Proof.
  induction l as [|x l IH]; [done|]. cbn [fmap list_fmap list_to_map foldr].
  destruct (decide (t = x)) as [->|Hne].
  - rewrite lookup_insert_eq. by rewrite decide_True by left.
  - rewrite lookup_insert_ne by done. rewrite IH.
    destruct (decide (t ∈ l)) as [Hin|Hin].
    + by rewrite decide_True by (by right).
    + rewrite decide_False; [done|]. by intros [?|?]%elem_of_cons.
Qed.

(** Assigning [v] at timestep [t] to every node of [l]. *)
Lemma set_state_pass site t v l w w' row :
  states_dict w !! t = Some row →
  for_each l (λ n, set_state site t n v) w = Returned tt w' →
  same_setup w w' ∧ sim_graph w' = sim_graph w ∧
  (∀ t', t' ≠ t → states_dict w' !! t' = states_dict w !! t') ∧
  ∃ row', states_dict w' !! t = Some row' ∧
          ∀ n, row' !! n = if decide (n ∈ l) then Some v else row !! n.
Proof.
  intros Hrow Hrun.
  pose (I := λ (done : list nat) (w1 : World),
    same_setup w w1 ∧ sim_graph w1 = sim_graph w ∧
    (∀ t', t' ≠ t → states_dict w1 !! t' = states_dict w !! t') ∧
    ∃ row', states_dict w1 !! t = Some row' ∧
            ∀ n, row' !! n = if decide (n ∈ done) then Some v else row !! n).
  apply (for_each_returned I l (λ n, set_state site t n v) w w'); [| |done].
  - intros done x rest w1 w2 _ ((Hp & Hg & Ht) & _ & Hother & row' & Hrow' & Hlook) Hx.
    apply set_state_returned in Hx as (row'' & Hrow'' & ->).
    rewrite Hrow' in Hrow''. injection Hrow'' as <-.
    split; [done|]. split; [done|]. split.
    + intros t' Hne. simpl. rewrite lookup_insert_ne by done. by apply Hother.
    + exists (<[x := v]> row'). simpl. rewrite lookup_insert_eq. split; [done|].
      intros n. destruct (decide (n = x)) as [->|Hne].
      * rewrite lookup_insert_eq. rewrite decide_True; [done|]. apply elem_of_app. right. left.
      * rewrite lookup_insert_ne by done. rewrite Hlook.
        destruct (decide (n ∈ done)) as [Hin|Hin].
        -- rewrite decide_True; [done|]. apply elem_of_app. by left.
        -- rewrite decide_False; [done|].
           intros [?|?%list_elem_of_singleton]%elem_of_app; done.
  - split; [done|]. split; [done|]. split; [done|]. exists row. split; [done|].
    intros n. rewrite decide_False; [done|]. apply not_elem_of_nil.
Qed.

Lemma _make_states_dict_returned w w' G T :
  graph (sim_graph w) = Some G → time_horizon (sim_graph w) = Some T →
  _make_states_dict w = Returned tt w' →
  same_setup w w' ∧
  (∃ row0, states_dict w' !! 0 = Some row0 ∧
           ∀ n, row0 !! n = if decide (n ∈ nodes G) then Some "S" else None) ∧
  (∀ t, 0 < t ≤ T → states_dict w' !! t = Some ∅).
Proof.
  intros HG HT H. unfold _make_states_dict in H.
  apply bind_returned in H as (w0 & w1 & [= <- <-] & H).
  apply bind_returned in H as (T' & w1 & HT' & H).
  apply from_option_returned in HT' as [HT' <-]. rewrite HT in HT'. injection HT' as <-.
  apply bind_returned in H as (G' & w1 & HG' & H).
  apply the_graph_returned in HG' as [HG' <-]. rewrite HG in HG'. injection HG' as <-.
  apply bind_returned in H as ([] & w1 & Hinit & H). injection Hinit as <-.
  apply (set_state_pass _ _ _ _ _ _ ∅) in H as (Hsetup & _ & Hother & row0 & Hrow0 & Hlook).
  2:{ simpl. rewrite empty_timeline_lookup. rewrite decide_True; [done|].
      apply elem_of_seq. lia. }
  split; [done|]. split.
  - exists row0. split; [done|]. intros n. rewrite Hlook.
    destruct (decide (n ∈ nodes G)); [done|]. apply lookup_empty.
  - intros t Ht. rewrite Hother by lia. simpl. rewrite empty_timeline_lookup.
    rewrite decide_True; [done|]. apply elem_of_seq. lia.
Qed.

Lemma seq_split_position T done x rest :
  seq 0 T = done ++ x :: rest → x = length done ∧ x < T.
Proof.
  intros Hl. assert (seq 0 T !! length done = Some x) as Hx.
  { rewrite Hl. by rewrite list_lookup_middle. }
  apply lookup_seq in Hx as [-> ?]. split; [done|lia].
Qed.

Lemma STATES_S : "S" ∈ STATES.
Proof. left. Qed.

Lemma STATES_I : "I" ∈ STATES.
Proof. do 3 right. left. Qed.

Lemma STATES_E : "E" ∈ STATES.
Proof. right. left. Qed.

Lemma progresses_to_valid p s v :
  valid_targets p → s ∈ STATES → progresses_to p s v → v ∈ STATES.
Proof.
  intros Hvalid Hs. unfold progresses_to.
  destruct (decide (s ∈ ["R"; "D"; "S"])); [by intros ->|].
  intros (table & distrib & Htable & Hdistrib & Hv). eauto.
Qed.

Lemma removal_keeps_wf G1 G' :
  nx_wf G1 → nodes G' = nodes G1 →
  (∀ k, edges G' !! k = edges G1 !! k ≫= λ d, if interaction_edge d then None else Some d) →
  nx_wf G'.
Proof.
  intros [Hnd Hkeys] Hn He. split; [by rewrite Hn|].
  intros u v d. rewrite He. destruct (edges G1 !! (u, v)) as [d1|] eqn:H1; [|done].
  intros _. eauto.
Qed.

(** One more timestep of the run. *)
Lemma timeline_step G T p g k w w' :
  valid_targets p → k < T →
  timeline_inv G T p g k w → timestep k w = Returned tt w' → timeline_inv G T p g (S k) w'.
Proof.
  intros Hvalid Hk ((Gk & HGk & Hnk & Hwfk) & Hp & Hset & Hrows & Hempty) Hrun.
  destruct (Hrows k (le_n _)) as (rowk & Hrowk & Hcover & Hdom).
  assert (states_dict w !! (k + 1) = Some ∅) as Hnext by (apply Hempty; lia).
  destruct (timestep_returned k w w' Gk ∅ HGk Hnext Hrun)
    as (G1 & G' & vs & evs & row3 & Hext & Hvs & Hevs & _ & _ & Hother & Hrow3
        & Hout & Hin & Hp' & _ & Hset' & HG' & Hn' & _ & He').
  assert (∀ n, is_Some (state_at w k n) → n ∈ nodes Gk) as Hdomk.
  { intros n. unfold state_at. rewrite Hrowk. simpl. rewrite Hnk. apply Hdom. }
  assert (nodes G1 = nodes Gk) as Hnodes by (by eapply timestep_nodes_fixed).
  split; [|split; [|split; [|split]]].
  - exists G'. split; [done|]. split; [congruence|].
    eapply removal_keeps_wf; [|done|by apply He']. destruct Hext as (_ & Hwf1 & _). eauto.
  - congruence.
  - unfold same_settings in *. destruct Hset as (?&?&?&?&?), Hset' as (?&?&?&?&?).
    repeat split; congruence.
  - intros t Ht. destruct (decide (t = k + 1)) as [->|Hne].
    + exists row3. split; [done|]. split.
      * intros n Hn. rewrite <- Hnk, <- Hnodes in Hn.
        destruct (Hin n Hn) as (s & v & Hs & Hprog & Hfinal). rewrite Hfinal.
        destruct (infected_in evs n); [exists "E"; split; [done|apply STATES_E]|].
        exists v. split; [done|].
        apply (progresses_to_valid (sim_params w) s v); [by rewrite Hp| |done].
        unfold state_at in Hs. rewrite Hrowk in Hs. simpl in Hs.
        rewrite Hnodes, Hnk in Hn. destruct (Hcover n Hn) as (s' & Hs' & Hin').
        congruence.
      * intros n Hsome. destruct (decide (n ∈ nodes G1)) as [Hn|Hn]; [congruence|].
        rewrite (Hout n Hn) in Hsome. destruct (infected_in evs n) eqn:Hi.
        -- apply infected_in_spec in Hi as (v & luck & prob & Hdraw & _).
           rewrite Forall_forall in Hevs. destruct (Hevs _ Hdraw) as (_ & _ & _ & HS & _).
           rewrite <- Hnk. apply Hdomk. eauto.
        -- rewrite lookup_empty in Hsome. by destruct Hsome.
    + rewrite Hother by done. apply Hrows. lia.
  - intros t Ht. rewrite Hother by lia. apply Hempty. lia.
Qed.

Lemma timeline_run G T p g w w' :
  valid_targets p →
  timeline_inv G T p g 0 w → for_each (seq 0 T) timestep w = Returned tt w' →
  timeline_inv G T p g T w'.
Proof.
  intros Hvalid Hinit Hrun.
  apply (for_each_returned (λ done, timeline_inv G T p g (length done))
           (seq 0 T) timestep w w') in Hrun; [by rewrite length_seq in Hrun| |done].
  intros done x rest w1 w2 Hl Hinv Hx.
  apply seq_split_position in Hl as [-> Hlt].
  rewrite length_app. simpl. rewrite Nat.add_1_r. by eapply timeline_step.
Qed.

(** The part of [basic_simulation] before the loop. *)
Lemma basic_simulation_returned w w' :
  basic_simulation w = Returned tt w' →
  ∃ b G k T infected w1 w2 w3,
    behaviours (sim_params w) = Some b ∧
    graph (sim_graph w) = Some G ∧
    num_infected (sim_graph w) = Some k ∧
    time_horizon (sim_graph w) = Some T ∧
    (∀ x, x ∈ infected → x ∈ nodes G) ∧
    sim_graph w1 = sim_graph w ∧
    state_transitions (sim_params w1) = state_transitions (sim_params w) ∧
    _make_states_dict w1 = Returned tt w2 ∧
    for_each infected (λ vertex, set_state InBasicSimulation 0 vertex "I") w2 = Returned tt w3 ∧
    for_each (seq 0 T) timestep w3 = Returned tt w'.
Proof.
  unfold basic_simulation. intros H.
  apply bind_returned in H as (w0 & w1 & [= <- <-] & H).
  apply bind_returned in H as (b & w1 & Hb & H).
  apply from_option_returned in Hb as [Hb <-].
  apply bind_returned in H as ([] & w1 & Hmod & H). injection Hmod as <-.
  apply bind_returned in H as (G & w1 & HG & H).
  apply the_graph_returned in HG as [HG <-]. simpl in HG.
  apply bind_returned in H as (k & w1 & Hk & H).
  apply from_option_returned in Hk as [Hk <-].
  apply bind_returned in H as (infected & w1 & Hsample & H).
  apply with_random_result_returned in Hsample as (r & Hsample & ->).
  apply bind_returned in H as ([] & w2 & Hmake & H).
  apply bind_returned in H as ([] & w3 & Hseed & H).
  apply bind_returned in H as (T & w4 & HT & H).
  apply from_option_returned in HT as [HT <-].
  exists b, G, k, T, infected. eexists. exists w2, w3.
  split; [done|]. split; [done|]. split; [done|]. split; [done|].
  split; [by eapply random_sample_subset|].
  split; [|split; [|split; [exact Hmake|split; [exact Hseed|exact H]]]]; done.
Qed.

Lemma basic_simulation_timeline_inv w w' G T :
  graph (sim_graph w) = Some G → nx_wf G →
  time_horizon (sim_graph w) = Some T →
  valid_targets (sim_params w) →
  basic_simulation w = Returned tt w' →
  ∃ p, state_transitions p = state_transitions (sim_params w) ∧
       timeline_inv G T p (sim_graph w) T w'.
Proof.
  intros HG Hwf HT Hvalid H.
  apply basic_simulation_returned in H
    as (b & G0 & k & T0 & infected & w1 & w2 & w3 & _ & HG0 & _ & HT0 & Hsub & Hg1 & Hp1
        & Hmake & Hseed & Hloop).
  rewrite HG in HG0. injection HG0 as <-. rewrite HT in HT0. injection HT0 as <-.
  apply (_make_states_dict_returned _ _ G T) in Hmake
    as ((Hp2 & Hg2 & _) & (row0 & Hrow0 & Hlook0) & Hempty2); [|by rewrite Hg1..].
  apply (set_state_pass _ _ _ _ _ _ row0) in Hseed
    as ((Hp3 & Hg3 & _) & _ & Hother3 & row0' & Hrow0' & Hlook0'); [|done].
  exists (sim_params w3). split; [by rewrite Hp3, Hp2|].
  apply (timeline_run G T _ (sim_graph w) w3 w'); [| |done].
  { intros table s distrib v. rewrite Hp3, Hp2, Hp1. apply Hvalid. }
  split; [|split; [done|split; [|split]]].
  - exists G. split; [by rewrite Hg3, Hg2, Hg1|]. done.
  - rewrite Hg3, Hg2, Hg1. by repeat split.
  - intros t Ht. assert (t = 0) as -> by lia. exists row0'. split; [done|]. split.
    + intros n Hn. rewrite Hlook0'. destruct (decide (n ∈ infected)).
      * exists "I". split; [done|apply STATES_I].
      * exists "S". rewrite Hlook0. rewrite decide_True by done. split; [done|apply STATES_S].
    + intros n. rewrite Hlook0'. destruct (decide (n ∈ infected)); [eauto|].
      rewrite Hlook0. destruct (decide (n ∈ nodes G)); [done|]. by intros [? ?].
  - intros t Ht. rewrite Hother3 by lia. by apply Hempty2.
Qed.

Lemma counts_sum (l : list (nat * string)) :
  (∀ kv, kv ∈ l → kv.2 ∈ STATES) →
  foldr Z.add 0%Z ((λ s, Z.of_nat (length (filter (λ kv, kv.2 = s) l))) <$> STATES)
  = Z.of_nat (length l).
Proof.
  induction l as [|[n s] l IH]; intros Hall; [done|].
  assert (s ∈ STATES) as Hs by (apply (Hall (n, s)); left).
  specialize (IH (λ kv Hkv, Hall kv (list_elem_of_further _ _ _ Hkv))).
  unfold STATES in *. cbn [fmap list_fmap foldr] in *. rewrite !filter_cons.
  cbn [snd length].
  repeat (apply elem_of_cons in Hs as [->|Hs];
          [repeat case_decide; try (exfalso; congruence); cbn [length]; lia|]).
  by apply elem_of_nil in Hs.
Qed.

Lemma covers_size G row : NoDup (nodes G) → covers G row → size row = length (nodes G).
Proof.
  intros Hnd [Hin Hout]. rewrite <- size_dom, <- (size_list_to_set (C := gset nat)) by done.
  f_equal. apply set_eq. intros n. rewrite elem_of_dom, elem_of_list_to_set. split.
  - apply Hout.
  - intros Hn. destruct (Hin n Hn) as (s & -> & _). eauto.
Qed.

Lemma covers_counts G row :
  NoDup (nodes G) → covers G row →
  foldr Z.add 0%Z (compartment_counts row) = Z.of_nat (length (nodes G)).
Proof.
  intros Hnd Hcov. rewrite <- (covers_size G row) by done.
  rewrite <- length_map_to_list. unfold compartment_counts, count_state.
  apply counts_sum. intros [n s] Hkv. apply elem_of_map_to_list in Hkv. simpl.
  destruct Hcov as [Hin Hout]. destruct (Hin n) as (s' & Hs' & HS); [apply Hout; eauto|].
  congruence.
Qed.

(** C4: when [basic_simulation] has returned, at every timestep from 0 to
    the time horizon the timeline gives every node of the graph one of the 7
    compartment labels (and holds no other node), so the counts of the 7
    compartments add up to the number of nodes.  The graph has the nodes it
    started with.  The transition table is assumed to name only compartments
    as targets. *)
Theorem basic_simulation_timeline (w w' : World) (G : nxGraph) (T : nat) :
  graph (sim_graph w) = Some G → nx_wf G →
  time_horizon (sim_graph w) = Some T →
  valid_targets (sim_params w) →
  basic_simulation w = Returned tt w' →
  (∃ G', graph (sim_graph w') = Some G' ∧ nodes G' = nodes G) ∧
  ∀ t, t ≤ T →
    ∃ row, states_dict w' !! t = Some row ∧
           (∀ n, n ∈ nodes G → ∃ s, row !! n = Some s ∧ s ∈ STATES) ∧
           (∀ n, is_Some (row !! n) → n ∈ nodes G) ∧
           foldr Z.add 0%Z (compartment_counts row) = Z.of_nat (length (nodes G)).
Proof.
  intros HG Hwf HT Hvalid Hrun.
  destruct (basic_simulation_timeline_inv w w' G T HG Hwf HT Hvalid Hrun)
    as (p & _ & (G' & HG' & Hn' & _) & _ & _ & Hrows & _).
  split; [eauto|]. intros t Ht. destruct (Hrows t Ht) as (row & Hrow & Hcov).
  exists row. split; [done|]. destruct Hcov as [Hin Hout]. split; [done|]. split; [done|].
  apply covers_counts; [by destruct Hwf|by split].
Qed.

(** ** Properties of the [Graph] object that a run keeps *)

Section graph_invariant.
Variable I : Graph → Prop.
Hypothesis I_add_edge : ∀ g G u v,
  I g → graph g = Some G → has_edge G u v = false →
  I (with_nx (add_edge G u v (interaction_data (infection_rate g))) g).
Hypothesis I_remove_edge : ∀ g G u v,
  I g → graph g = Some G → I (with_nx (remove_edge G u v) g).
Hypothesis I_node_data : ∀ g G nd,
  I g → graph g = Some G →
  I (with_nx {| nodes := nodes G; node_data := nd; edges := edges G |} g).

Let J (w : World) : Prop := I (sim_graph w).

Lemma ret_preserves {A} (a : A) : preserves J (mret a).
Proof. by intros w HJ. Qed.

Lemma raise_preserves {A} e : preserves J (raise (A := A) e).
Proof. by intros w HJ. Qed.

Lemma get_world_preserves : preserves J get_world.
Proof. by intros w HJ. Qed.

Lemma from_option_preserves {A} e (o : option A) : preserves J (from_option e o).
Proof. intros w HJ. by destruct o. Qed.

Lemma lift_result_preserves {A} (x : result A) : preserves J (lift_result x).
Proof. intros w HJ. by destruct x. Qed.

Lemma with_random_preserves {A} (f : Rng → A * Rng) : preserves J (with_random f).
Proof. intros w HJ. unfold with_random. by destruct (f (rng w)). Qed.

Lemma with_random_result_preserves {A} (f : Rng → result (A * Rng)) :
  preserves J (with_random_result f).
Proof. intros w HJ. unfold with_random_result. by destruct (f (rng w)) as [[? ?]|?]. Qed.

Lemma modify_preserves (f : World → World) :
  (∀ w, sim_graph (f w) = sim_graph w) → preserves J (modify f).
Proof. intros Hf w HJ. simpl. unfold J. by rewrite Hf. Qed.

Lemma the_graph_preserves : preserves J the_graph.
Proof.
  apply bind_preserves; [apply get_world_preserves|]. intros w.
  apply from_option_preserves.
Qed.

Lemma get_state_preserves t node : preserves J (get_state t node).
Proof.
  apply bind_preserves; [apply get_world_preserves|]. intros w.
  apply bind_preserves; [apply from_option_preserves|]. intros row.
  apply from_option_preserves.
Qed.

Lemma set_state_preserves site t node v : preserves J (set_state site t node v).
Proof.
  apply bind_preserves; [apply get_world_preserves|]. intros w.
  apply bind_preserves; [apply from_option_preserves|]. intros row.
  by apply modify_preserves.
Qed.

Lemma _add_new_interaction_edge_preserves pair : preserves J (_add_new_interaction_edge pair).
Proof.
  intros w HJ. unfold _add_new_interaction_edge, the_graph, mbind, M_bind, get_world.
  destruct (graph (sim_graph w)) as [G|] eqn:HG; simpl; [|done].
  destruct (has_edge G pair.1 pair.2) eqn:Hhas; simpl; [done|].
  by apply I_add_edge.
Qed.

Lemma set_group_interaction_edges_preserves behaviour node other_nodes group_size :
  preserves J (set_group_interaction_edges behaviour node other_nodes group_size).
Proof.
  apply bind_preserves.
  { destruct (decide (behaviour = "food_shopping")); [|apply ret_preserves].
    apply bind_preserves; [apply get_world_preserves|]. intros w.
    apply bind_preserves; [apply from_option_preserves|]. intros arr.
    apply bind_preserves; [apply from_option_preserves|]. intros row.
    apply ret_preserves. }
  intros others. apply bind_preserves; [apply with_random_result_preserves|].
  intros new_group. apply for_each_preserves. intros pair _.
  apply _add_new_interaction_edge_preserves.
Qed.

Lemma set_visit_days_preserves node behaviour chosen_days :
  preserves J (set_visit_days node behaviour chosen_days).
Proof.
  intros w HJ. unfold set_visit_days, the_graph, mbind, M_bind, get_world.
  destruct (graph (sim_graph w)) as [G|] eqn:HG; simpl; [|done].
  destruct (node_data G !! node) as [d|]; simpl; [|done].
  by apply I_node_data.
Qed.

Lemma _add_interactions_preserves node : preserves J (_add_interactions node).
Proof.
  apply bind_preserves; [apply get_world_preserves|]. intros w.
  apply bind_preserves; [apply the_graph_preserves|]. intros G.
  apply bind_preserves; [apply from_option_preserves|]. intros bd.
  apply bind_preserves.
  { destruct (decide (curr_time w `mod` 7 = 0)); [|apply ret_preserves].
    apply for_each_preserves. intros b _.
    apply bind_preserves; [apply with_random_result_preserves|]. intros days.
    apply set_visit_days_preserves. }
  intros []. apply for_each_preserves. intros b _.
  apply bind_preserves; [apply the_graph_preserves|]. intros G'.
  apply bind_preserves; [apply from_option_preserves|]. intros d.
  apply bind_preserves; [apply from_option_preserves|]. intros days.
  destruct (decide (curr_time w `mod` 7 ∈ days)); [|apply ret_preserves].
  apply set_group_interaction_edges_preserves.
Qed.

Lemma remove_group_interaction_edges_preserves : preserves J remove_group_interaction_edges.
Proof.
  apply bind_preserves; [apply the_graph_preserves|]. intros G.
  apply for_each_preserves. intros uv _ w HJ.
  unfold the_graph, mbind, M_bind, get_world.
  destruct (graph (sim_graph w)) as [G'|] eqn:HG; simpl; [|done].
  destruct (edges G' !! edge_key uv.1 uv.2) as [d|]; simpl; [|done].
  destruct (interaction_edge d); simpl; [|done]. by apply I_remove_edge.
Qed.

Lemma _choose_from_distrib_preserves ag distrib :
  preserves J (_choose_from_distrib ag distrib).
Proof.
  apply bind_preserves; [apply with_random_preserves|]. intros max_sum.
  apply bind_preserves; [apply lift_result_preserves|]. intros [v|].
  - apply ret_preserves.
  - apply lift_result_preserves.
Qed.

Lemma _do_progression_preserves node : preserves J (_do_progression node).
Proof.
  apply bind_preserves; [apply get_world_preserves|]. intros w.
  apply bind_preserves; [apply get_state_preserves|]. intros s.
  apply bind_preserves; [apply the_graph_preserves|]. intros G.
  apply bind_preserves; [apply from_option_preserves|]. intros d.
  apply bind_preserves; [apply from_option_preserves|]. intros ag.
  destruct (decide (s ∉ ["R"; "D"; "S"])); [|apply set_state_preserves].
  apply bind_preserves; [apply from_option_preserves|]. intros table.
  apply bind_preserves; [apply from_option_preserves|]. intros distrib.
  apply bind_preserves; [apply _choose_from_distrib_preserves|]. intros v.
  apply set_state_preserves.
Qed.

Lemma _infect_neighbours_preserves node neighbour :
  preserves J (_infect_neighbours node neighbour).
Proof.
  apply bind_preserves; [apply get_world_preserves|]. intros w.
  apply bind_preserves; [apply get_state_preserves|]. intros s.
  destruct (decide (s = "S")); [|apply ret_preserves].
  apply bind_preserves; [apply the_graph_preserves|]. intros G.
  apply bind_preserves; [apply from_option_preserves|]. intros d.
  apply bind_preserves; [apply from_option_preserves|]. intros p.
  apply bind_preserves; [apply with_random_preserves|]. intros luck.
  apply bind_preserves; [by apply modify_preserves|]. intros [].
  destruct (luck <=? p)%float; [apply set_state_preserves|apply ret_preserves].
Qed.

Lemma _do_infection_preserves node : preserves J (_do_infection node).
Proof.
  apply bind_preserves; [apply get_world_preserves|]. intros w.
  apply bind_preserves; [apply get_state_preserves|]. intros s.
  destruct (decide (s = "I" ∨ s = "A")); [|apply ret_preserves].
  apply bind_preserves; [apply the_graph_preserves|]. intros G.
  apply for_each_preserves. intros nb _. apply _infect_neighbours_preserves.
Qed.

Lemma timestep_preserves time : preserves J (timestep time).
Proof.
  apply bind_preserves; [by apply modify_preserves|]. intros [].
  apply bind_preserves; [apply the_graph_preserves|]. intros G.
  apply bind_preserves.
  { apply for_each_preserves. intros n _. apply _add_interactions_preserves. }
  intros []. apply bind_preserves; [apply the_graph_preserves|]. intros G1.
  apply bind_preserves.
  { apply for_each_preserves. intros n _. apply _do_progression_preserves. }
  intros []. apply bind_preserves; [apply the_graph_preserves|]. intros G2.
  apply bind_preserves.
  { apply for_each_preserves. intros n _. apply _do_infection_preserves. }
  intros []. apply remove_group_interaction_edges_preserves.
Qed.

Lemma _make_states_dict_preserves : preserves J _make_states_dict.
Proof.
  apply bind_preserves; [apply get_world_preserves|]. intros w.
  apply bind_preserves; [apply from_option_preserves|]. intros T.
  apply bind_preserves; [apply the_graph_preserves|]. intros G.
  apply bind_preserves; [by apply modify_preserves|]. intros [].
  apply for_each_preserves. intros n _. apply set_state_preserves.
Qed.

Lemma basic_simulation_preserves : preserves J basic_simulation.
Proof.
  apply bind_preserves; [apply get_world_preserves|]. intros w.
  apply bind_preserves; [apply from_option_preserves|]. intros b.
  apply bind_preserves; [by apply modify_preserves|]. intros [].
  apply bind_preserves; [apply the_graph_preserves|]. intros G.
  apply bind_preserves; [apply from_option_preserves|]. intros k.
  apply bind_preserves; [apply with_random_result_preserves|]. intros infected.
  apply bind_preserves; [apply _make_states_dict_preserves|]. intros [].
  apply bind_preserves.
  { apply for_each_preserves. intros n _. apply set_state_preserves. }
  intros []. apply bind_preserves; [apply from_option_preserves|]. intros T.
  apply for_each_preserves. intros t _. apply timestep_preserves.
Qed.
End graph_invariant.

(** ** Graph construction *)

Lemma length_bind_const {A B} (f : A → list B) (l : list A) c :
  (∀ x, length (f x) = c) → length (l ≫= f) = length l * c.
Proof.
  intros Hf. induction l as [|x l IH]; [done|].
  rewrite bind_cons, length_app, IH, Hf. simpl. lia.
Qed.

Lemma length_grid_points n : length (grid_points n) = n * n.
Proof.
  unfold grid_points. rewrite (length_bind_const _ _ n), length_seq; [done|].
  intros x. rewrite (length_bind_const _ _ 1), length_seq; [lia|done].
Qed.

Lemma NoDup_grid_points n : NoDup (grid_points n).
Proof.
  unfold grid_points. apply NoDup_bind; [| |apply NoDup_seq].
  - intros x1 x2 y _ _ (n1 & Hy1 & _)%list_elem_of_bind (n2 & Hy2 & _)%list_elem_of_bind.
    apply list_elem_of_singleton in Hy1, Hy2. congruence.
  - intros x _. apply NoDup_bind; [| |apply NoDup_seq].
    + intros y1 y2 y _ _ Hy1%list_elem_of_singleton Hy2%list_elem_of_singleton. congruence.
    + intros y _. apply NoDup_singleton.
Qed.

Lemma ceil_sqrt_covers n : n ≤ ceil_sqrt n ^ 2.
Proof.
  unfold ceil_sqrt. pose proof (Nat.sqrt_spec n (Nat.le_0_l n)) as [Hlo Hhi].
  destruct (decide (Nat.sqrt n * Nat.sqrt n = n)); simpl; lia.
Qed.

Lemma pick_without_replacement_perm {A} (pool : list A) k r :
  k ≤ length pool →
  length (pick_without_replacement pool k r).1 = k ∧
  ∃ rest, pool ≡ₚ (pick_without_replacement pool k r).1 ++ rest.
Proof.
  revert pool r. induction k as [|k IH]; intros pool r Hk; simpl.
  - split; [done|]. by exists pool.
  - assert (choice_src r (cursor r) `mod` length pool < length pool) as Hi.
    { apply Nat.mod_upper_bound. lia. }
    destruct (lookup_lt_is_Some_2 _ _ Hi) as [x Hx]. rewrite Hx.
    destruct (pick_without_replacement _ k _) as [picked r'] eqn:Hpick.
    destruct (IH (delete (choice_src r (cursor r) `mod` length pool) pool) (advance r))
      as [Hlen [rest Hrest]].
    { rewrite length_delete by eauto. lia. }
    rewrite Hpick in Hlen, Hrest. simpl in *. split; [by rewrite Hlen|].
    exists rest. rewrite (delete_Permutation _ _ _ Hx). by rewrite Hrest.
Qed.

Lemma filter_none {A} (P : A → Prop) `{∀ x, Decision (P x)} (l : list A) :
  (∀ x, x ∈ l → ¬ P x) → filter P l = [].
Proof.
  induction l as [|x l IH]; intros Hall; [done|].
  rewrite filter_cons_False by (apply Hall; left). apply IH. intros y Hy. apply Hall. by right.
Qed.

Lemma filter_all {A} (P : A → Prop) `{∀ x, Decision (P x)} (l : list A) :
  (∀ x, x ∈ l → P x) → filter P l = l.
Proof.
  induction l as [|x l IH]; intros Hall; [done|].
  rewrite filter_cons_True by (apply Hall; left). f_equal. apply IH.
  intros y Hy. apply Hall. by right.
Qed.

Lemma filter_not_in_picked {A} `{EqDecision A} (pool picked rest : list A) :
  NoDup pool → pool ≡ₚ picked ++ rest →
  length (filter (λ x, x ∉ picked) pool) = length pool - length picked.
Proof.
  intros Hnd Hperm. rewrite Hperm in Hnd. rewrite Hperm, filter_app, !length_app.
  apply NoDup_app in Hnd as (_ & Hdisj & _).
  rewrite filter_none by (intros x Hx Hnot; done).
  rewrite filter_all; [simpl; lia|]. intros x Hx Hin. by apply (Hdisj x Hin).
Qed.

Lemma random_sample_removed {A} `{EqDecision A} (pool : list A) k r sample r' :
  NoDup pool → random_sample pool k r = Ok (sample, r') →
  length (filter (λ x, x ∉ sample) pool) = length pool - k.
Proof.
  unfold random_sample. intros Hnd. destruct (decide (k ≤ length pool)) as [Hk|]; [|done].
  intros [= H]. destruct (pick_without_replacement_perm pool k r Hk) as [Hlen [rest Hrest]].
  rewrite H in Hlen, Hrest. simpl in *. rewrite <- Hlen. by eapply filter_not_in_picked.
Qed.

(** The edges of the relabelled lattice carry no attribute and are stored
    under the ordered pair of their endpoints. *)
Lemma convert_edges D k d :
  edges (convert_node_labels_to_integers D) !! k = Some d →
  d = {| weight := None; interaction_edge := false |} ∧ k.1 ≤ k.2.
Proof.
  unfold convert_node_labels_to_integers. cbn [edges].
  induction (dedges D) as [|e es IH]; cbn [foldr]; [by rewrite lookup_empty|].
  destruct (index_of e.1 (dnodes D)) as [u|]; [|done].
  destruct (index_of e.2 (dnodes D)) as [v|]; [|done].
  destruct (decide (edge_key u v = k)) as [<-|Hne].
  - rewrite lookup_insert_eq. intros [= <-]. split; [done|apply edge_key_le].
  - by rewrite lookup_insert_ne.
Qed.

Lemma imap_keys {A B} (f : nat → A → B) (l : list A) :
  (imap (λ i x, (i, f i x)) l).*1 = seq 0 (length l).
Proof.
  apply list_eq. intros i. rewrite list_lookup_fmap, list_lookup_imap.
  destruct (l !! i) as [x|] eqn:Hi; simpl; symmetry.
  - apply lookup_seq. split; [done|by eapply lookup_lt_Some].
  - destruct (seq 0 (length l) !! i) as [j|] eqn:Hs; [|done].
    apply lookup_seq in Hs as [_ Hlt]. apply lookup_ge_None in Hi. lia.
Qed.

Lemma convert_location D i pt :
  dnodes D !! i = Some pt →
  location_of (convert_node_labels_to_integers D) i = Ok (Z.of_nat pt.1, Z.of_nat pt.2).
Proof.
  intros Hi. unfold location_of, convert_node_labels_to_integers. cbn [node_data].
  rewrite (elem_of_list_to_map_1 _ i
             {| location := Some (Z.of_nat pt.1, Z.of_nat pt.2); age_group := None;
                visit_days := ∅ |}).
  - done.
  - rewrite imap_keys. apply NoDup_seq.
  - apply list_elem_of_lookup. exists i. by rewrite list_lookup_imap, Hi.
Qed.

Lemma location_of_lookup G i :
  location_of G i = match node_data G !! i ≫= location with
                    | Some l => Ok l
                    | None => Raise KeyError
                    end.
Proof. unfold location_of. by destruct (node_data G !! i). Qed.

Lemma age_groups_keep_location (values : list (nat * string)) (nd : gmap nat NodeData) i :
  foldl (λ nd iv,
           alter (λ d, {| location := location d; age_group := Some iv.2;
                          visit_days := visit_days d |}) iv.1 nd) nd values !! i ≫= location
  = nd !! i ≫= location.
Proof.
  revert nd. induction values as [|iv values IH]; intros nd; [done|].
  cbn [foldl]. rewrite IH. destruct (decide (iv.1 = i)) as [<-|Hne].
  - rewrite lookup_alter_eq. by destruct (nd !! iv.1).
  - by rewrite lookup_alter_ne.
Qed.

Lemma set_node_age_groups_location G values i :
  location_of (set_node_age_groups G values) i = location_of G i.
Proof.
  rewrite !location_of_lookup. unfold set_node_age_groups. cbn [node_data].
  by rewrite age_groups_keep_location.
Qed.

Lemma constructed_nodes D rate ages :
  nodes (constructed_graph D rate ages) = seq 0 (length (dnodes D)).
Proof. done. Qed.

Lemma constructed_edges D rate ages k d :
  edges (constructed_graph D rate ages) !! k = Some d →
  d = {| weight := rate; interaction_edge := false |} ∧ k.1 ≤ k.2.
Proof.
  unfold constructed_graph, set_node_age_groups, set_edge_weights, remove_selfloops.
  cbn [edges]. intros (d0 & <- & Hd0)%lookup_fmap_Some.
  apply map_lookup_filter_Some in Hd0 as [Hd0 _].
  apply convert_edges in Hd0 as [-> Hle]. done.
Qed.

Lemma constructed_location D rate ages i pt :
  dnodes D !! i = Some pt →
  location_of (constructed_graph D rate ages) i = Ok (Z.of_nat pt.1, Z.of_nat pt.2).
Proof.
  intros Hi. unfold constructed_graph. rewrite set_node_age_groups_location.
  by apply convert_location.
Qed.

Lemma constructed_wf D rate ages : nx_wf (constructed_graph D rate ages).
Proof.
  split; [rewrite constructed_nodes; apply NoDup_seq|].
  intros u v d Hd. by apply constructed_edges in Hd as [_ Hle].
Qed.

Lemma constructed_no_interaction_edges D rate ages :
  no_interaction_edges (constructed_graph D rate ages).
Proof. intros k d Hd. by apply constructed_edges in Hd as [-> _]. Qed.

(** ** The closeness array *)

Lemma arr_set_ok n arr i j x :
  square n arr → i < n → j < n →
  ∃ arr', arr_set arr i j x = Ok arr' ∧ square n arr' ∧
          ∀ i' j', entry arr' i' j'
                   = if bool_decide (i' = i ∧ j' = j) then Some x else entry arr i' j'.
Proof.
  intros [Hlen Hrows] Hi Hj. unfold arr_set.
  destruct (lookup_lt_is_Some_2 arr i) as [row Hrow]; [lia|]. rewrite Hrow.
  pose proof (Hrows i row Hrow) as Hrowlen.
  rewrite decide_True by lia. eexists. split; [done|]. split.
  - split; [by rewrite length_insert|]. intros i' row'.
    destruct (decide (i' = i)) as [->|Hne].
    + rewrite list_lookup_insert_eq by lia. intros [= <-]. by rewrite length_insert.
    + rewrite list_lookup_insert_ne by done. apply Hrows.
  - intros i' j'. unfold entry. destruct (decide (i' = i)) as [->|Hne].
    + rewrite list_lookup_insert_eq by lia. simpl. rewrite Hrow. simpl.
      destruct (decide (j' = j)) as [->|Hnej].
      * rewrite bool_decide_eq_true_2 by done. apply list_lookup_insert_eq. lia.
      * rewrite bool_decide_eq_false_2 by (intros [_ ?]; done).
        by apply list_lookup_insert_ne.
    + rewrite list_lookup_insert_ne by done.
      by rewrite bool_decide_eq_false_2 by (intros [? _]; done).
Qed.

(** The inner loop of [_set_close_nodes_arr] for node [i]. *)
Lemma close_row_fold G threshold n i li (others : list nat) arr :
  square n arr → i < n → location_of G i = Ok li →
  (∀ j, j ∈ others → j < n ∧ ∃ lj, location_of G j = Ok lj) →
  ∃ arr',
    fold_result (λ node_arr other_node,
        if decide (i ≠ other_node) then
          other_location ← location_of G other_node;
          let chebyshev_dist := _calculate_chebyshev_dist other_location li in
          if decide (chebyshev_dist ≤ threshold)%Z then arr_set node_arr i other_node 1%float
          else Ok node_arr
        else Ok node_arr) others arr = Ok arr' ∧
    square n arr' ∧
    ∀ i' j', entry arr' i' j'
             = if bool_decide (i' = i ∧ j' ∈ others) && is_close G threshold i j'
               then Some 1%float else entry arr i' j'.
Proof.
  intros Hsq Hi Hli. revert arr Hsq.
  match goal with |- context [fold_result ?f _ _] => set (body := f) end.
  induction others as [|j others IH]; intros arr Hsq Hall.
  - exists arr. split; [done|]. split; [done|]. intros i' j'.
    rewrite bool_decide_eq_false_2; [done|]. intros [_ Hin]. by apply elem_of_nil in Hin.
  - destruct (Hall j) as [Hj [lj Hlj]]; [left|].
    assert (∃ arr1, body arr j = Ok arr1 ∧ square n arr1 ∧
             ∀ i' j', entry arr1 i' j'
                      = if bool_decide (i' = i ∧ j' = j) && is_close G threshold i j'
                        then Some 1%float else entry arr i' j') as (arr1 & Hstep & Hsq1 & He1).
    { unfold body. destruct (decide (i ≠ j)) as [Hne|Heq].
      - rewrite Hlj. simpl.
        destruct (decide (_calculate_chebyshev_dist lj li ≤ threshold)%Z) as [Hc|Hc].
        + destruct (arr_set_ok n arr i j 1%float Hsq Hi Hj) as (arr1 & Hset & Hsq1 & He1).
          exists arr1. split; [done|]. split; [done|]. intros i' j'. rewrite He1.
          destruct (bool_decide (i' = i ∧ j' = j)) eqn:Hb; [|done].
          apply bool_decide_eq_true in Hb as [-> ->]. unfold is_close. rewrite Hli, Hlj.
          by rewrite !bool_decide_eq_true_2.
        + exists arr. split; [done|]. split; [done|]. intros i' j'.
          destruct (bool_decide (i' = i ∧ j' = j)) eqn:Hb; [|done].
          apply bool_decide_eq_true in Hb as [-> ->]. unfold is_close. rewrite Hli, Hlj.
          by rewrite (bool_decide_eq_false_2 (_ ≤ _)%Z), andb_false_r.
      - exists arr. split; [done|]. split; [done|]. intros i' j'.
        destruct (bool_decide (i' = i ∧ j' = j)) eqn:Hb; [|done].
        apply bool_decide_eq_true in Hb as [-> ->]. unfold is_close. rewrite Hli, Hlj.
        by rewrite (bool_decide_eq_false_2 (i ≠ j)). }
    destruct (IH arr1 Hsq1) as (arr' & Hfold & Hsq' & He').
    { intros j' Hj'. apply Hall. by right. }
    exists arr'. split; [|split; [done|]].
    + cbn [fold_result]. rewrite Hstep. exact Hfold.
    + intros i' j'. rewrite He', He1.
      destruct (is_close G threshold i j'); rewrite ?andb_true_r, ?andb_false_r; [|done].
      destruct (decide (i' = i ∧ j' ∈ others)) as [[-> Hin]|Hno].
      * rewrite !bool_decide_eq_true_2; [done| |done]. split; [done|by right].
      * rewrite (bool_decide_eq_false_2 _ Hno).
        destruct (decide (i' = i ∧ j' = j)) as [[-> ->]|Hno'].
        -- rewrite !bool_decide_eq_true_2; [done|split; [done|left]|done].
        -- rewrite (bool_decide_eq_false_2 _ Hno'). rewrite bool_decide_eq_false_2; [done|].
           intros [-> [->|Hin]%elem_of_cons]; [by apply Hno'|by apply Hno].
Qed.

(** The outer loop. *)
Lemma close_rows_fold G threshold n (all_nodes todo : list nat) arr :
  square n arr →
  (∀ j, j ∈ all_nodes → j < n ∧ ∃ lj, location_of G j = Ok lj) →
  (∀ i, i ∈ todo → i ∈ all_nodes) →
  ∃ arr',
    fold_result (λ node_arr node,
      node_location ← location_of G node;
      fold_result (λ node_arr other_node,
          if decide (node ≠ other_node) then
            other_location ← location_of G other_node;
            let chebyshev_dist := _calculate_chebyshev_dist other_location node_location in
            if decide (chebyshev_dist ≤ threshold)%Z then arr_set node_arr node other_node 1%float
            else Ok node_arr
          else Ok node_arr)
        all_nodes node_arr) todo arr = Ok arr' ∧
    square n arr' ∧
    ∀ i j, entry arr' i j
           = if bool_decide (i ∈ todo ∧ j ∈ all_nodes) && is_close G threshold i j
             then Some 1%float else entry arr i j.
Proof.
  intros Hsq Hall. revert arr Hsq.
  match goal with |- context [fold_result ?f todo _] => set (body := f) end.
  induction todo as [|i todo IH]; intros arr Hsq Hsub.
  - exists arr. split; [done|]. split; [done|]. intros i j.
    rewrite bool_decide_eq_false_2; [done|]. intros [Hin _]. by apply elem_of_nil in Hin.
  - destruct (Hall i) as [Hi [li Hli]]; [apply Hsub; left|].
    destruct (close_row_fold G threshold n i li all_nodes arr Hsq Hi Hli Hall)
      as (arr1 & Hrow & Hsq1 & He1).
    destruct (IH arr1 Hsq1) as (arr' & Hfold & Hsq' & He').
    { intros i' Hi'. apply Hsub. by right. }
    exists arr'. split; [|split; [done|]].
    + assert (body arr i = Ok arr1) as Hstep.
      { unfold body. rewrite Hli. simpl. exact Hrow. }
      cbn [fold_result]. rewrite Hstep. exact Hfold.
    + intros i' j. rewrite He', He1.
      destruct (is_close G threshold i' j) eqn:Hc; rewrite ?andb_true_r, ?andb_false_r.
      * destruct (decide (i' ∈ todo ∧ j ∈ all_nodes)) as [[Hin Hj]|Hno].
        -- rewrite !bool_decide_eq_true_2; [done| |done]. split; [by right|done].
        -- rewrite (bool_decide_eq_false_2 _ Hno).
           destruct (decide (i' = i ∧ j ∈ all_nodes)) as [[-> Hj]|Hno'].
           ++ rewrite bool_decide_eq_true_2 by done. rewrite Hc. simpl.
              rewrite bool_decide_eq_true_2; [done|]. split; [left|done].
           ++ rewrite (bool_decide_eq_false_2 _ Hno'). simpl.
              rewrite bool_decide_eq_false_2; [done|].
              intros [[->|Hin]%elem_of_cons Hj]; [by apply Hno'|by apply Hno].
      * destruct (bool_decide (i' = i ∧ j ∈ all_nodes)) eqn:Hb; [|done].
        apply bool_decide_eq_true in Hb as [-> _]. by rewrite Hc, andb_false_r.
Qed.

Lemma zero_array_square n : square n (replicate n (replicate n 0%float)).
Proof.
  split; [apply length_replicate|]. intros i row [-> _]%lookup_replicate.
  apply length_replicate.
Qed.

Lemma zero_array_entry n i j :
  i < n → j < n → entry (replicate n (replicate n 0%float)) i j = Some 0%float.
Proof.
  intros Hi Hj. unfold entry. rewrite lookup_replicate_2 by done. simpl.
  by apply lookup_replicate_2.
Qed.

Lemma close_nodes_of_ok G threshold n :
  nodes G = seq 0 n →
  (∀ i, i < n → ∃ li, location_of G i = Ok li) →
  ∃ arr, close_nodes_of G threshold = Ok arr ∧ square n arr ∧
         ∀ i j, i < n → j < n →
                entry arr i j = Some (if is_close G threshold i j then 1%float else 0%float).
Proof.
  intros Hnodes Hloc. unfold close_nodes_of. rewrite Hnodes, length_seq.
  destruct (close_rows_fold G threshold n (seq 0 n) (seq 0 n)
              (replicate n (replicate n 0%float))) as (arr & Hfold & Hsq & He).
  - apply zero_array_square.
  - intros j Hj%elem_of_seq. split; [lia|]. apply Hloc. lia.
  - done.
  - exists arr. split; [exact Hfold|]. split; [done|]. intros i j Hi Hj.
    rewrite He, zero_array_entry by done.
    rewrite bool_decide_eq_true_2 by (split; apply elem_of_seq; lia).
    by destruct (is_close G threshold i j).
Qed.




Lemma navigable_small_world_graph_nodes n p q r g D g' :
  navigable_small_world_graph n p q r g = Ok (D, g') → dnodes D = grid_points n.
Proof.
  unfold navigable_small_world_graph. destruct (decide (p < 1)); [done|].
  destruct (r <? 0)%float; [done|].
  destruct (all_links _ _ _ _ _) as [links g'']. by intros [= <- _].
Qed.

(** What [Graph.create_graph] leaves behind when it returns. *)
Lemma Graph_create_graph_returned ags rate w w' N :
  N = sum_list (ags.*2) →
  Graph_create_graph ags rate w = Returned tt w' →
  ∃ cfg D extra r r' ages arr,
    graph_config (sim_graph w) = Some cfg ∧
    dnodes D = grid_points (ceil_sqrt N) ∧
    random_sample (dnodes D) (ceil_sqrt N ^ 2 - N) r = Ok (extra, r') ∧
    close_nodes_of (constructed_graph (remove_nodes_from D extra) rate ages)
      (closeness_threshold cfg) = Ok arr ∧
    sim_graph w'
    = {| graph := Some (constructed_graph (remove_nodes_from D extra) rate ages);
         time_horizon := time_horizon (sim_graph w);
         num_infected := num_infected (sim_graph w);
         graph_config := Some cfg;
         infection_rate := rate;
         close_nodes_arr := Some arr |} ∧
    sim_params w' = sim_params w ∧ states_dict w' = states_dict w ∧ trace w' = trace w.
Proof.
  unfold Graph_create_graph, _set_navigable_small_world_graph. intros -> H.
  apply bind_returned in H as ([] & w1 & Hrate & H). injection Hrate as <-.
  apply bind_returned in H as (w0 & w1 & [= <- <-] & H).
  apply bind_returned in H as (cfg & w1 & Hcfg & H).
  apply from_option_returned in Hcfg as [Hcfg <-]. simpl in Hcfg.
  apply bind_returned in H as (D & w1 & HD & H).
  apply with_random_result_returned in HD as (r1 & HD & ->).
  apply navigable_small_world_graph_nodes in HD.
  apply bind_returned in H as ([] & w1 & Hcheck & H).
  destruct (decide (ceil_sqrt (sum_list ags.*2) ^ 2 < sum_list ags.*2)); [done|].
  apply ret_returned in Hcheck as [_ <-].
  apply bind_returned in H as (extra & w1 & Hextra & H).
  apply with_random_result_returned in Hextra as (r2 & Hextra & ->).
  apply bind_returned in H as ([] & w1 & Hset & H). injection Hset as <-.
  apply bind_returned in H as ([] & w1 & Hweights & H).
  unfold _set_generic_weights in Hweights.
  apply bind_returned in Hweights as (G0 & w2 & HG0 & Hweights).
  apply the_graph_returned in HG0 as [HG0 <-]. simpl in HG0. injection HG0 as <-.
  apply bind_returned in Hweights as (w0 & w2 & [= <- <-] & Hweights).
  injection Hweights as <-.
  apply bind_returned in H as ([] & w1 & Hages & H).
  unfold _set_ages in Hages.
  apply bind_returned in Hages as (shuffled & w2 & Hshuffle & Hages).
  apply with_random_returned in Hshuffle as (r3 & Hshuffle & ->).
  apply bind_returned in Hages as (G1 & w2 & HG1 & Hages).
  apply the_graph_returned in HG1 as [HG1 <-]. simpl in HG1. injection HG1 as <-.
  injection Hages as <-.
  unfold _set_close_nodes_arr in H.
  apply bind_returned in H as (w0 & w1 & [= <- <-] & H).
  apply bind_returned in H as (cfg' & w1 & Hcfg' & H).
  apply from_option_returned in Hcfg' as [Hcfg' <-]. simpl in Hcfg'.
  rewrite Hcfg in Hcfg'. injection Hcfg' as <-.
  apply bind_returned in H as (G2 & w1 & HG2 & H).
  apply the_graph_returned in HG2 as [HG2 <-]. simpl in HG2. injection HG2 as <-.
  apply bind_returned in H as (arr & w1 & Harr & H).
  apply lift_result_returned in Harr as [Harr <-].
  injection H as <-.
  exists cfg, D, extra. eexists. exists r2. eexists. exists arr.
  split; [done|]. split; [done|]. split; [exact Hextra|].
  split; [exact Harr|]. split; [|done].
  unfold with_close_nodes_arr, with_nx, with_infection_rate. cbn. by rewrite Hcfg.
Qed.

Lemma created_nodes D extra r r' N :
  dnodes D = grid_points (ceil_sqrt N) →
  random_sample (dnodes D) (ceil_sqrt N ^ 2 - N) r = Ok (extra, r') →
  length (dnodes (remove_nodes_from D extra)) = N.
Proof.
  intros HD Hextra. unfold remove_nodes_from. cbn [dnodes].
  assert (NoDup (dnodes D)) as Hnd by (rewrite HD; apply NoDup_grid_points).
  rewrite (random_sample_removed (dnodes D) _ r extra r' Hnd Hextra).
  rewrite HD, length_grid_points. pose proof (ceil_sqrt_covers N). simpl in *. lia.
Qed.

Lemma bind_runs {A B} (m : M A) (f : A → M B) w a w1 :
  m w = Returned a w1 → (m ≫= f) w = f a w1.
Proof. unfold mbind, M_bind. by intros ->. Qed.

Lemma with_random_runs {A} (f : Rng → A * Rng) w :
  with_random f w = Returned (f (rng w)).1 (with_rng (f (rng w)).2 w).
Proof. unfold with_random. by destruct (f (rng w)). Qed.

Lemma navigable_small_world_graph_ok n p q r g :
  1 ≤ p → (r <? 0)%float = false →
  ∃ D g', navigable_small_world_graph n p q r g = Ok (D, g') ∧ dnodes D = grid_points n.
Proof.
  intros Hp Hr. unfold navigable_small_world_graph.
  rewrite decide_False by lia. rewrite Hr.
  destruct (all_links _ _ _ _ _) as [links g']. eauto.
Qed.

Lemma constructed_has_locations D rate ages i :
  i < length (dnodes D) → ∃ li, location_of (constructed_graph D rate ages) i = Ok li.
Proof.
  intros Hi. destruct (lookup_lt_is_Some_2 _ _ Hi) as [pt Hpt].
  eexists. by apply constructed_location.
Qed.

(** [Graph.create_graph] returns whenever the configuration is one that
    networkx accepts. *)
Lemma Graph_create_graph_returns ags rate w cfg :
  graph_config (sim_graph w) = Some cfg →
  1 ≤ short_connection_diameter cfg → (decay cfg <? 0)%float = false →
  ∃ w', Graph_create_graph ags rate w = Returned tt w'.
Proof.
  intros Hcfg Hp Hr. unfold Graph_create_graph.
  erewrite bind_runs by reflexivity. erewrite bind_runs by reflexivity.
  erewrite bind_runs by (simpl; rewrite Hcfg; reflexivity).
  unfold _set_navigable_small_world_graph.
  set (N := sum_list ags.*2).
  match goal with |- context [with_random_result (navigable_small_world_graph ?n ?p ?q ?r)] =>
    destruct (navigable_small_world_graph_ok n p q r
                (rng (with_graph (with_infection_rate rate (sim_graph w)) w)) Hp Hr)
      as (D & g' & HD & Hgrid) end.
  erewrite bind_runs by (apply with_random_result_returned; eauto).
  pose proof (ceil_sqrt_covers N) as Hcover.
  rewrite decide_False by lia. erewrite bind_runs by reflexivity.
  destruct (random_sample (dnodes D) (ceil_sqrt N ^ 2 - N) g') as [[extra r']|e] eqn:Hextra.
  2:{ unfold random_sample in Hextra. rewrite decide_True in Hextra; [done|].
      rewrite Hgrid, length_grid_points. simpl. lia. }
  erewrite bind_runs by (apply with_random_result_returned; eauto).
  erewrite bind_runs by reflexivity. erewrite bind_runs by reflexivity.
  erewrite bind_runs
    by (unfold _set_ages; erewrite bind_runs by apply with_random_runs; reflexivity).
  unfold _set_close_nodes_arr. erewrite bind_runs by reflexivity.
  erewrite bind_runs by (simpl; rewrite Hcfg; reflexivity).
  erewrite bind_runs by reflexivity.
  match goal with |- context [close_nodes_of ?G ?thr] =>
    destruct (close_nodes_of_ok G thr N) as (arr & Harr & _) end.
  { change (set_node_age_groups (set_edge_weights (remove_selfloops
              (convert_node_labels_to_integers ?D')) ?rate') ?ages)
      with (constructed_graph D' rate' ages).
    rewrite constructed_nodes. f_equal. by eapply created_nodes. }
  { intros i Hi.
    change (set_node_age_groups (set_edge_weights (remove_selfloops
              (convert_node_labels_to_integers ?D')) ?rate') ?ages)
      with (constructed_graph D' rate' ages).
    apply constructed_has_locations. by erewrite created_nodes. }
  erewrite bind_runs by (apply lift_result_returned; eauto). eauto.
Qed.



Lemma create_graph_returned w w' :
  create_graph w = Returned tt w' →
  ∃ ags r, age_structure (sim_params w) = Some ags ∧
           generic_infection (sim_params w) = Some r ∧
           Graph_create_graph ags (Some r) w = Returned tt w'.
Proof.
  unfold create_graph. intros H.
  apply bind_returned in H as (w0 & w1 & [= <- <-] & H).
  destruct (population_size (sim_params w)); [|done].
  destruct (generic_infection (sim_params w)) as [r|]; [|done]. simpl in H.
  apply bind_returned in H as (ags & w1 & Hags & H).
  apply from_option_returned in Hags as [Hags <-]. eauto.
Qed.

Lemma uniform_weights_add_edge rate g G u v :
  uniform_weights rate g → graph g = Some G → has_edge G u v = false →
  uniform_weights rate (with_nx (add_edge G u v (interaction_data (infection_rate g))) g).
Proof.
  intros [Hrate Hall] HG _. split; [done|]. intros G' k d [= <-].
  unfold add_edge. cbn [edges]. rewrite !add_node_edges.
  destruct (decide (edge_key u v = k)) as [<-|Hne].
  - rewrite lookup_insert_eq. by intros [= <-].
  - rewrite lookup_insert_ne by done. by apply Hall.
Qed.

Lemma uniform_weights_remove_edge rate g G u v :
  uniform_weights rate g → graph g = Some G →
  uniform_weights rate (with_nx (remove_edge G u v) g).
Proof.
  intros [Hrate Hall] HG. split; [done|]. intros G' k d [= <-].
  unfold remove_edge. cbn [edges]. intros Hd%lookup_delete_Some. destruct Hd as [_ Hd].
  by eapply Hall.
Qed.

Lemma uniform_weights_node_data rate g G nd :
  uniform_weights rate g → graph g = Some G →
  uniform_weights rate (with_nx {| nodes := nodes G; node_data := nd; edges := edges G |} g).
Proof.
  intros [Hrate Hall] HG. split; [done|]. intros G' k d [= <-]. cbn [edges]. by apply Hall.
Qed.

(** C10: when [create_graph] has built the graph, every edge carries the
    configured generic infection rate as its weight; every method of a run,
    whether it returns or raises, leaves a graph whose edges all carry that
    weight, the interaction edges it added included. *)
Theorem edge_weights_invariant :
  (∀ w w', create_graph w = Returned tt w' →
           ∃ r, generic_infection (sim_params w') = Some r ∧ weights_are (Some r) w') ∧
  ∀ rate,
    preserves (weights_are rate) basic_simulation ∧
    (∀ t, preserves (weights_are rate) (timestep t)) ∧
    (∀ node, preserves (weights_are rate) (_add_interactions node)) ∧
    (∀ pair, preserves (weights_are rate) (_add_new_interaction_edge pair)) ∧
    (∀ node, preserves (weights_are rate) (_do_progression node)) ∧
    (∀ node, preserves (weights_are rate) (_do_infection node)) ∧
    preserves (weights_are rate) _remove_interactions.
Proof.
  split.
  - intros w w' Hrun. apply create_graph_returned in Hrun as (ags & r & _ & Hr & Hrun).
    destruct (Graph_create_graph_returned ags (Some r) w w' _ eq_refl Hrun)
      as (cfg & D & extra & r1 & r2 & ages & arr & _ & _ & _ & _ & Hg & Hp & _).
    exists r. rewrite Hp. split; [done|]. unfold weights_are. rewrite Hg.
    split; [done|]. intros G k d [= <-] Hd. by apply constructed_edges in Hd as [-> _].
  - intros rate.
    pose proof (uniform_weights_add_edge rate) as Ha.
    pose proof (uniform_weights_remove_edge rate) as Hr.
    pose proof (uniform_weights_node_data rate) as Hn.
    split; [by apply (basic_simulation_preserves (uniform_weights rate))|].
    split; [intros t; by apply (timestep_preserves (uniform_weights rate))|].
    split; [intros n; by apply (_add_interactions_preserves (uniform_weights rate))|].
    split; [intros p; by apply (_add_new_interaction_edge_preserves (uniform_weights rate))|].
    split; [intros n; by apply (_do_progression_preserves (uniform_weights rate))|].
    split; [intros n; by apply (_do_infection_preserves (uniform_weights rate))|].
    by apply (remove_group_interaction_edges_preserves (uniform_weights rate)).
Qed.

(** ** A worked example: the five-node graph of the unit tests *)

Lemma nx_wf_check G :
  bool_decide (NoDup (nodes G) ∧ map_Forall (λ k _, k.1 ≤ k.2) (edges G)) = true → nx_wf G.
Proof.
  intros [Hnd Hkeys]%bool_decide_eq_true. split; [done|].
  intros u v d Hd. apply (Hkeys (u, v) d Hd).
Qed.

Lemma no_interaction_edges_check G :
  bool_decide (map_Forall (λ _ d, interaction_edge d = false) (edges G)) = true →
  no_interaction_edges G.
Proof. intros H%bool_decide_eq_true k d Hd. apply (H k d Hd). Qed.

Lemma valid_targets_check p table :
  state_transitions p = Some table →
  bool_decide (map_Forall (λ _ (distrib : Distrib), Forall (λ v, v ∈ STATES) distrib.*1)
                 table) = true →
  valid_targets p.
Proof.
  intros Hp H%bool_decide_eq_true table' s distrib v Htable Hs Hv.
  rewrite Hp in Htable. injection Htable as <-.
  specialize (H s distrib Hs). rewrite Forall_forall in H. by apply H.
Qed.

Lemma timeline_within_check (w : World) t (row : gmap nat string) (l : list nat) :
  states_dict w !! t = Some row →
  bool_decide (map_Forall (λ n _, n ∈ l) row) = true →
  ∀ n, is_Some (state_at w t n) → n ∈ l.
Proof.
  intros Hrow H%bool_decide_eq_true n [s Hs]. unfold state_at in Hs. rewrite Hrow in Hs.
  apply (H n s Hs).
Qed.

Lemma example_nx_wf : nx_wf example_nx.
Proof. apply nx_wf_check. vm_compute. reflexivity. Qed.

Lemma example_valid_targets bs : valid_targets (example_params bs).
Proof. by apply (valid_targets_check _ example_transitions). Qed.

Lemma example_run_returns :
  basic_simulation example_world = Returned tt (final_world (basic_simulation example_world)).
Proof. vm_compute. reflexivity. Qed.

Lemma example_timestep_returns :
  timestep 0 example_seeded = Returned tt (final_world (timestep 0 example_seeded)).
Proof. vm_compute. reflexivity. Qed.

(** C1 fails as stated: in the run of the example the series of I holds the
    count of timestep 1 (none: node 3 has moved on to H), not the count of
    timestep 0 (node 3), and has no entry for timestep 7 (node 1). *)
Lemma get_results_skips_step_0 :
  let o := (basic_simulation ≫= λ _, get_results) example_world in
  ∃ results, returned o = Some results ∧
             results !! "I" = Some [0%Z] ∧
             sampled_series 0 7 (final_world o) "I" = [1%Z; 1%Z].
Proof. eexists. split; [vm_compute; reflexivity|]. split; vm_compute; reflexivity. Qed.

(** C3 fails as stated: in the first timestep of the seeded example node 2,
    susceptible at timestep 0, is assigned at timestep 1 by the progression
    pass (S) and then by the infection pass (E). *)
Lemma progression_and_infection_overlap :
  let w' := final_world (timestep 0 example_seeded) in
  timestep 0 example_seeded = Returned tt w' ∧
  state_at example_seeded 0 2 = Some "S" ∧
  2 ∈ written_by InDoProgression 1 (trace w') ∧
  2 ∈ written_by InInfectNeighbours 1 (trace w').
Proof.
  split; [vm_compute; reflexivity|]. split; [vm_compute; reflexivity|].
  split; apply list_elem_of_In; vm_compute; tauto.
Qed.

Lemma get_results_samples_from_step_1_witness :
  time_horizon (sim_graph example_final) = Some 7 ∧
  (∀ t, t ≤ 7 → is_Some (states_dict example_final !! t)) ∧
  ∃ results, get_results example_final = Returned results example_final ∧
    ∀ state, state ∈ STATES → results !! state = Some (sampled_series 1 7 example_final state).
Proof.
  assert (time_horizon (sim_graph example_final) = Some 7) as H1 by (vm_compute; reflexivity).
  assert (∀ t, t ≤ 7 → is_Some (states_dict example_final !! t)) as H2.
  { intros t Ht. do 8 (destruct t as [|t]; [vm_compute; eauto|]). lia. }
  split; [exact H1|]. split; [exact H2|].
  exact (get_results_samples_from_step_1 example_final 7 H1 H2).
Defined.

Lemma load_graph_from_file_validates_witness :
  files example_saved !! "graph.pkl" = Some (example_graph 7) ∧
  (same_configuration (example_graph 7) example_saved →
     load_graph_from_file "graph.pkl" example_saved
     = Returned tt (with_graph (example_graph 7) example_saved)) ∧
  (¬ same_configuration (example_graph 7) example_saved →
     ∃ e, load_graph_from_file "graph.pkl" example_saved = Raised e example_saved).
Proof.
  assert (files example_saved !! "graph.pkl" = Some (example_graph 7)) as H1
    by (vm_compute; reflexivity).
  split; [exact H1|].
  exact (load_graph_from_file_validates "graph.pkl" (example_graph 7) example_saved H1).
Defined.

Lemma timestep_restores_lattice_witness :
  graph (sim_graph example_seeded) = Some example_nx ∧
  nx_wf example_nx ∧ no_interaction_edges example_nx ∧
  timestep 0 example_seeded = Returned tt example_after ∧
  ∃ G', graph (sim_graph example_after) = Some G' ∧ edges G' = edges example_nx ∧
        no_interaction_edges G' ∧ nx_wf G'.
Proof.
  assert (graph (sim_graph example_seeded) = Some example_nx) as H1 by reflexivity.
  assert (nx_wf example_nx) as H2 by (apply nx_wf_check; vm_compute; reflexivity).
  assert (no_interaction_edges example_nx) as H3
    by (apply no_interaction_edges_check; vm_compute; reflexivity).
  assert (timestep 0 example_seeded = Returned tt example_after) as H4
    by (vm_compute; reflexivity).
  split; [exact H1|]. split; [exact H2|]. split; [exact H3|]. split; [exact H4|].
  exact (timestep_restores_lattice 0 example_seeded example_after example_nx H1 H2 H3 H4).
Defined.

Lemma timestep_transitions_witness :
  graph (sim_graph example_seeded) = Some example_nx ∧
  states_dict example_seeded !! (0 + 1) = Some ∅ ∧
  timestep 0 example_seeded = Returned tt example_after ∧
  ∃ G1 progressed draws,
    nx_extends (infection_rate (sim_graph example_seeded)) example_nx G1 ∧
    trace example_after = trace example_seeded ++ progressed ++ draws ∧
    (∀ site t' u v, Assign site t' u v ∈ progressed →
       site = InDoProgression ∧ (state_at example_seeded 0 u = Some "S" → v = "S")) ∧
    Forall (infection_event example_seeded 0 G1) draws ∧
    (∀ v u, v ∈ nodes G1 → infectious example_seeded 0 v → u ∈ neighbors G1 v →
            state_at example_seeded 0 u = Some "S" → ∃ luck prob, Draw v u luck prob ∈ draws) ∧
    ∀ u, u ∈ nodes example_nx →
      (∀ s, state_at example_seeded 0 u = Some s → s = "D" ∨ s = "R" →
            state_at example_after (0 + 1) u = Some s) ∧
      (state_at example_seeded 0 u = Some "S" →
         (state_at example_after (0 + 1) u = Some "S" ∨
          state_at example_after (0 + 1) u = Some "E") ∧
         (state_at example_after (0 + 1) u = Some "E" ↔
          ∃ v luck prob, Draw v u luck prob ∈ draws ∧ (luck <=? prob)%float = true)).
Proof.
  assert (graph (sim_graph example_seeded) = Some example_nx) as H1 by reflexivity.
  assert (states_dict example_seeded !! (0 + 1) = Some ∅) as H2 by (vm_compute; reflexivity).
  assert (timestep 0 example_seeded = Returned tt example_after) as H3
    by (vm_compute; reflexivity).
  split; [exact H1|]. split; [exact H2|]. split; [exact H3|].
  exact (timestep_transitions 0 example_seeded example_after example_nx ∅ H1 H2 H3).
Defined.

Lemma timestep_writes_witness :
  graph (sim_graph example_seeded) = Some example_nx ∧ nx_wf example_nx ∧
  states_dict example_seeded !! (0 + 1) = Some ∅ ∧
  (∀ n, is_Some (state_at example_seeded 0 n) → n ∈ nodes example_nx) ∧
  timestep 0 example_seeded = Returned tt example_after ∧
  ∃ evs,
    trace example_after = trace example_seeded ++ evs ∧
    written_by InDoProgression (0 + 1) evs = nodes example_nx ∧
    (∀ u, u ∈ written_by InInfectNeighbours (0 + 1) evs →
          u ∈ nodes example_nx ∧ state_at example_seeded 0 u = Some "S") ∧
    (∀ site t' u v, Assign site t' u v ∈ evs →
       t' = 0 + 1 ∧ (site = InDoProgression ∨ site = InInfectNeighbours ∧ v = "E")) ∧
    ∀ u, u ∈ nodes example_nx → is_Some (state_at example_after (0 + 1) u).
Proof.
  assert (graph (sim_graph example_seeded) = Some example_nx) as H1 by reflexivity.
  assert (nx_wf example_nx) as H2 by (apply nx_wf_check; vm_compute; reflexivity).
  assert (states_dict example_seeded !! (0 + 1) = Some ∅) as H3 by (vm_compute; reflexivity).
  assert (∀ n, is_Some (state_at example_seeded 0 n) → n ∈ nodes example_nx) as H4.
  { eapply timeline_within_check; vm_compute; reflexivity. }
  assert (timestep 0 example_seeded = Returned tt example_after) as H5
    by (vm_compute; reflexivity).
  split; [exact H1|]. split; [exact H2|]. split; [exact H3|]. split; [exact H4|].
  split; [exact H5|].
  exact (timestep_writes 0 example_seeded example_after example_nx ∅ H1 H2 H3 H4 H5).
Defined.

Lemma basic_simulation_timeline_witness :
  graph (sim_graph example_world) = Some example_nx ∧ nx_wf example_nx ∧
  time_horizon (sim_graph example_world) = Some 7 ∧
  valid_targets (sim_params example_world) ∧
  basic_simulation example_world = Returned tt example_final ∧
  (∃ G', graph (sim_graph example_final) = Some G' ∧ nodes G' = nodes example_nx) ∧
  ∀ t, t ≤ 7 →
    ∃ row, states_dict example_final !! t = Some row ∧
           (∀ n, n ∈ nodes example_nx → ∃ s, row !! n = Some s ∧ s ∈ STATES) ∧
           (∀ n, is_Some (row !! n) → n ∈ nodes example_nx) ∧
           foldr Z.add 0%Z (compartment_counts row) = Z.of_nat (length (nodes example_nx)).
Proof.
  assert (graph (sim_graph example_world) = Some example_nx) as H1 by reflexivity.
  assert (nx_wf example_nx) as H2 by (apply nx_wf_check; vm_compute; reflexivity).
  assert (time_horizon (sim_graph example_world) = Some 7) as H3 by reflexivity.
  assert (valid_targets (sim_params example_world)) as H4.
  { apply (valid_targets_check _ example_transitions); vm_compute; reflexivity. }
  assert (basic_simulation example_world = Returned tt example_final) as H5
    by (vm_compute; reflexivity).
  split; [exact H1|]. split; [exact H2|]. split; [exact H3|]. split; [exact H4|].
  split; [exact H5|].
  exact (basic_simulation_timeline example_world example_final example_nx 7 H1 H2 H3 H4 H5).
Defined.



(** ** The averaged series of [run_multiple] *)

Lemma map_result_ext {A B} (f g : A → result B) (l : list A) :
  (∀ x, x ∈ l → f x = g x) → map_result f l = map_result g l.
Proof.
  induction l as [|x l IH]; intros Heq; [done|]. cbn [map_result].
  rewrite (Heq x) by left. rewrite IH; [done|]. intros y Hy. apply Heq. by right.
Qed.

Lemma map_result_cons_ok {A B} (f : A → result B) x l vals :
  map_result f (x :: l) = Ok vals ↔
  ∃ v vs, f x = Ok v ∧ map_result f l = Ok vs ∧ vals = v :: vs.
Proof.
  cbn [map_result]. destruct (f x) as [v|e]; simpl.
  - destruct (map_result f l) as [vs|e]; simpl.
    + split; [intros [= <-]; eauto|]. by intros (v' & vs' & [= <-] & [= <-] & ->).
    + split; [done|]. by intros (v' & vs' & _ & ? & _).
  - split; [done|]. by intros (v' & vs' & ? & _).
Qed.

(** Adding [delta] to the value of [b], which occurs once in [l], adds
    [delta] to the total. *)
Lemma map_result_add (l : list string) (f f' : string → result Z) b delta vals :
  NoDup l →
  map_result f l = Ok vals →
  (∀ s v, f s = Ok v → f' s = Ok (if decide (s = b) then v + delta else v)%Z) →
  ∃ vals', map_result f' l = Ok vals' ∧
           foldr Z.add 0%Z vals'
           = (foldr Z.add 0%Z vals + if decide (b ∈ l) then delta else 0)%Z.
Proof.
  intros Hnd Hvals Hf'. revert vals Hvals.
  induction l as [|x l IH]; intros vals Hvals.
  - injection Hvals as <-. exists []. split; [done|].
    destruct (decide (b ∈ [])) as [Hin|_]; [by apply elem_of_nil in Hin|done].
  - apply NoDup_cons in Hnd as [Hx Hnd].
    apply map_result_cons_ok in Hvals as (v & vs & Hv & Hvs & ->).
    destruct (IH Hnd vs Hvs) as (vs' & Hvs' & Hsum).
    eexists. split.
    + apply map_result_cons_ok. eexists _, vs'. split; [by apply Hf'|]. split; done.
    + cbn [foldr]. rewrite Hsum. destruct (decide (x = b)) as [->|Hne].
      * rewrite (decide_False (P := b ∈ l)) by done.
        rewrite (decide_True (P := b ∈ b :: l)) by left. lia.
      * destruct (decide (b ∈ l)) as [Hin|Hin].
        -- rewrite (decide_True (P := b ∈ x :: l)) by (by right). lia.
        -- rewrite (decide_False (P := b ∈ x :: l)); [lia|].
           by intros [?|?]%elem_of_cons.
Qed.

Lemma max_by_value_in (items : list (string * Z)) best :
  max_by_value items best ∈ best :: items.
Proof.
  revert best. induction items as [|kv items IH]; intros best; cbn [max_by_value]; [left|].
  destruct (decide (best.2 < kv.2)%Z).
  - right. apply IH.
  - pose proof (IH best) as Hb. apply elem_of_cons in Hb as [->|Hin]; [left|by do 2 right].
Qed.

Lemma py_max_in (items : list (string * Z)) b : py_max items = Ok b → b ∈ items.*1.
Proof.
  destruct items as [|kv items]; [done|]. intros [= <-].
  apply list_elem_of_fmap. eexists. split; [done|]. apply max_by_value_in.
Qed.

Lemma zip_keys {A B} (l : list A) (k : list B) : ∀ x, x ∈ (zip l k).*1 → x ∈ l.
Proof.
  intros x Hx. apply list_elem_of_fmap in Hx as ([a b] & -> & Hin).
  by apply elem_of_zip_l in Hin.
Qed.

Lemma averaged_at_alter averaged b k delta k' s :
  averaged_at (alter (λ l, alter (λ x, x + delta)%Z k l) b averaged) k' s
  = match averaged_at averaged k' s with
    | Ok v => Ok (if decide (s = b ∧ k' = k) then v + delta else v)%Z
    | Raise e => Raise e
    end.
Proof.
  unfold averaged_at. destruct (decide (s = b)) as [->|Hne].
  - rewrite lookup_alter_eq. destruct (averaged !! b) as [l|]; [simpl|done].
    destruct (decide (k' = k)) as [->|Hnek].
    + rewrite list_lookup_alter_eq. destruct (l !! k); [simpl|done].
      by rewrite decide_True.
    + rewrite list_lookup_alter_ne by done. destruct (l !! k'); [|done].
      by rewrite decide_False by (intros [_ ?]; done).
  - rewrite lookup_alter_ne by done. destruct (averaged !! s) as [l|]; [|done].
    destruct (l !! k'); [|done]. by rewrite decide_False by (intros [? _]; done).
Qed.

(** One iteration of the repair loop makes step [k] add up to the
    population size and leaves the other steps as they are. *)
Lemma repair_conserves pop averaged k averaged' :
  repair (Some pop) averaged k = Ok averaged' →
  (∃ vals, step_counts averaged' k = Ok vals ∧ foldr Z.add 0%Z vals = Z.of_nat pop) ∧
  ∀ k', k' ≠ k → step_counts averaged' k' = step_counts averaged k'.
Proof.
  unfold repair, step_counts, mbind, result_bind.
  destruct (map_result (averaged_at averaged k) STATES) as [values|e] eqn:Hvalues; [|done].
  destruct (decide (Some (foldr Z.add 0%Z values) ≠ Z.of_nat <$> Some pop)) as [Hne|Heq].
  - destruct (py_max (zip STATES values)) as [b|e] eqn:Hmax; [|done].
    intros [= <-]. apply py_max_in, zip_keys in Hmax. split.
    + destruct (map_result_add STATES (averaged_at averaged k)
                  (averaged_at (alter (λ l, alter
                     (λ x, x + (Z.of_nat pop - foldr Z.add 0 values))%Z k l) b averaged) k)
                  b (Z.of_nat pop - foldr Z.add 0 values)%Z values)
        as (vals' & Hvals' & Hsum); [apply NoDup_STATES|done| |].
      * intros s v Hv. rewrite averaged_at_alter, Hv. f_equal.
        destruct (decide (s = b)); [by rewrite decide_True|].
        by rewrite decide_False by (intros [? _]; done).
      * exists vals'. split; [done|]. rewrite Hsum, decide_True by done. lia.
    + intros k' Hk'. apply map_result_ext. intros s _. rewrite averaged_at_alter.
      destruct (averaged_at averaged k' s); [|done].
      by rewrite decide_False by (intros [_ ?]; done).
  - intros [= <-]. apply dec_stable in Heq. simpl in Heq. injection Heq as Heq.
    split; [eauto|done].
Qed.

Lemma fold_result_app {A B} (body : B → A → result B) (l1 l2 : list A) acc :
  fold_result body (l1 ++ l2) acc = fold_result body l1 acc ≫= fold_result body l2.
Proof.
  revert acc. induction l1 as [|x l1 IH]; intros acc; [done|]. cbn [app fold_result].
  destruct (body acc x) as [acc'|e]; [apply IH|done].
Qed.

(** The repair loop over the steps [0 .. n-1]. *)
Lemma repair_loop_conserves pop n averaged averaged' :
  fold_result (repair (Some pop)) (seq 0 n) averaged = Ok averaged' →
  (∀ k, k < n →
        ∃ vals, step_counts averaged' k = Ok vals ∧ foldr Z.add 0%Z vals = Z.of_nat pop) ∧
  ∀ k, n ≤ k → step_counts averaged' k = step_counts averaged k.
Proof.
  revert averaged'. induction n as [|n IH]; intros averaged'.
  - intros [= <-]. split; [intros k Hk; lia|done].
  - rewrite seq_S, fold_result_app. cbn [plus].
    destruct (fold_result (repair (Some pop)) (seq 0 n) averaged) as [mid|e] eqn:Hmid; [|done].
    simpl. destruct (repair (Some pop) mid n) as [last|e] eqn:Hlast; [|done].
    intros [= <-]. destruct (IH mid eq_refl) as [Hdone Hrest].
    apply repair_conserves in Hlast as [Hn Hother]. split.
    + intros k Hk. destruct (decide (k = n)) as [->|Hne]; [done|].
      rewrite Hother by done. apply Hdone. lia.
    + intros k Hk. rewrite Hother by lia. apply Hrest. lia.
Qed.

(** What [run_multiple] guarantees: the first [T // 7] steps of the series
    add up to the population size. *)
Lemma run_multiple_repairs_first_steps n w series w' T pop :
  run_multiple n w = Returned series w' →
  time_horizon (sim_graph w') = Some T →
  population_size (sim_params w') = Some pop →
  ∀ k, k < T / 7 →
       ∃ vals, step_counts series k = Ok vals ∧ foldr Z.add 0%Z vals = Z.of_nat pop.
Proof.
  unfold run_multiple. intros H HT Hpop.
  apply bind_returned in H as (all_results & w1 & _ & H).
  apply bind_returned in H as (averaged & w2 & Haveraged & H).
  apply lift_result_returned in Haveraged as [_ <-].
  apply bind_returned in H as (w0 & w2 & [= <- <-] & H).
  apply bind_returned in H as (T' & w2 & HT' & H).
  apply from_option_returned in HT' as [HT' <-].
  apply lift_result_returned in H as [H <-].
  rewrite HT in HT'. injection HT' as <-. rewrite Hpop in H.
  by apply repair_loop_conserves in H as [Hdone _].
Qed.

(** C2, at the failing input: with a time horizon of 8 the series has two
    reporting steps (timesteps 1 and 8).  Two runs on 3 people end with S = 2,
    R = 1 and with S = 1, R = 2; both means are 1.5 and round to 2, and the
    repair loop, which covers [8 // 7 = 1] step, does not reach the second one:
    its counts add up to 4. *)
Theorem run_multiple_last_step_unrepaired :
  let o := (create_graph ≫= λ _, run_multiple 2) bug_world in
  ∃ series,
    returned o = Some series ∧
    population_size (sim_params (final_world o)) = Some 3 ∧
    step_counts series 0 = Ok [2; 0; 0; 0; 0; 0; 1]%Z ∧
    step_counts series 1 = Ok [2; 0; 0; 0; 0; 0; 2]%Z.
Proof.
  eexists. split; [vm_compute; reflexivity|]. split; [vm_compute; reflexivity|].
  split; vm_compute; reflexivity.
Qed.

(** ** Averaging over several runs *)

(** [max(d, key=d.get)] returns the first of the keys with the largest
    value. *)
Lemma max_by_value_first (items : list (string * Z)) (best : string * Z) :
  let r := max_by_value items best in
  (r = best ∧ ∀ kv, kv ∈ items → (kv.2 ≤ best.2)%Z) ∨
  (∃ i, items !! i = Some r ∧ (best.2 < r.2)%Z ∧
        ∀ j kv, items !! j = Some kv → (kv.2 ≤ r.2)%Z ∧ (j < i → (kv.2 < r.2)%Z)).
Proof.
  revert best. induction items as [|kv items IH]; intros best; cbn [max_by_value].
  - left. split; [done|]. by intros kv ?%elem_of_nil.
  - destruct (decide (best.2 < kv.2)%Z) as [Hlt|Hge].
    + right. destruct (IH kv) as [[Hr Hall]|(i & Hi & Hbest & Hall)].
      * exists 0. rewrite Hr. split; [done|]. split; [done|].
        intros [|j] kv' Hj; cbn in Hj.
        -- injection Hj as <-. split; [lia|lia].
        -- split; [|lia]. apply Hall. by eapply list_elem_of_lookup_2.
      * exists (S i). split; [done|]. split; [lia|].
        intros [|j] kv' Hj; cbn in Hj.
        -- injection Hj as <-. split; [lia|]. intros _. lia.
        -- destruct (Hall j kv' Hj) as [Hle Hlt']. split; [done|]. intros ?. apply Hlt'. lia.
    + destruct (IH best) as [[Hr Hall]|(i & Hi & Hbest & Hall)].
      * left. split; [done|]. intros kv' [->|Hin]%elem_of_cons; [lia|by apply Hall].
      * right. exists (S i). split; [done|]. split; [done|].
        intros [|j] kv' Hj; cbn in Hj.
        -- injection Hj as <-. split; [lia|]. intros _. lia.
        -- destruct (Hall j kv' Hj) as [Hle Hlt']. split; [done|]. intros ?. apply Hlt'. lia.
Qed.

Lemma py_max_first (items : list (string * Z)) b :
  py_max items = Ok b →
  ∃ i v, items !! i = Some (b, v) ∧
         ∀ j kv, items !! j = Some kv → (kv.2 ≤ v)%Z ∧ (j < i → (kv.2 < v)%Z).
Proof.
  destruct items as [|best items]; [done|]. intros [= <-].
  destruct (max_by_value_first items best) as [[Hr Hall]|(i & Hi & Hbest & Hall)].
  - exists 0, best.2. rewrite Hr. split; [by destruct best|].
    intros [|j] kv Hj; cbn in Hj.
    + injection Hj as <-. split; [lia|lia].
    + split; [|lia]. apply Hall. by eapply list_elem_of_lookup_2.
  - exists (S i), (max_by_value items best).2. split; [by destruct (max_by_value items best)|].
    intros [|j] kv Hj; cbn in Hj.
    + injection Hj as <-. split; [lia|]. intros _. lia.
    + destruct (Hall j kv Hj) as [Hle Hlt]. split; [done|]. intros ?. apply Hlt. lia.
Qed.

Lemma map_result_length {A B} (f : A → result B) (l : list A) vals :
  map_result f l = Ok vals → length vals = length l.
Proof.
  revert vals. induction l as [|x l IH]; intros vals; cbn [map_result].
  - by intros [= <-].
  - unfold mbind, result_bind. destruct (f x); [|done].
    destruct (map_result f l) as [vs|]; [|done]. intros [= <-]. cbn. f_equal. by apply IH.
Qed.

(** When the counts of a step do not add up to the population size, the
    repair adds the difference to one compartment and touches nothing else:
    the compartment with the largest count, and among several of them the
    first one in the order S, E, A, I, H, D, R. *)
Theorem repair_adjusts_first_biggest (pop : nat) (averaged : gmap string (list Z))
    (k : nat) (vals : list Z) :
  step_counts averaged k = Ok vals →
  foldr Z.add 0%Z vals ≠ Z.of_nat pop →
  ∃ i b v,
    STATES !! i = Some b ∧ vals !! i = Some v ∧
    (∀ j v', vals !! j = Some v' → (v' ≤ v)%Z ∧ (j < i → (v' < v)%Z)) ∧
    repair (Some pop) averaged k
    = Ok (alter (alter (λ x, x + (Z.of_nat pop - foldr Z.add 0 vals))%Z k) b averaged).
Proof.
  unfold step_counts, repair. intros Hvals Hne. rewrite Hvals. cbn [mbind result_bind].
  pose proof (map_result_length _ _ _ Hvals) as Hlen.
  rewrite decide_True by (cbn; congruence).
  destruct (py_max (zip STATES vals)) as [b|e] eqn:Hmax.
  - apply py_max_first in Hmax as (i & v & Hi & Hall).
    apply lookup_zip_with_Some in Hi as (b' & v' & [= <- <-] & Hb & Hv).
    exists i, b, v. split; [done|]. split; [done|]. split; [|done].
    intros j v' Hj. destruct (STATES !! j) as [s|] eqn:Hs.
    + apply (Hall j (s, v')). apply lookup_zip_with_Some. eauto.
    + apply lookup_ge_None in Hs. apply lookup_lt_Some in Hj. lia.
  - destruct vals; [done|]. done.
Qed.

Lemma repair_adjusts_first_biggest_witness :
  ∃ i b v,
    STATES !! i = Some b ∧ [2; 0; 0; 0; 0; 0; 2]%Z !! i = Some v ∧
    (∀ j v', [2; 0; 0; 0; 0; 0; 2]%Z !! j = Some v' → (v' ≤ v)%Z ∧ (j < i → (v' < v)%Z)) ∧
    repair (Some 3) (default ∅ (returned bug_averaged)) 1
    = Ok (alter (alter (λ x, x + (Z.of_nat 3 - foldr Z.add 0 [2; 0; 0; 0; 0; 0; 2]))%Z 1) b
            (default ∅ (returned bug_averaged))).
Proof.
  apply (repair_adjusts_first_biggest 3 (default ∅ (returned bug_averaged)) 1
           [2; 0; 0; 0; 0; 0; 2]%Z); [vm_compute; reflexivity|vm_compute; discriminate].
Defined.

(** Without a single run there is nothing to average: every series is empty,
    and the repair loop, which still runs over [time_horizon // 7] steps,
    raises IndexError at its first step.  Nothing is changed. *)
Theorem run_multiple_without_runs (w : World) (T : nat) :
  time_horizon (sim_graph w) = Some T →
  run_multiple 0 w
  = if decide (T < 7) then Returned (list_to_map ((λ state, (state, [])) <$> STATES)) w
    else Raised IndexError w.
Proof.
  intros HT. unfold run_multiple. cbn [repeat_run].
  unfold mbind at 1, M_bind at 1, mret at 1, M_ret at 1.
  unfold mbind at 1, M_bind at 1. unfold lift_result at 1.
  replace (average []) with
    (Ok (list_to_map ((λ state, (state, [])) <$> STATES) : gmap string (list Z)))
    by (vm_compute; reflexivity).
  unfold mbind at 1, M_bind at 1, get_world at 1.
  unfold mbind at 1, M_bind at 1. rewrite HT. cbn [from_option mret M_ret].
  destruct (decide (T < 7)) as [Hlt|Hge].
  - rewrite Nat.div_small by done. done.
  - destruct (T / 7) as [|n] eqn:Hdiv.
    + apply Nat.div_small_iff in Hdiv; lia.
    + cbn [seq fold_result]. unfold lift_result. 
      replace (repair _ _ 0) with (Raise (A := gmap string (list Z)) IndexError); [done|].
      unfold repair. by vm_compute.
Qed.

Lemma run_multiple_without_runs_witness :
  run_multiple 0 example_world
  = if decide (7 < 7) then Returned (list_to_map ((λ state, (state, [])) <$> STATES))
                             example_world
    else Raised IndexError example_world.
Proof. apply (run_multiple_without_runs example_world 7). reflexivity. Defined.

Lemma run_multiple_repairs_first_steps_witness :
  ∃ vals, step_counts (default ∅ (returned bug_averaged)) 0 = Ok vals ∧
          foldr Z.add 0%Z vals = Z.of_nat 3.
Proof.
  apply (run_multiple_repairs_first_steps 2 bug_built (default ∅ (returned bug_averaged))
           (final_world bug_averaged) 8 3);
    [vm_compute; reflexivity|reflexivity|reflexivity|vm_compute; lia].
Defined.

(** ** Creating, saving and loading the graph *)

(** [create_graph] refuses to build a graph before the community and the
    infection data have been set: it raises an exception that names what is
    missing and changes nothing.  With both in place (and an age structure)
    it builds the graph for every configuration that networkx accepts. *)
Theorem create_graph_checks_inputs (w : World) :
  (population_size (sim_params w) = None → generic_infection (sim_params w) = None →
   create_graph w
   = Raised (Exception "Cannot create the graph: the community has not been set, the infection data has not been set") w) ∧
  (population_size (sim_params w) = None → is_Some (generic_infection (sim_params w)) →
   create_graph w
   = Raised (Exception "Cannot create the graph: the community has not been set") w) ∧
  (is_Some (population_size (sim_params w)) → generic_infection (sim_params w) = None →
   create_graph w
   = Raised (Exception "Cannot create the graph: the infection data has not been set") w) ∧
  (is_Some (population_size (sim_params w)) → is_Some (generic_infection (sim_params w)) →
   ∀ ags cfg,
     age_structure (sim_params w) = Some ags →
     graph_config (sim_graph w) = Some cfg →
     1 ≤ short_connection_diameter cfg → (decay cfg <? 0)%float = false →
     ∃ w', create_graph w = Returned tt w' ∧
           infection_rate (sim_graph w') = generic_infection (sim_params w)).
Proof.
  assert (∀ w, create_graph w
             = (let msg :=
                  match population_size (sim_params w) with
                  | None => ["the community has not been set"]
                  | Some _ => []
                  end ++
                  match generic_infection (sim_params w) with
                  | None => ["the infection data has not been set"]
                  | Some _ => []
                  end in
                if decide (msg ≠ []) then
                  raise (Exception ("Cannot create the graph: " +:+ String.concat ", " msg))
                else
                  age_structure ← from_option AttributeError (age_structure (sim_params w));
                  Graph_create_graph age_structure (generic_infection (sim_params w))) w)
    as Hunfold by done.
  rewrite Hunfold. clear Hunfold. split; [|split; [|split]].
  - intros -> ->. reflexivity.
  - intros -> [r ->]. reflexivity.
  - intros [n ->] ->. reflexivity.
  - intros [n ->] [r ->] ags cfg Hags Hcfg Hp Hr. cbn [app].
    rewrite decide_False by (intros H; by apply H).
    rewrite Hags.
    destruct (Graph_create_graph_returns ags (Some r) w cfg Hcfg Hp Hr) as [w' Hrun].
    exists w'. split; [done|].
    destruct (Graph_create_graph_returned ags (Some r) w w' _ eq_refl Hrun)
      as (cfg' & D & extra & g & g' & ages & arr & _ & _ & _ & _ & Hg & _).
    by rewrite Hg.
Qed.




(** ** The timeline of a run *)

(** What [basic_simulation] does before its loop. *)
Lemma basic_simulation_seeded w w' :
  basic_simulation w = Returned tt w' →
  ∃ G k T infected r w3,
    graph (sim_graph w) = Some G ∧
    num_infected (sim_graph w) = Some k ∧
    time_horizon (sim_graph w) = Some T ∧
    random_sample (nodes G) k (rng w) = Ok (infected, r) ∧
    sim_graph w3 = sim_graph w ∧
    state_transitions (sim_params w3) = state_transitions (sim_params w) ∧
    population_size (sim_params w3) = population_size (sim_params w) ∧
    (∃ row0, states_dict w3 !! 0 = Some row0 ∧
             ∀ n, row0 !! n = if decide (n ∈ infected) then Some "I"
                              else if decide (n ∈ nodes G) then Some "S" else None) ∧
    (∀ t, 0 < t ≤ T → states_dict w3 !! t = Some ∅) ∧
    for_each (seq 0 T) timestep w3 = Returned tt w'.
Proof.
  unfold basic_simulation. intros H.
  apply bind_returned in H as (w0 & w1 & [= <- <-] & H).
  apply bind_returned in H as (b & w1 & Hb & H).
  apply from_option_returned in Hb as [Hb <-].
  apply bind_returned in H as ([] & w1 & Hmod & H). injection Hmod as <-.
  apply bind_returned in H as (G & w1 & HG & H).
  apply the_graph_returned in HG as [HG <-]. simpl in HG.
  apply bind_returned in H as (k & w1 & Hk & H).
  apply from_option_returned in Hk as [Hk <-].
  apply bind_returned in H as (infected & w1 & Hsample & H).
  apply with_random_result_returned in Hsample as (r & Hsample & ->).
  apply bind_returned in H as ([] & w2 & Hmake & H).
  apply bind_returned in H as ([] & w3 & Hseed & H).
  apply bind_returned in H as (T & w4 & HT & H).
  apply from_option_returned in HT as [HT <-].
  apply (_make_states_dict_returned _ _ G T) in Hmake
    as ((Hp2 & Hg2 & _) & (row0 & Hrow0 & Hlook0) & Hempty2); [|done..].
  apply (set_state_pass _ _ _ _ _ _ row0) in Hseed
    as ((Hp3 & Hg3 & _) & _ & Hother3 & row0' & Hrow0' & Hlook0'); [|done].
  exists G, k, T, infected, r, w3.
  split; [done|]. split; [done|]. split; [done|]. split; [done|].
  split; [by rewrite Hg3, Hg2|]. split; [by rewrite Hp3, Hp2|].
  split; [by rewrite Hp3, Hp2|]. split.
  - exists row0'. split; [done|]. intros n. rewrite Hlook0'.
    destruct (decide (n ∈ infected)); [done|]. apply Hlook0.
  - split; [|done]. intros t Ht. rewrite Hother3 by lia. by apply Hempty2.
Qed.

(** A timestep writes states only for nodes of the graph. *)
Lemma timestep_within t w w' :
  within_graph w t → states_dict w !! (t + 1) = Some ∅ →
  timestep t w = Returned tt w' → within_graph w' (t + 1).
Proof.
  intros (G & HG & Hdom) Hnext Hstep.
  destruct (timestep_returned _ w w' G ∅ HG Hnext Hstep)
    as (G1 & G' & vs & evs & row3 & Hext & _ & Hevs & _ & _ & _ & Hrow3
        & Hout & _ & _ & _ & _ & HG' & Hn' & _).
  exists G'. split; [done|]. intros u Hu. rewrite Hn'.
  destruct (decide (u ∈ nodes G1)) as [|Hnot]; [done|]. exfalso.
  unfold state_at in Hu. rewrite Hrow3 in Hu. cbn in Hu. rewrite (Hout u Hnot) in Hu.
  destruct (infected_in evs u) eqn:Hi.
  - apply infected_in_spec in Hi as (v & luck & prob & Hdraw & _).
    rewrite Forall_forall in Hevs. destruct (Hevs _ Hdraw) as (_ & _ & _ & HS & _).
    apply Hnot. destruct Hext as [[extra ->] _]. apply elem_of_app. left.
    apply Hdom. eauto.
  - rewrite lookup_empty in Hu. by destruct Hu.
Qed.

(** The loop of [basic_simulation], taken apart: the final timeline holds,
    for every timestep [t], the rows that timestep [t] read and wrote. *)
Lemma run_decomposes T w3 w' :
  within_graph w3 0 →
  (∀ t, 0 < t ≤ T → states_dict w3 !! t = Some ∅) →
  for_each (seq 0 T) timestep w3 = Returned tt w' →
  states_dict w' !! 0 = states_dict w3 !! 0 ∧
  sim_params w' = sim_params w3 ∧ time_horizon (sim_graph w') = time_horizon (sim_graph w3) ∧
  ∀ t, t < T →
    ∃ wt wt', timestep t wt = Returned tt wt' ∧
              sim_params wt = sim_params w3 ∧ within_graph wt t ∧
              states_dict wt !! (t + 1) = Some ∅ ∧
              states_dict wt !! t = states_dict w' !! t ∧
              states_dict wt' !! (t + 1) = states_dict w' !! (t + 1).
Proof.
  intros HG Hempty Hrun.
  pose (I := λ (done : list nat) (w1 : World),
    within_graph w1 (length done) ∧ sim_params w1 = sim_params w3 ∧
    time_horizon (sim_graph w1) = time_horizon (sim_graph w3) ∧
    (∀ t, length done < t ≤ T → states_dict w1 !! t = Some ∅) ∧
    states_dict w1 !! 0 = states_dict w3 !! 0 ∧
    ∀ t, t < length done →
      ∃ wt wt', timestep t wt = Returned tt wt' ∧
                sim_params wt = sim_params w3 ∧ within_graph wt t ∧
                states_dict wt !! (t + 1) = Some ∅ ∧
                states_dict wt !! t = states_dict w1 !! t ∧
                states_dict wt' !! (t + 1) = states_dict w1 !! (t + 1)).
  apply (for_each_returned I (seq 0 T) timestep w3 w') in Hrun.
  - destruct Hrun as (_ & Hp & HT & _ & H0 & Hsteps). rewrite length_seq in Hsteps. done.
  - intros done x rest w1 w2 Hl (HG1 & Hp1 & HT1 & Hempty1 & H01 & Hsteps1) Hx.
    apply seq_split_position in Hl as [-> Hlt].
    pose proof HG1 as (G1 & HG1' & Hdom1).
    assert (states_dict w1 !! (length done + 1) = Some ∅) as Hnext by (apply Hempty1; lia).
    destruct (timestep_returned _ w1 w2 G1 ∅ HG1' Hnext Hx)
      as (G1' & G' & vs & evs & row3 & Hext & _ & Hevs & _ & _ & Hother & Hrow3
          & Hout & _ & Hp' & _ & (HT' & _) & HG' & Hn' & _).
    unfold I. rewrite length_app. cbn [length].
    split; [|split; [congruence|split; [congruence|split; [|split]]]].
    + by eapply timestep_within.
    + intros t Ht. rewrite Hother by lia. apply Hempty1. lia.
    + rewrite Hother by lia. done.
    + intros t Ht. destruct (decide (t = length done)) as [->|Hne].
      * exists w1, w2. split; [done|]. split; [done|]. split; [done|]. split; [done|].
        split; [|done]. rewrite Hother by lia. done.
      * destruct (Hsteps1 t) as (wt & wt' & Hstep & Hpt & HGt & Het & Hrt & Hrt'); [lia|].
        exists wt, wt'. split; [done|]. split; [done|]. split; [done|]. split; [done|].
        rewrite !Hother by lia. done.
  - unfold I. split; [done|]. split; [done|]. split; [done|]. split; [|split; [done|]].
    + intros t Ht. apply Hempty. cbn in Ht. lia.
    + intros t Ht. cbn in Ht. lia.
Qed.

(** [basic_simulation], taken apart in the same way. *)
Lemma basic_simulation_decomposes w w' T :
  time_horizon (sim_graph w) = Some T →
  basic_simulation w = Returned tt w' →
  time_horizon (sim_graph w') = Some T ∧
  population_size (sim_params w') = population_size (sim_params w) ∧
  is_Some (states_dict w' !! T) ∧
  ∀ t, t < T →
    ∃ wt wt' row, timestep t wt = Returned tt wt' ∧
              state_transitions (sim_params wt) = state_transitions (sim_params w) ∧
              within_graph wt t ∧
              states_dict wt !! (t + 1) = Some ∅ ∧
              states_dict wt !! t = Some row ∧
              states_dict w' !! t = Some row ∧
              states_dict wt' !! (t + 1) = states_dict w' !! (t + 1).
Proof.
  intros HT Hrun.
  apply basic_simulation_seeded in Hrun
    as (G & k & T' & infected & r & w3 & HG & Hk & HT' & Hsample & Hg3 & Hp3 & Hpop3
        & (row0 & Hrow0 & Hlook) & Hempty & Hloop).
  rewrite HT in HT'. injection HT' as <-.
  pose proof (random_sample_subset _ _ _ _ _ Hsample) as Hsub.
  apply run_decomposes in Hloop as (H0 & Hp' & HT' & Hsteps); [|
    exists G; split; [by rewrite Hg3|]; intros u; unfold state_at; rewrite Hrow0; cbn;
    rewrite Hlook; destruct (decide (u ∈ infected)); [auto|];
    destruct (decide (u ∈ nodes G)); [done|by intros [? ?]] |done].
  assert (∀ t, t ≤ T → is_Some (states_dict w' !! t)) as Hrows.
  { intros [|t] Ht; [rewrite H0, Hrow0; eauto|].
    destruct (Hsteps t) as (wt & wt' & Hstep & _ & (Gt & HGt & _) & Het & _ & Hrt'); [lia|].
    destruct (timestep_returned _ wt wt' Gt ∅ HGt Het Hstep)
      as (? & ? & ? & ? & row3 & _ & _ & _ & _ & _ & _ & Hrow3 & _).
    replace (S t) with (t + 1) by lia. rewrite <- Hrt', Hrow3. eauto. }
  split; [by rewrite HT', Hg3|]. split; [by rewrite Hp'|]. split; [by apply Hrows|].
  intros t Ht. destruct (Hsteps t Ht) as (wt & wt' & Hstep & Hpt & HGt & Het & Hrt & Hrt').
  destruct (Hrows t) as [row Hrow]; [lia|].
  exists wt, wt', row. split; [done|]. split; [by rewrite Hpt|]. split; [done|].
  split; [done|]. split; [congruence|]. done.
Qed.

(** Counting a state in a row whose nodes in that state are known. *)
Lemma count_state_keys (row : gmap nat string) (s : string) (l : list nat) :
  NoDup l → (∀ n, row !! n = Some s ↔ n ∈ l) → count_state row s = Z.of_nat (length l).
Proof.
  intros Hnd Hl. unfold count_state. f_equal.
  rewrite <- (length_fmap fst). apply Permutation_length, NoDup_Permutation; [|done|].
  - eapply NoDup_fmap_fst.
    + intros n v1 v2 [_ H1]%list_elem_of_filter [_ H2]%list_elem_of_filter.
      apply elem_of_map_to_list in H1, H2. congruence.
    + apply NoDup_filter, NoDup_map_to_list.
  - intros n. rewrite <- Hl. rewrite list_elem_of_fmap. split.
    + intros ([n' v] & -> & [Hv Hin]%list_elem_of_filter). cbn in *. subst v.
      by apply elem_of_map_to_list in Hin.
    + intros Hn. exists (n, s). split; [done|]. apply list_elem_of_filter. split; [done|].
      by apply elem_of_map_to_list.
Qed.

Lemma count_state_mono (row row' : gmap nat string) (s : string) :
  (∀ n, row' !! n = Some s → row !! n = Some s) → (count_state row' s ≤ count_state row s)%Z.
Proof.
  intros Hsub.
  set (keys := λ r : gmap nat string, (filter (λ kv, kv.2 = s) (map_to_list r)).*1).
  assert (∀ r n, n ∈ keys r ↔ r !! n = Some s) as Hkeys.
  { intros r n. unfold keys. rewrite list_elem_of_fmap. split.
    - intros ([n' v] & -> & [Hv Hin]%list_elem_of_filter). cbn in *. subst v.
      by apply elem_of_map_to_list in Hin.
    - intros Hn. exists (n, s). split; [done|]. apply list_elem_of_filter. split; [done|].
      by apply elem_of_map_to_list. }
  assert (∀ r, NoDup (keys r)) as Hnd.
  { intros r. eapply NoDup_fmap_fst.
    - intros n v1 v2 [_ H1]%list_elem_of_filter [_ H2]%list_elem_of_filter.
      apply elem_of_map_to_list in H1, H2. congruence.
    - apply NoDup_filter, NoDup_map_to_list. }
  assert (∀ r, count_state r s = Z.of_nat (length (keys r))) as Hcount.
  { intros r. unfold count_state, keys. by rewrite length_fmap. }
  rewrite !Hcount. apply inj_le, submseteq_length, NoDup_submseteq; [done|].
  intros n. rewrite !Hkeys. apply Hsub.
Qed.

Lemma random_sample_NoDup {A} (population : list A) k r sample r' :
  NoDup population → random_sample population k r = Ok (sample, r') →
  NoDup sample ∧ length sample = k.
Proof.
  unfold random_sample. intros Hnd H.
  destruct (decide (k ≤ length population)) as [Hk|]; [|done].
  destruct (pick_without_replacement_perm population k r Hk) as (Hlen & rest & Hperm).
  injection H as H. rewrite H in Hlen, Hperm. cbn in *. split; [|done].
  rewrite Hperm in Hnd. by apply NoDup_app in Hnd as [? _].
Qed.

(** At timestep 0 of a finished run exactly [num_infected] nodes of the
    graph are in state I and all the others in state S. *)
Theorem basic_simulation_seeds_infected (w w' : World) (G : nxGraph) (k : nat) :
  graph (sim_graph w) = Some G → NoDup (nodes G) →
  num_infected (sim_graph w) = Some k →
  basic_simulation w = Returned tt w' →
  ∃ row0, states_dict w' !! 0 = Some row0 ∧
          (∀ n, is_Some (row0 !! n) ↔ n ∈ nodes G) ∧
          count_state row0 "I" = Z.of_nat k ∧
          count_state row0 "S" = Z.of_nat (length (nodes G) - k) ∧
          ∀ s, s ≠ "I" → s ≠ "S" → count_state row0 s = 0%Z.
Proof.
  intros HG Hnd Hk Hrun.
  apply basic_simulation_seeded in Hrun
    as (G' & k' & T & infected & r & w3 & HG' & Hk' & HT & Hsample & Hg3 & _ & _
        & (row0 & Hrow0 & Hlook) & Hempty & Hloop).
  rewrite HG in HG'. injection HG' as <-. rewrite Hk in Hk'. injection Hk' as <-.
  pose proof (random_sample_subset _ _ _ _ _ Hsample) as Hsub.
  apply run_decomposes in Hloop as [H0 _]; [|
    exists G; split; [by rewrite Hg3|]; intros u; unfold state_at; rewrite Hrow0; cbn;
    rewrite Hlook; destruct (decide (u ∈ infected)); [auto|];
    destruct (decide (u ∈ nodes G)); [done|by intros [? ?]] |done].
  destruct (random_sample_NoDup _ _ _ _ _ Hnd Hsample) as [Hndi Hlen].
  exists row0. split; [congruence|]. split; [|split; [|split]].
  - intros n. rewrite Hlook. destruct (decide (n ∈ infected)) as [Hi|Hi].
    + split; [auto|eauto].
    + destruct (decide (n ∈ nodes G)); [split; eauto|]. split; [by intros [? ?]|done].
  - rewrite <- Hlen. apply count_state_keys; [done|]. intros n. rewrite Hlook.
    destruct (decide (n ∈ infected)); [done|].
    destruct (decide (n ∈ nodes G)); split; done.
  - rewrite (count_state_keys row0 "S" (filter (λ n, n ∉ infected) (nodes G))).
    + f_equal. rewrite <- Hlen.
      unfold random_sample in Hsample.
      destruct (decide (k ≤ length (nodes G))) as [Hle|]; [|done].
      destruct (pick_without_replacement_perm (nodes G) k (rng w) Hle) as (_ & rest & Hperm).
      injection Hsample as Hsample. rewrite Hsample in Hperm. cbn in Hperm.
      by apply filter_not_in_picked with (rest := rest).
    + by apply NoDup_filter.
    + intros n. rewrite Hlook, list_elem_of_filter.
      destruct (decide (n ∈ infected)); [split; [done|by intros [? _]]|].
      destruct (decide (n ∈ nodes G)); split; try done. by intros [_ ?].
  - intros s HI HS. rewrite (count_state_keys row0 s []); [done|constructor|].
    intros n. rewrite Hlook. split; [|by intros ?%elem_of_nil].
    destruct (decide (n ∈ infected)); [congruence|].
    destruct (decide (n ∈ nodes G)); congruence.
Qed.

Lemma basic_simulation_seeds_infected_witness :
  ∃ row0, states_dict example_final !! 0 = Some row0 ∧
          (∀ n, is_Some (row0 !! n) ↔ n ∈ nodes example_nx) ∧
          count_state row0 "I" = Z.of_nat 1 ∧
          count_state row0 "S" = Z.of_nat (length (nodes example_nx) - 1) ∧
          ∀ s, s ≠ "I" → s ≠ "S" → count_state row0 s = 0%Z.
Proof.
  apply (basic_simulation_seeds_infected example_world example_final example_nx 1);
    [reflexivity|apply example_nx_wf|reflexivity|apply example_run_returns].
Defined.

(** One timestep makes no node susceptible that was not susceptible before,
    when no transition leads back to S. *)
Lemma timestep_no_new_susceptible t wt wt' row :
  no_reinfection (sim_params wt) → is_Some (graph (sim_graph wt)) →
  states_dict wt !! (t + 1) = Some ∅ → states_dict wt !! t = Some row →
  timestep t wt = Returned tt wt' →
  ∃ row', states_dict wt' !! (t + 1) = Some row' ∧
          ∀ u, row' !! u = Some "S" → row !! u = Some "S".
Proof.
  intros Hno [G HG] Hnext Hrow Hstep.
  destruct (timestep_returned _ wt wt' G ∅ HG Hnext Hstep)
    as (G1 & G' & vs & evs & row3 & _ & _ & _ & _ & _ & _ & Hrow3 & Hout & Hin & _).
  exists row3. split; [done|]. intros u Hu.
  destruct (decide (u ∈ nodes G1)) as [Hn|Hn].
  - destruct (Hin u Hn) as (s & v & Hs & Hprog & Hfinal). rewrite Hfinal in Hu.
    destruct (infected_in evs u); [done|]. injection Hu as ->.
    unfold state_at in Hs. rewrite Hrow in Hs. cbn in Hs. rewrite Hs. f_equal.
    unfold progresses_to in Hprog. destruct (decide (s ∈ ["R"; "D"; "S"])); [done|].
    destruct Hprog as (table & distrib & Htable & Hdistrib & Hv).
    by destruct (Hno table s distrib Htable Hdistrib).
  - rewrite (Hout u Hn) in Hu. destruct (infected_in evs u); [done|].
    by rewrite lookup_empty in Hu.
Qed.

(** When no transition of the table leads back to S, nobody becomes
    susceptible again during a run: from each timestep to the next the set of
    susceptible nodes can only shrink, and with it their number (the
    cumulative number of cases never goes down). *)
Theorem susceptible_never_return (w w' : World) (T : nat) :
  time_horizon (sim_graph w) = Some T →
  no_reinfection (sim_params w) →
  basic_simulation w = Returned tt w' →
  ∀ t, t < T →
    ∃ row row', states_dict w' !! t = Some row ∧ states_dict w' !! (t + 1) = Some row' ∧
                (∀ u, row' !! u = Some "S" → row !! u = Some "S") ∧
                (count_state row' "S" ≤ count_state row "S")%Z.
Proof.
  intros HT Hno Hrun t Ht.
  destruct (basic_simulation_decomposes w w' T HT Hrun) as (_ & _ & _ & Hsteps).
  destruct (Hsteps t Ht)
    as (wt & wt' & row & Hstep & Hpt & (G & HG & _) & Het & Hrt & Hrow & Hrt').
  assert (no_reinfection (sim_params wt)) as Hno'.
  { intros table s distrib. rewrite Hpt. apply Hno. }
  destruct (timestep_no_new_susceptible t wt wt' row Hno' (mk_is_Some _ _ HG) Het Hrt Hstep)
    as (row' & Hrow' & Hsub).
  exists row, row'. split; [done|]. split; [congruence|]. split; [done|].
  by apply count_state_mono.
Qed.

Lemma example_no_reinfection bs : no_reinfection (example_params bs).
Proof.
  intros table s distrib [= <-] Hs.
  assert (bool_decide (map_Forall (λ _ (d : Distrib), "S" ∉ d.*1) example_transitions) = true)
    as H%bool_decide_eq_true by (vm_compute; reflexivity).
  apply (H s distrib Hs).
Qed.

Lemma susceptible_never_return_witness :
  ∃ row row', states_dict example_final !! 0 = Some row ∧
              states_dict example_final !! (0 + 1) = Some row' ∧
              (∀ u, row' !! u = Some "S" → row !! u = Some "S") ∧
              (count_state row' "S" ≤ count_state row "S")%Z.
Proof.
  apply (susceptible_never_return example_world example_final 7);
    [reflexivity|apply example_no_reinfection|apply example_run_returns|lia].
Defined.

(** A node that has died or recovered keeps that state to the end of the
    run. *)
Theorem removed_stay_removed (w w' : World) (T : nat) :
  time_horizon (sim_graph w) = Some T →
  basic_simulation w = Returned tt w' →
  ∀ t t' u s, t ≤ t' → t' ≤ T → s = "D" ∨ s = "R" →
              state_at w' t u = Some s → state_at w' t' u = Some s.
Proof.
  intros HT Hrun t t' u s Htt' Ht' Hs Hstate.
  induction Htt' as [|t' Htt' IH]; [done|].
  assert (state_at w' t' u = Some s) as Hprev by (apply IH; lia).
  destruct (basic_simulation_decomposes w w' T HT Hrun) as (_ & _ & _ & Hsteps).
  destruct (Hsteps t')
    as (wt & wt' & row & Hstep & Hpt & (G & HG & Hdom) & Het & Hrt & Hrow & Hrt'); [lia|].
  destruct (timestep_returned _ wt wt' G ∅ HG Het Hstep)
    as (G1 & G' & vs & evs & row3 & Hext & _ & Hevs & _ & _ & _ & Hrow3 & _ & Hin & _).
  assert (state_at wt t' u = Some s) as Hwt.
  { unfold state_at in *. by rewrite Hrt, <- Hrow. }
  assert (u ∈ nodes G1) as Hu.
  { destruct Hext as [[extra ->] _]. apply elem_of_app. left. apply Hdom. eauto. }
  destruct (Hin u Hu) as (s' & v & Hs' & Hprog & Hfinal).
  rewrite Hwt in Hs'. injection Hs' as <-.
  unfold state_at. replace (S t') with (t' + 1) by lia. rewrite <- Hrt', Hrow3. cbn.
  rewrite Hfinal. destruct (infected_in evs u) eqn:Hi.
  - apply infected_in_spec in Hi as (v' & luck & prob & Hdraw & _).
    rewrite Forall_forall in Hevs. destruct (Hevs _ Hdraw) as (_ & _ & _ & HS & _).
    rewrite Hwt in HS. destruct Hs as [-> | ->]; discriminate.
  - unfold progresses_to in Hprog. rewrite decide_True in Hprog; [by subst|].
    destruct Hs as [-> | ->]; set_solver.
Qed.

Lemma removed_stay_removed_witness : state_at example_final 7 3 = Some "R".
Proof.
  apply (removed_stay_removed example_world example_final 7 eq_refl example_run_returns
           2 7 3 "R"); [lia|lia|right; reflexivity|vm_compute; reflexivity].
Defined.

(** ** Errors and edge cases of a run *)

Lemma bind_raises {A B} (m : M A) (f : A → M B) w e w1 :
  m w = Raised e w1 → (m ≫= f) w = Raised e w1.
Proof. intros H. unfold mbind, M_bind. by rewrite H. Qed.

(** Asking for more initially infected nodes than the graph has makes
    [random.sample] raise ValueError: the run ends before a timeline is made
    and before the random generator is used. *)
Theorem basic_simulation_too_many_infected (w : World) (b : list (string * Behaviour))
    (G : nxGraph) (k : nat) :
  behaviours (sim_params w) = Some b →
  graph (sim_graph w) = Some G →
  num_infected (sim_graph w) = Some k →
  length (nodes G) < k →
  ∃ w1, basic_simulation w = Raised ValueError w1 ∧
        behaviours_dict (sim_params w1) = Some (_convert_behaviours_to_dict b) ∧
        states_dict w1 = states_dict w ∧ sim_graph w1 = sim_graph w ∧
        rng w1 = rng w ∧ trace w1 = trace w.
Proof.
  intros Hb HG Hk Hlt. eexists. split.
  - unfold basic_simulation.
    erewrite bind_runs by reflexivity.
    erewrite bind_runs by (rewrite Hb; reflexivity).
    erewrite bind_runs by reflexivity.
    erewrite bind_runs by (unfold the_graph; erewrite bind_runs by reflexivity;
                           cbn [sim_graph with_params]; rewrite HG; reflexivity).
    erewrite bind_runs by (rewrite Hk; reflexivity).
    apply bind_raises. unfold with_random_result, random_sample. cbn [rng with_params].
    rewrite decide_False by lia. reflexivity.
  - done.
Qed.

Lemma basic_simulation_too_many_infected_witness :
  ∃ w1, basic_simulation (with_graph (example_graph_with 6) example_world) = Raised ValueError w1 ∧
        behaviours_dict (sim_params w1) = Some (_convert_behaviours_to_dict []) ∧
        states_dict w1 = states_dict (with_graph (example_graph_with 6) example_world) ∧
        sim_graph w1 = sim_graph (with_graph (example_graph_with 6) example_world) ∧
        rng w1 = rng (with_graph (example_graph_with 6) example_world) ∧
        trace w1 = trace (with_graph (example_graph_with 6) example_world).
Proof.
  apply (basic_simulation_too_many_infected
           (with_graph (example_graph_with 6) example_world) [] example_nx 6);
    [reflexivity|reflexivity|reflexivity|vm_compute; lia].
Defined.



(** ** Choosing the next state *)

Lemma cumulative_choice_total ag max_sum curr_sum (distrib : Distrib) :
  (∀ entry, entry ∈ distrib → is_Some (entry.2 !! ag)) →
  ∃ found, cumulative_choice ag max_sum curr_sum distrib = Ok found.
Proof.
  revert curr_sum. induction distrib as [|[value by_age] rest IH]; intros curr_sum Hall.
  - by exists None.
  - cbn [cumulative_choice]. destruct (Hall (value, by_age)) as [p Hp]; [left|].
    cbn in Hp. rewrite Hp.
    destruct (max_sum <=? curr_sum + p)%float; [eauto|].
    apply IH. intros entry Hentry. apply Hall. by right.
Qed.

(** [_choose_from_distrib] always answers with one of the target states of
    the distribution, also when the probabilities do not add up to the number
    drawn (it then falls back to the smallest target name).  It takes exactly
    one number from the random generator and changes nothing else.  All it
    needs is a distribution that is not empty and gives every target a
    probability for the age group. *)
Theorem choose_from_distrib_chooses_a_target (age_group : string) (distrib : Distrib)
    (w : World) :
  distrib ≠ [] →
  (∀ entry, entry ∈ distrib → is_Some (entry.2 !! age_group)) →
  ∃ v, _choose_from_distrib age_group distrib w = Returned v (with_rng (advance (rng w)) w) ∧
       v ∈ distrib.*1.
Proof.
  intros Hne Hall. unfold _choose_from_distrib.
  erewrite bind_runs by apply with_random_runs. cbn [random_random fst snd].
  destruct (cumulative_choice_total age_group (uniform_src (rng w) (cursor (rng w))) 0%float
              distrib Hall) as [found Hfound].
  erewrite bind_runs by (unfold lift_result; rewrite Hfound; reflexivity).
  destruct found as [v|].
  - exists v. split; [done|]. by eapply cumulative_choice_in.
  - destruct distrib as [|[k by_age] rest]; [done|]. cbn [fmap list_fmap fst min_key].
    eexists. split; [reflexivity|]. apply foldl_string_min_in.
Qed.

Lemma choose_from_distrib_chooses_a_target_witness :
  ∃ v, _choose_from_distrib "(0, 9)" (certain "R") example_world
       = Returned v (with_rng (advance (rng example_world)) example_world) ∧
       v ∈ (certain "R").*1.
Proof.
  apply (choose_from_distrib_chooses_a_target "(0, 9)" (certain "R") example_world);
    [discriminate|].
  intros entry Hentry. apply list_elem_of_singleton in Hentry. rewrite Hentry. vm_compute.
  eexists. reflexivity.
Defined.

(** ** Starting a timeline *)

Lemma set_state_pass_runs site t v (l : list nat) w :
  is_Some (states_dict w !! t) →
  ∃ w', for_each l (λ n, set_state site t n v) w = Returned tt w'.
Proof.
  revert w. induction l as [|n l IH]; intros w [row Hrow]; [by eexists|].
  cbn [for_each].
  erewrite bind_runs
    by (apply set_state_returned; eexists; split; [exact Hrow|reflexivity]).
  apply IH. cbn. rewrite lookup_insert_eq. eauto.
Qed.

Lemma set_state_pass_rng site t v (l : list nat) w w' :
  for_each l (λ n, set_state site t n v) w = Returned tt w' → rng w' = rng w.
Proof.
  apply (for_each_returned (λ _ w1, rng w1 = rng w)); [|done].
  intros done x rest w1 w2 _ Hrng Hx.
  apply set_state_returned in Hx as (row & _ & ->). done.
Qed.

(** [_make_states_dict] replaces whatever timeline there was by a fresh one:
    rows for the timesteps 0 to [time_horizon] and no others, all nodes of the
    graph susceptible at timestep 0, and the later rows empty.  It needs only
    a graph and a time horizon. *)
Theorem make_states_dict_resets_timeline (w : World) (G : nxGraph) (T : nat) :
  graph (sim_graph w) = Some G → time_horizon (sim_graph w) = Some T →
  ∃ w' row0,
    _make_states_dict w = Returned tt w' ∧
    (∀ n, row0 !! n = if decide (n ∈ nodes G) then Some "S" else None) ∧
    (∀ t, states_dict w' !! t
          = if decide (t = 0) then Some row0
            else if decide (t ≤ T) then Some ∅ else None) ∧
    sim_graph w' = sim_graph w ∧ sim_params w' = sim_params w ∧ rng w' = rng w.
Proof.
  intros HG HT.
  set (fresh := list_to_map ((λ timestep, (timestep, ∅)) <$> seq 0 (T + 1))
         : gmap nat (gmap nat string)).
  assert (fresh !! 0 = Some ∅) as Hfresh0.
  { unfold fresh. rewrite empty_timeline_lookup, decide_True; [done|].
    apply elem_of_seq. lia. }
  destruct (set_state_pass_runs InMakeStatesDict 0 "S" (nodes G) (with_states_dict fresh w))
    as [w' Hrun]; [cbn; rewrite Hfresh0; eauto|].
  assert (_make_states_dict w = Returned tt w') as Hmake.
  { unfold _make_states_dict.
    erewrite bind_runs by reflexivity.
    erewrite bind_runs by (rewrite HT; reflexivity).
    erewrite bind_runs by (unfold the_graph; erewrite bind_runs by reflexivity;
                           rewrite HG; reflexivity).
    erewrite bind_runs by reflexivity. exact Hrun. }
  pose proof (set_state_pass_rng _ _ _ _ _ _ Hrun) as Hrng.
  apply (set_state_pass _ _ _ _ _ _ ∅) in Hrun
    as ((Hp & Hg & _) & _ & Hother & row0 & Hrow0 & Hlook); [|done].
  exists w', row0. split; [done|]. split; [|split; [|split; [done|split; [done|]]]].
  - intros n. rewrite Hlook. destruct (decide (n ∈ nodes G)); [done|]. apply lookup_empty.
  - intros t. destruct (decide (t = 0)) as [->|Hne]; [done|].
    rewrite Hother by done. cbn. unfold fresh. rewrite empty_timeline_lookup.
    destruct (decide (t ≤ T)).
    + rewrite decide_True; [done|]. apply elem_of_seq. lia.
    + rewrite decide_False; [done|]. rewrite elem_of_seq. lia.
  - exact Hrng.
Qed.

Lemma make_states_dict_resets_timeline_witness :
  ∃ w' row0,
    _make_states_dict example_world = Returned tt w' ∧
    (∀ n, row0 !! n = if decide (n ∈ nodes example_nx) then Some "S" else None) ∧
    (∀ t, states_dict w' !! t
          = if decide (t = 0) then Some row0
            else if decide (t ≤ 7) then Some ∅ else None) ∧
    sim_graph w' = sim_graph example_world ∧ sim_params w' = sim_params example_world ∧
    rng w' = rng example_world.
Proof.
  apply (make_states_dict_resets_timeline example_world example_nx 7); reflexivity.
Defined.

(** ** Doubling times *)

Lemma double_times_found_omap (counts : list Z) :
  double_times_found counts = omap (doubling_at counts) (seq 0 (length counts)).
Proof.
  unfold double_times_found. generalize (seq 0 (length counts)). intros l.
  enough (∀ acc, foldl (λ double_times ix,
                          match doubling_at counts ix with
                          | Some d => double_times ++ [d]
                          | None => double_times
                          end) acc l = acc ++ omap (doubling_at counts) l) as H by apply H.
  induction l as [|ix l IH]; intros acc; cbn [foldl omap list_omap].
  - by rewrite app_nil_r.
  - rewrite IH. destruct (doubling_at counts ix); [|done]. by rewrite <- app_assoc.
Qed.

(** What the inner loop finds. *)
Lemma doubling_at_Some (counts : list Z) ix d :
  doubling_at counts ix = Some d ↔
  1 ≤ d ∧ ix + d < length counts ∧
  (counts !!! ix * 2 ≤ counts !!! (ix + d)%nat)%Z ∧
  ∀ d', 1 ≤ d' < d → (counts !!! (ix + d')%nat < counts !!! ix * 2)%Z.
Proof.
  unfold doubling_at. rewrite fmap_Some. split.
  - intros ([i j] & Hfind & ->). cbn. apply list_find_Some in Hfind as (Hj & Hdouble & Hless).
    apply lookup_seq in Hj as [-> Hi]. replace (ix + 1 + i - ix) with (1 + i) by lia.
    split; [lia|]. split; [lia|]. split; [by replace (ix + (1 + i)) with (ix + 1 + i) by lia|].
    intros d' Hd'. apply Z.lt_nge, (Hless (d' - 1) (ix + d')); [apply lookup_seq|]; lia.
  - intros (Hd & Hlen & Hdouble & Hless). exists (d - 1, ix + d). split; [|cbn; lia].
    apply list_find_Some. split; [apply lookup_seq; lia|]. split; [done|].
    intros i y Hy Hi. apply lookup_seq in Hy as [-> _].
    apply Z.lt_nge. replace (ix + 1 + i) with (ix + (1 + i)) by lia. apply Hless. lia.
Qed.

Lemma doubling_at_None (counts : list Z) ix :
  doubling_at counts ix = None ↔
  ∀ j, ix < j < length counts → (counts !!! j < counts !!! ix * 2)%Z.
Proof.
  unfold doubling_at. rewrite fmap_None, list_find_None, Forall_forall. split.
  - intros H j Hj. apply Z.lt_nge, H, elem_of_seq. lia.
  - intros H j Hj%elem_of_seq. apply Z.lt_nge, H. lia.
Qed.

(** Filtering a list whose misses all come after its hits keeps the hits in
    place. *)
Lemma omap_aligned {A B} (f : A → option B) (l : list A) :
  (∀ i j x y, i < j → l !! i = Some x → l !! j = Some y → f x = None → f y = None) →
  (Some <$> omap f l) ++ replicate (length l - length (omap f l)) None = f <$> l.
Proof.
  induction l as [|x l IH]; intros Hup; [done|]. cbn [omap list_omap fmap list_fmap].
  destruct (f x) as [v|] eqn:Hx.
  - cbn. f_equal. apply IH. intros i j a b Hij Ha Hb. by apply (Hup (S i) (S j)); [lia|..].
  - assert (∀ y, y ∈ l → f y = None) as Hnone.
    { intros y [j Hj]%list_elem_of_lookup. by apply (Hup 0 (S j) x y); [lia|..]. }
    assert (omap f l = []) as ->.
    { clear -Hnone. induction l as [|y l IH]; [done|]. cbn. rewrite Hnone by left.
      apply IH. intros z Hz. apply Hnone. by right. }
    cbn. f_equal. clear -Hnone. induction l as [|y l IH]; [done|]. cbn.
    rewrite Hnone by left. f_equal. apply IH.
    intros z Hz. apply Hnone. by right.
Qed.

(** For counts that never go down, the series of doubling times is aligned
    with the timesteps: its entry [ix] is the smallest distance [d >= 1] at
    which the count is at least twice the count at [ix], and None when the
    count at [ix] does not double before the end. *)
Theorem double_times_aligned (counts : list Z) :
  (∀ i j, i ≤ j → j < length counts → (counts !!! i ≤ counts !!! j)%Z) →
  length (double_times counts) = length counts ∧
  ∀ ix, ix < length counts →
    match double_times counts !! ix with
    | Some (Some d) =>
        1 ≤ d ∧ ix + d < length counts ∧
        (counts !!! ix * 2 ≤ counts !!! (ix + d)%nat)%Z ∧
        ∀ d', 1 ≤ d' < d → (counts !!! (ix + d')%nat < counts !!! ix * 2)%Z
    | Some None => ∀ j, ix < j < length counts → (counts !!! j < counts !!! ix * 2)%Z
    | None => False
    end.
Proof.
  intros Hmono.
  assert (double_times counts = doubling_at counts <$> seq 0 (length counts)) as ->.
  { unfold double_times. rewrite double_times_found_omap, length_fmap.
    rewrite <- (omap_aligned (doubling_at counts) (seq 0 (length counts))).
    - rewrite length_seq. destruct (decide _) as [|Hz]; [done|].
      apply dec_stable in Hz. rewrite Hz. cbn. by rewrite app_nil_r.
    - intros i j x y Hij [-> Hi]%lookup_seq [-> Hj]%lookup_seq. cbn.
      rewrite !doubling_at_None. intros Hnone k Hk.
      eapply Z.lt_le_trans; [apply (Hnone k); lia|].
      apply Z.mul_le_mono_nonneg_r; [lia|]. apply Hmono; lia. }
  split; [by rewrite length_fmap, length_seq|]. intros ix Hix.
  rewrite list_lookup_fmap, lookup_seq_lt by done. cbn.
  destruct (doubling_at counts ix) as [d|] eqn:Hd.
  - by apply doubling_at_Some.
  - by apply doubling_at_None.
Qed.

Lemma double_times_aligned_witness :
  length (double_times [1; 1; 2; 3; 4]%Z) = length [1; 1; 2; 3; 4]%Z ∧
  ∀ ix, ix < length [1; 1; 2; 3; 4]%Z →
    match double_times [1; 1; 2; 3; 4]%Z !! ix with
    | Some (Some d) =>
        1 ≤ d ∧ ix + d < length [1; 1; 2; 3; 4]%Z ∧
        ([1; 1; 2; 3; 4] !!! ix * 2 ≤ [1; 1; 2; 3; 4] !!! (ix + d)%nat)%Z ∧
        ∀ d', 1 ≤ d' < d → ([1; 1; 2; 3; 4] !!! (ix + d')%nat < [1; 1; 2; 3; 4] !!! ix * 2)%Z
    | Some None =>
        ∀ j, ix < j < length [1; 1; 2; 3; 4]%Z →
             ([1; 1; 2; 3; 4] !!! j < [1; 1; 2; 3; 4] !!! ix * 2)%Z
    | None => False
    end.
Proof.
  apply (double_times_aligned [1; 1; 2; 3; 4]%Z).
  intros i j Hij Hj. cbn in Hj.
  destruct i as [|[|[|[|[|i]]]]], j as [|[|[|[|[|j]]]]]; cbn; lia.
Defined.
Lemma for_list_runs {A B} (l : list A) (body : A → M B) (g : A → B) w :
  (∀ x, x ∈ l → body x w = Returned (g x) w) →
  for_list l body w = Returned (g <$> l) w.
Proof.
  induction l as [|x l IH]; intros Hbody; [done|]. cbn [for_list].
  erewrite bind_runs by (apply Hbody; left).
  erewrite bind_runs by (apply IH; intros y Hy; apply Hbody; by right). done.
Qed.

(** The cumulative cases that [plot_doubling_time] computes from a finished
    run never go down from one timestep to a later one, when no transition
    leads back to S: the condition under which its doubling times are aligned
    with the timesteps. *)
Theorem infectious_counts_never_decrease (w w' : World) (T pop : nat) :
  time_horizon (sim_graph w) = Some T →
  population_size (sim_params w) = Some pop →
  no_reinfection (sim_params w) →
  basic_simulation w = Returned tt w' →
  ∃ counts, infectious_counts w' = Returned counts w' ∧ length counts = T ∧
            ∀ i j, i ≤ j → j < length counts → (counts !!! i ≤ counts !!! j)%Z.
Proof.
  intros HT Hpop Hno Hrun.
  destruct (basic_simulation_decomposes w w' T HT Hrun) as (HT' & Hpop' & _ & Hsteps).
  set (row := λ t, default ∅ (states_dict w' !! t)).
  set (cases := λ t, (Z.of_nat pop - count_state (row t) "S")%Z).
  assert (∀ t, t < T → ∃ r, states_dict w' !! t = Some r) as Hrows.
  { intros t Ht. destruct (Hsteps t Ht) as (_ & _ & r & _ & _ & _ & _ & _ & Hr & _). eauto. }
  assert (∀ t, t + 1 < T → (cases t ≤ cases (t + 1)%nat)%Z) as Hstep.
  { intros t Ht.
    destruct (Hsteps t) as (wt & wt' & r & Hstep & Hpt & (G & HG & _) & Het & Hrt & Hr & Hrt');
      [lia|].
    assert (no_reinfection (sim_params wt)) as Hno'.
    { intros table s distrib. rewrite Hpt. apply Hno. }
    destruct (timestep_no_new_susceptible t wt wt' r Hno' (mk_is_Some _ _ HG) Het Hrt Hstep)
      as (r' & Hr' & Hsub).
    unfold cases, row. rewrite Hr, <- Hrt', Hr'. cbn.
    pose proof (count_state_mono r r' "S" Hsub). lia. }
  assert (∀ i j, i ≤ j → j < T → (cases i ≤ cases j)%Z) as Hmono.
  { intros i j Hij. induction Hij as [|j Hij IH]; intros Hj; [lia|].
    etrans; [apply IH; lia|]. replace (S j) with (j + 1) by lia. apply Hstep. lia. }
  exists (cases <$> seq 0 T). split; [|split].
  - unfold infectious_counts. erewrite bind_runs by reflexivity.
    erewrite bind_runs by (rewrite HT'; reflexivity).
    apply for_list_runs. intros t [_ Ht]%elem_of_seq.
    destruct (Hrows t) as [r Hr]; [lia|].
    unfold _get_state_counts. 
    erewrite bind_runs; [|erewrite bind_runs by reflexivity;
                          erewrite bind_runs by (rewrite Hr; reflexivity); reflexivity].
    erewrite bind_runs by (rewrite Hpop', Hpop; reflexivity).
    unfold cases, row. by rewrite Hr.
  - by rewrite length_fmap, length_seq.
  - rewrite length_fmap, length_seq. intros i j Hij Hj.
    assert (∀ t, t < T → (cases <$> seq 0 T) !!! t = cases t) as Hlook.
    { intros t Ht. apply list_lookup_total_correct.
      by rewrite list_lookup_fmap, lookup_seq_lt by lia. }
    rewrite !Hlook by lia. by apply Hmono.
Qed.

Lemma infectious_counts_never_decrease_witness :
  ∃ counts, infectious_counts example_final = Returned counts example_final ∧
            length counts = 7 ∧
            ∀ i j, i ≤ j → j < length counts → (counts !!! i ≤ counts !!! j)%Z.
Proof.
  apply (infectious_counts_never_decrease example_world example_final 7 5);
    [reflexivity|reflexivity|apply example_no_reinfection|apply example_run_returns].
Defined.

(** ** The graph that [create_graph] builds *)

(** What [Graph.create_graph] has computed when it returns. *)
Lemma Graph_create_graph_built ags rate w w' :
  Graph_create_graph ags rate w = Returned tt w' →
  ∃ cfg D g g' extra r r' r3 arr,
    let N := sum_list (ags.*2) in
    let shuffled := (random_shuffle (ags ≫= λ gn, replicate gn.2 gn.1) r3).1 in
    let G := constructed_graph (remove_nodes_from D extra) rate
               (imap (λ i ag, (i, ag)) shuffled) in
    graph_config (sim_graph w) = Some cfg ∧
    navigable_small_world_graph (ceil_sqrt N) (short_connection_diameter cfg)
      (long_connection_diameter cfg) (decay cfg) g = Ok (D, g') ∧
    random_sample (dnodes D) (ceil_sqrt N ^ 2 - N) r = Ok (extra, r') ∧
    length (dnodes (remove_nodes_from D extra)) = N ∧
    NoDup (dnodes (remove_nodes_from D extra)) ∧
    graph (sim_graph w') = Some G ∧
    close_nodes_arr (sim_graph w') = Some arr.
Proof.
  unfold Graph_create_graph, _set_navigable_small_world_graph. intros H.
  apply bind_returned in H as ([] & w1 & Hrate & H). injection Hrate as <-.
  apply bind_returned in H as (w0 & w1 & [= <- <-] & H).
  apply bind_returned in H as (cfg & w1 & Hcfg & H).
  apply from_option_returned in Hcfg as [Hcfg <-]. simpl in Hcfg.
  apply bind_returned in H as (D & w1 & HD & H).
  apply with_random_result_returned in HD as (r1 & HD & ->).
  pose proof (navigable_small_world_graph_nodes _ _ _ _ _ _ _ HD) as Hnodes.
  apply bind_returned in H as ([] & w1 & Hcheck & H).
  destruct (decide (ceil_sqrt (sum_list ags.*2) ^ 2 < sum_list ags.*2)); [done|].
  apply ret_returned in Hcheck as [_ <-].
  apply bind_returned in H as (extra & w1 & Hextra & H).
  apply with_random_result_returned in Hextra as (r2 & Hextra & ->).
  apply bind_returned in H as ([] & w1 & Hset & H). injection Hset as <-.
  apply bind_returned in H as ([] & w1 & Hweights & H).
  unfold _set_generic_weights in Hweights.
  apply bind_returned in Hweights as (G0 & w2 & HG0 & Hweights).
  apply the_graph_returned in HG0 as [HG0 <-]. simpl in HG0. injection HG0 as <-.
  apply bind_returned in Hweights as (w0 & w2 & [= <- <-] & Hweights).
  injection Hweights as <-.
  apply bind_returned in H as ([] & w1 & Hages & H).
  unfold _set_ages in Hages.
  apply bind_returned in Hages as (shuffled & w2 & Hshuffle & Hages).
  apply with_random_returned in Hshuffle as (r3 & Hshuffle & ->).
  apply bind_returned in Hages as (G1 & w2 & HG1 & Hages).
  apply the_graph_returned in HG1 as [HG1 <-]. simpl in HG1. injection HG1 as <-.
  injection Hages as <-.
  unfold _set_close_nodes_arr in H.
  apply bind_returned in H as (w0 & w1 & [= <- <-] & H).
  apply bind_returned in H as (cfg' & w1 & Hcfg' & H).
  apply from_option_returned in Hcfg' as [Hcfg' <-]. simpl in Hcfg'.
  apply bind_returned in H as (G2 & w1 & HG2 & H).
  apply the_graph_returned in HG2 as [HG2 <-]. simpl in HG2. injection HG2 as <-.
  apply bind_returned in H as (arr & w1 & Harr & H).
  apply lift_result_returned in Harr as [Harr <-].
  injection H as <-.
  exists cfg, D. eexists. eexists. exists extra. eexists. exists r2. eexists. exists arr.
  cbn zeta. split; [done|]. split; [exact HD|]. split; [exact Hextra|].
  split; [by eapply created_nodes|]. split.
  { cbn [remove_nodes_from dnodes]. apply NoDup_filter. rewrite Hnodes.
    apply NoDup_grid_points. }
  split; [|done]. cbn. do 2 f_equal. unfold constructed_graph. do 2 f_equal.
  by rewrite Hshuffle.
Qed.






Lemma elem_of_grid_points n a b : (a, b) ∈ grid_points n ↔ a < n ∧ b < n.
Proof.
  unfold grid_points. rewrite list_elem_of_bind. split.
  - intros (a' & (b' & Hab & Hb)%list_elem_of_bind & Ha).
    apply list_elem_of_singleton in Hab as [= -> ->].
    apply elem_of_seq in Ha, Hb. lia.
  - intros [Ha Hb]. exists a. split; [|apply elem_of_seq; lia].
    apply list_elem_of_bind. exists b. split; [by apply list_elem_of_singleton|].
    apply elem_of_seq. lia.
Qed.

Lemma index_of_Some {A} `{EqDecision A} (x : A) (l : list A) i :
  index_of x l = Some i → l !! i = Some x.
Proof.
  revert i. induction l as [|y l IH]; intros i; cbn [index_of]; [done|].
  destruct (decide (x = y)) as [->|Hne]; [by intros [= <-]|].
  destruct (index_of x l) as [j|]; [|done]. intros [= <-]. by apply IH.
Qed.

Lemma index_of_lookup {A} `{EqDecision A} (x : A) (l : list A) i :
  NoDup l → l !! i = Some x → index_of x l = Some i.
Proof.
  revert i. induction l as [|y l IH]; intros i Hnd Hi; [done|].
  apply NoDup_cons in Hnd as [Hy Hnd]. cbn [index_of]. destruct i as [|i]; cbn in Hi.
  - injection Hi as ->. by rewrite decide_True.
  - rewrite decide_False; [by rewrite (IH i)|].
    intros ->. by apply list_elem_of_lookup_2 in Hi.
Qed.

(** The grid points of the nodes of the graph that is built. *)
Lemma constructed_point D rate ages i l :
  i < length (dnodes D) → location_of (constructed_graph D rate ages) i = Ok l →
  ∃ pt, dnodes D !! i = Some pt ∧ l = (Z.of_nat pt.1, Z.of_nat pt.2).
Proof.
  intros Hi Hl. destruct (lookup_lt_is_Some_2 _ _ Hi) as [pt Hpt]. exists pt. split; [done|].
  rewrite (constructed_location D rate ages i pt Hpt) in Hl. by injection Hl.
Qed.

(** The nodes of the graph that [create_graph] builds sit on distinct points
    of the square grid whose side is the rounded-up square root of the
    population size. *)
Theorem create_graph_locations (ags : list (string * nat)) (rate : option float)
    (w w' : World) :
  Graph_create_graph ags rate w = Returned tt w' →
  ∃ G, graph (sim_graph w') = Some G ∧
       (∀ i, i ∈ nodes G →
             ∃ x y, location_of G i = Ok (x, y) ∧
                    (0 ≤ x < Z.of_nat (ceil_sqrt (sum_list ags.*2)))%Z ∧
                    (0 ≤ y < Z.of_nat (ceil_sqrt (sum_list ags.*2)))%Z) ∧
       ∀ i j l, i ∈ nodes G → j ∈ nodes G →
                location_of G i = Ok l → location_of G j = Ok l → i = j.
Proof.
  intros Hrun.
  destruct (Graph_create_graph_built ags rate w w' Hrun)
    as (cfg & D & g0 & g' & extra & r & r' & r3 & arr & _ & HD & _ & Hlen & Hnd & HG & _).
  apply navigable_small_world_graph_nodes in HD.
  eexists. split; [exact HG|]. rewrite constructed_nodes. split.
  - intros i [_ Hi]%elem_of_seq. rewrite Nat.add_0_l in Hi.
    destruct (lookup_lt_is_Some_2 _ _ Hi) as [[a b] Hpt].
    exists (Z.of_nat a), (Z.of_nat b).
    split; [by apply (constructed_location _ _ _ i (a, b))|].
    apply list_elem_of_lookup_2 in Hpt. cbn [remove_nodes_from dnodes] in Hpt.
    apply list_elem_of_filter in Hpt as [_ Hpt]. rewrite HD in Hpt.
    apply elem_of_grid_points in Hpt. lia.
  - intros i j l [_ Hi]%elem_of_seq [_ Hj]%elem_of_seq Hli Hlj.
    rewrite Nat.add_0_l in Hi, Hj.
    apply constructed_point in Hli as ([a b] & Hpi & ->); [|done].
    apply constructed_point in Hlj as ([a' b'] & Hpj & [= Ha Hb]); [|done].
    apply Nat2Z.inj in Ha, Hb. subst a' b'.
    by eapply NoDup_lookup.
Qed.

Lemma create_graph_locations_witness :
  ∃ G, graph (sim_graph example_built) = Some G ∧
       (∀ i, i ∈ nodes G →
             ∃ x y, location_of G i = Ok (x, y) ∧
                    (0 ≤ x < Z.of_nat (ceil_sqrt (sum_list [("(0, 9)", 3%nat)].*2)))%Z ∧
                    (0 ≤ y < Z.of_nat (ceil_sqrt (sum_list [("(0, 9)", 3%nat)].*2)))%Z) ∧
       ∀ i j l, i ∈ nodes G → j ∈ nodes G →
                location_of G i = Ok l → location_of G j = Ok l → i = j.
Proof.
  apply (create_graph_locations [("(0, 9)", 3)] (Some 0.5%float) example_unbuilt
           example_built).
  vm_compute. reflexivity.
Defined.

Lemma all_links_short grid todo p q r p1 e :
  p1 ∈ todo → e ∈ short_links grid p p1 → e ∈ (all_links grid todo p q r).1.
Proof.
  revert r. induction todo as [|p0 todo IH]; intros r Hp1 He; [by apply elem_of_nil in Hp1|].
  cbn [all_links]. destruct (long_links grid q p0 r) as [long r1].
  specialize (IH r1). destruct (all_links grid todo p q r1) as [rest r2]. cbn [fst] in *.
  apply elem_of_cons in Hp1 as [->|Hp1].
  - apply elem_of_app. by left.
  - apply elem_of_app. right. apply elem_of_app. right. by apply IH.
Qed.

(** An edge of the directed graph between two nodes becomes an edge of the
    relabelled graph. *)
Lemma convert_has_edge D e u v :
  e ∈ dedges D → index_of e.1 (dnodes D) = Some u → index_of e.2 (dnodes D) = Some v →
  is_Some (edges (convert_node_labels_to_integers D) !! edge_key u v).
Proof.
  unfold convert_node_labels_to_integers. cbn [edges]. intros He Hu Hv.
  induction (dedges D) as [|e' es IH]; [by apply elem_of_nil in He|]. cbn [foldr].
  apply elem_of_cons in He as [<-|He].
  - rewrite Hu, Hv, lookup_insert_eq. eauto.
  - destruct (index_of e'.1 (dnodes D)) as [u'|]; [|by apply IH].
    destruct (index_of e'.2 (dnodes D)) as [v'|]; [|by apply IH].
    destruct (decide (edge_key u' v' = edge_key u v)) as [->|Hne].
    + rewrite lookup_insert_eq. eauto.
    + rewrite lookup_insert_ne by done. by apply IH.
Qed.

Lemma convert_edge_ends D k d :
  edges (convert_node_labels_to_integers D) !! k = Some d →
  k.1 < length (dnodes D) ∧ k.2 < length (dnodes D).
Proof.
  unfold convert_node_labels_to_integers. cbn [edges].
  induction (dedges D) as [|e es IH]; cbn [foldr]; [by rewrite lookup_empty|].
  destruct (index_of e.1 (dnodes D)) as [u|] eqn:Hu; [|done].
  destruct (index_of e.2 (dnodes D)) as [v|] eqn:Hv; [|done].
  destruct (decide (edge_key u v = k)) as [<-|Hne]; [|by rewrite lookup_insert_ne].
  intros _. apply index_of_Some, lookup_lt_Some in Hu, Hv. unfold edge_key. cbn [fst snd].
  lia.
Qed.

(** The graph that [create_graph] builds is a simple graph on its nodes that
    contains the lattice: it has no self-loops, its edges join nodes of the
    graph, and any two distinct nodes whose grid points are within the short
    connection diameter of each other (in lattice distance) are joined by an
    edge. *)
Theorem create_graph_contains_lattice (ags : list (string * nat)) (rate : option float)
    (w w' : World) (cfg : GraphConfig) :
  graph_config (sim_graph w) = Some cfg →
  Graph_create_graph ags rate w = Returned tt w' →
  ∃ G, graph (sim_graph w') = Some G ∧
       (∀ u, has_edge G u u = false) ∧
       (∀ u v, has_edge G u v = true → u ∈ nodes G ∧ v ∈ nodes G) ∧
       ∀ i j li lj, i ∈ nodes G → j ∈ nodes G → i ≠ j →
                    location_of G i = Ok li → location_of G j = Ok lj →
                    (Z.abs (li.1 - lj.1) + Z.abs (li.2 - lj.2)
                     ≤ Z.of_nat (short_connection_diameter cfg))%Z →
                    has_edge G i j = true.
Proof.
  intros Hcfg Hrun.
  destruct (Graph_create_graph_built ags rate w w' Hrun)
    as (cfg' & D & g0 & g' & extra & r & r' & r3 & arr & Hcfg' & HD & _ & Hlen & Hnd & HG & _).
  rewrite Hcfg in Hcfg'. injection Hcfg' as <-.
  set (D' := remove_nodes_from D extra) in *.
  eexists. split; [exact HG|]. rewrite constructed_nodes.
  unfold has_edge, constructed_graph, set_node_age_groups, set_edge_weights, remove_selfloops.
  cbn [edges]. split; [|split].
  - intros u. apply bool_decide_eq_false. intros [d Hd].
    apply lookup_fmap_Some in Hd as (d0 & _ & Hd0).
    apply map_lookup_filter_Some in Hd0 as [_ Hloop]. unfold edge_key in Hloop.
    cbn [fst snd] in Hloop. lia.
  - intros u v [d Hd]%bool_decide_eq_true.
    apply lookup_fmap_Some in Hd as (d0 & _ & Hd0).
    apply map_lookup_filter_Some in Hd0 as [Hd0 _].
    apply convert_edge_ends in Hd0. unfold edge_key in Hd0. cbn [fst snd] in Hd0.
    rewrite !elem_of_seq. lia.
  - intros i j li lj [_ Hi]%elem_of_seq [_ Hj]%elem_of_seq Hij Hli Hlj Hdist.
    rewrite Nat.add_0_l in Hi, Hj.
    fold (constructed_graph D' rate
            (imap (λ i ag, (i, ag))
               (random_shuffle (ags ≫= λ gn, replicate gn.2 gn.1) r3).1)) in Hli, Hlj.
    apply constructed_point in Hli as ([a b] & Hpi & ->); [|done].
    apply constructed_point in Hlj as ([a' b'] & Hpj & ->); [|done].
    cbn [fst snd] in Hdist.
    assert ((a, b) ≠ (a', b')) as Hne.
    { intros Heq. rewrite <- Heq in Hpj. apply Hij. by eapply NoDup_lookup. }
    apply bool_decide_eq_true.
    destruct (convert_has_edge D' ((a, b), (a', b')) i j) as [d Hd].
    + cbn [D' remove_nodes_from dedges]. apply list_elem_of_filter. split.
      * apply list_elem_of_lookup_2 in Hpi, Hpj. cbn [D' remove_nodes_from dnodes] in Hpi, Hpj.
        apply list_elem_of_filter in Hpi as [Hpi _], Hpj as [Hpj _]. done.
      * unfold navigable_small_world_graph in HD.
        destruct (decide (short_connection_diameter cfg < 1)); [done|].
        destruct (decay cfg <? 0)%float; [done|].
        pose proof (all_links_short (grid_points (ceil_sqrt (sum_list ags.*2)))
                      (grid_points (ceil_sqrt (sum_list ags.*2)))
                      (short_connection_diameter cfg) (long_connection_diameter cfg) g0
                      (a, b) ((a, b), (a', b'))) as Hshort.
        destruct (all_links _ _ _ _ _) as [links g'']. injection HD as <- _. cbn [dedges].
        apply list_elem_of_lookup_2 in Hpi, Hpj. cbn [D' remove_nodes_from dnodes] in Hpi, Hpj.
        apply list_elem_of_filter in Hpi as [_ Hpi], Hpj as [_ Hpj]. cbn [dnodes] in Hpi, Hpj.
        apply Hshort; [done|]. unfold short_links. apply list_elem_of_fmap.
        exists (a', b'). split; [done|]. apply list_elem_of_filter. split; [|done].
        split; [done|]. unfold lattice_distance. cbn [fst snd]. lia.
    + by apply index_of_lookup.
    + by apply index_of_lookup.
    + rewrite lookup_fmap, map_lookup_filter, Hd. cbn.
      rewrite option_guard_True; [eauto|]. unfold edge_key. cbn [fst snd]. lia.
Qed.

Lemma create_graph_contains_lattice_witness :
  ∃ G, graph (sim_graph example_built) = Some G ∧
       (∀ u, has_edge G u u = false) ∧
       (∀ u v, has_edge G u v = true → u ∈ nodes G ∧ v ∈ nodes G) ∧
       ∀ i j li lj, i ∈ nodes G → j ∈ nodes G → i ≠ j →
                    location_of G i = Ok li → location_of G j = Ok lj →
                    (Z.abs (li.1 - lj.1) + Z.abs (li.2 - lj.2)
                     ≤ Z.of_nat (short_connection_diameter example_config))%Z →
                    has_edge G i j = true.
Proof.
  apply (create_graph_contains_lattice [("(0, 9)", 3)] (Some 0.5%float) example_unbuilt
           example_built example_config); [reflexivity|].
  vm_compute. reflexivity.
Defined.

(** ** Group interactions *)

Lemma edge_key_comm u v : edge_key u v = edge_key v u.
Proof. unfold edge_key. by rewrite Nat.min_comm, Nat.max_comm. Qed.

Lemma combinations2_elem {A} (l : list A) a b :
  (a, b) ∈ combinations2 l → a ∈ l ∧ b ∈ l.
Proof.
  induction l as [|x l IH]; cbn [combinations2]; [by intros ?%elem_of_nil|].
  intros [Hin|Hin]%elem_of_app.
  - apply list_elem_of_fmap in Hin as (y & [= -> ->] & Hy). split; [left|by right].
  - destruct (IH Hin). split; by right.
Qed.

Lemma combinations2_pairs {A} (l : list A) a b :
  a ∈ l → b ∈ l → a ≠ b → (a, b) ∈ combinations2 l ∨ (b, a) ∈ combinations2 l.
Proof.
  induction l as [|x l IH]; [by intros ?%elem_of_nil|]. cbn [combinations2].
  intros [->|Ha]%elem_of_cons [->|Hb]%elem_of_cons Hne; [done|..].
  - left. apply elem_of_app. left. apply list_elem_of_fmap. by exists b.
  - right. apply elem_of_app. left. apply list_elem_of_fmap. by exists a.
  - destruct (IH Ha Hb Hne); [left|right]; apply elem_of_app; by right.
Qed.

Lemma _add_new_interaction_edge_runs pair w G :
  graph (sim_graph w) = Some G →
  _add_new_interaction_edge pair w
  = Returned tt
      (if has_edge G pair.1 pair.2 then w
       else with_graph
              (with_nx (add_edge G pair.1 pair.2
                          (interaction_data (infection_rate (sim_graph w))))
                 (sim_graph w)) w).
Proof.
  intros HG. unfold _add_new_interaction_edge.
  erewrite bind_runs by (by apply the_graph_returned).
  erewrite bind_runs by reflexivity. by destruct (has_edge G pair.1 pair.2).
Qed.

(** Adding the interaction edges of a list of pairs: every pair is joined
    afterwards, the edges that were there are untouched, and every other edge
    is a new interaction edge of one of the pairs. *)
Lemma add_interaction_edges_runs (pairs : list (nat * nat)) w G :
  graph (sim_graph w) = Some G →
  ∃ w' G',
    for_each pairs _add_new_interaction_edge w = Returned tt w' ∧
    graph (sim_graph w') = Some G' ∧
    infection_rate (sim_graph w') = infection_rate (sim_graph w) ∧
    close_nodes_arr (sim_graph w') = close_nodes_arr (sim_graph w) ∧
    rng w' = rng w ∧ states_dict w' = states_dict w ∧
    (∀ p, p ∈ pairs → has_edge G' p.1 p.2 = true) ∧
    (∀ k d, edges G !! k = Some d → edges G' !! k = Some d) ∧
    (∀ k d, edges G' !! k = Some d →
            edges G !! k = Some d ∨
            d = interaction_data (infection_rate (sim_graph w)) ∧
            ∃ p, p ∈ pairs ∧ k = edge_key p.1 p.2).
Proof.
  revert w G. induction pairs as [|p pairs IH]; intros w G HG.
  - exists w, G. split; [done|]. split; [done|]. do 4 (split; [done|]).
    split; [by intros p ?%elem_of_nil|]. split; [done|]. intros k d Hd. by left.
  - cbn [for_each]. erewrite bind_runs by (by apply _add_new_interaction_edge_runs).
    destruct (has_edge G p.1 p.2) eqn:Hhas.
    + destruct (IH w G HG) as (w' & G' & Hrun & HG' & Hrate & Harr & Hrng & Hsd & Hall & Hold & Hnew).
      exists w', G'. split; [exact Hrun|].
      split; [done|]. do 4 (split; [done|]). split; [|split; [done|]].
      * intros q [->|Hq]%elem_of_cons; [|by apply Hall].
        apply bool_decide_eq_true. apply bool_decide_eq_true in Hhas as [d Hd]. eauto.
      * intros k d Hd. destruct (Hnew k d Hd) as [?|(-> & q & Hq & ->)]; [by left|right].
        split; [done|]. exists q. split; [by right|done].
    + set (G1 := add_edge G p.1 p.2 (interaction_data (infection_rate (sim_graph w)))).
      destruct (IH (with_graph (with_nx G1 (sim_graph w)) w) G1 eq_refl)
        as (w' & G' & Hrun & HG' & Hrate & Harr & Hrng & Hsd & Hall & Hold & Hnew).
      exists w', G'. split; [exact Hrun|].
      split; [done|]. do 4 (split; [done|]).
      assert (edges G1 = <[edge_key p.1 p.2 := interaction_data (infection_rate (sim_graph w))]>
                           (edges G)) as HG1.
      { unfold G1, add_edge. cbn [edges]. by rewrite !add_node_edges. }
      apply bool_decide_eq_false in Hhas.
      split; [|split].
      * intros q [->|Hq]%elem_of_cons; [|by apply Hall].
        apply bool_decide_eq_true. eexists. apply Hold. by rewrite HG1, lookup_insert_eq.
      * intros k d Hd. apply Hold. rewrite HG1, lookup_insert_ne; [done|].
        intros <-. apply Hhas. eauto.
      * intros k d Hd. destruct (Hnew k d Hd) as [Hk|(-> & q & Hq & ->)].
        -- rewrite HG1 in Hk. destruct (decide (edge_key p.1 p.2 = k)) as [<-|Hne].
           ++ rewrite lookup_insert_eq in Hk. injection Hk as <-. right. split; [done|].
              exists p. split; [left|done].
           ++ rewrite lookup_insert_ne in Hk by done. by left.
        -- right. split; [done|]. exists q. split; [by right|done].
Qed.

(** A group interaction other than food shopping never fails for want of
    people: a group size larger than the number of other nodes is cut down to
    it.  The members are drawn from the other nodes, and afterwards the node
    and the members are joined to each other, pair by pair.  Edges that were
    there are untouched; every new edge is an interaction edge between two
    of the group that carries the infection rate. *)
Theorem group_interaction_connects_group (behaviour : string) (node : nat)
    (other_nodes : list nat) (group_size : nat) (w : World) (G : nxGraph) :
  behaviour ≠ "food_shopping" →
  graph (sim_graph w) = Some G →
  ∃ w' G' new_group,
    set_group_interaction_edges behaviour node other_nodes group_size w = Returned tt w' ∧
    graph (sim_graph w') = Some G' ∧
    length new_group = group_size `min` length other_nodes ∧
    (∀ x, x ∈ new_group → x ∈ other_nodes) ∧
    (∀ a b, a ∈ node :: new_group → b ∈ node :: new_group → a ≠ b →
            has_edge G' a b = true) ∧
    (∀ k d, edges G !! k = Some d → edges G' !! k = Some d) ∧
    (∀ k d, edges G' !! k = Some d →
            edges G !! k = Some d ∨
            d = {| weight := infection_rate (sim_graph w); interaction_edge := true |} ∧
            ∃ a b, a ∈ node :: new_group ∧ b ∈ node :: new_group ∧ k = edge_key a b).
Proof.
  intros Hb HG. unfold set_group_interaction_edges.
  rewrite !decide_False by done.
  erewrite bind_runs by reflexivity.
  set (size := if decide (group_size ≤ length other_nodes) then group_size
               else length other_nodes).
  assert (size = group_size `min` length other_nodes) as Hsize.
  { unfold size. destruct (decide _); lia. }
  assert (size ≤ length other_nodes) as Hle by lia.
  destruct (pick_without_replacement other_nodes size (rng w)) as [new_group r'] eqn:Hpick.
  assert (random_sample other_nodes size (rng w) = Ok (new_group, r')) as Hsample.
  { unfold random_sample. by rewrite decide_True, Hpick. }
  erewrite bind_runs by (apply with_random_result_returned; eauto).
  cbv beta zeta. rewrite decide_False by done.
  destruct (add_interaction_edges_runs (combinations2 (new_group ++ [node])) (with_rng r' w) G HG)
    as (w' & G' & Hrun & HG' & _ & _ & _ & _ & Hall & Hold & Hnew).
  exists w', G', new_group. split; [exact Hrun|]. split; [done|].
  destruct (pick_without_replacement_perm other_nodes size (rng w) Hle) as [Hlen _].
  rewrite Hpick in Hlen. split; [by rewrite <- Hsize|].
  split; [by eapply random_sample_subset|].
  assert (∀ a, a ∈ node :: new_group ↔ a ∈ new_group ++ [node]) as Hmem.
  { intros a. rewrite elem_of_cons, elem_of_app, list_elem_of_singleton. tauto. }
  split; [|split; [done|]].
  - intros a b Ha%Hmem Hb'%Hmem Hne.
    destruct (combinations2_pairs _ a b Ha Hb' Hne) as [Hin|Hin].
    + apply (Hall (a, b) Hin).
    + unfold has_edge. rewrite edge_key_comm. apply (Hall (b, a) Hin).
  - intros k d Hd. destruct (Hnew k d Hd) as [?|(-> & [a b] & Hp & ->)]; [by left|right].
    split; [done|]. apply combinations2_elem in Hp as [Ha Hb']. exists a, b.
    split; [by apply Hmem|]. split; [by apply Hmem|done].
Qed.

Lemma group_interaction_connects_group_witness :
  ∃ w' G' new_group,
    set_group_interaction_edges "party" 0 [1; 2; 3; 4] 9 example_world = Returned tt w' ∧
    graph (sim_graph w') = Some G' ∧
    length new_group = 9 `min` length [1; 2; 3; 4] ∧
    (∀ x, x ∈ new_group → x ∈ [1; 2; 3; 4]) ∧
    (∀ a b, a ∈ 0 :: new_group → b ∈ 0 :: new_group → a ≠ b → has_edge G' a b = true) ∧
    (∀ k d, edges example_nx !! k = Some d → edges G' !! k = Some d) ∧
    (∀ k d, edges G' !! k = Some d →
            edges example_nx !! k = Some d ∨
            d = {| weight := infection_rate (sim_graph example_world);
                   interaction_edge := true |} ∧
            ∃ a b, a ∈ 0 :: new_group ∧ b ∈ 0 :: new_group ∧ k = edge_key a b).
Proof.
  apply (group_interaction_connects_group "party" 0 [1; 2; 3; 4] 9 example_world example_nx);
    [discriminate|reflexivity].
Defined.

Lemma nonzero_elem (row : list float) j :
  j ∈ nonzero row ↔ ∃ x, row !! j = Some x ∧ (x =? 0)%float = false.
Proof.
  unfold nonzero. rewrite list_elem_of_fmap. split.
  - intros ([i x] & -> & [Hx Hin]%list_elem_of_filter). cbn in *.
    apply list_elem_of_lookup in Hin as [k Hk]. rewrite list_lookup_imap in Hk.
    destruct (row !! k) as [y|] eqn:Hy; [|done]. injection Hk as <- <-. eauto.
  - intros (x & Hj & Hx). exists (j, x). split; [done|]. apply list_elem_of_filter.
    split; [done|]. apply list_elem_of_lookup. exists j. by rewrite list_lookup_imap, Hj.
Qed.

(** Food shopping ignores the other nodes it is given and meets close nodes
    only: the partners are drawn from the nodes whose entry in the row of the
    node in the closeness array is not zero, as many as the group size asks
    for or as there are, and each is joined to the node.  Edges that were
    there are untouched; every new edge is an interaction edge between the
    node and one of the partners. *)
Theorem food_shopping_meets_close_nodes (node : nat) (other_nodes : list nat)
    (group_size : nat) (w : World) (G : nxGraph) (arr : list (list float))
    (row : list float) :
  graph (sim_graph w) = Some G →
  close_nodes_arr (sim_graph w) = Some arr → arr !! node = Some row →
  ∃ w' G' new_group,
    set_group_interaction_edges "food_shopping" node other_nodes group_size w
    = Returned tt w' ∧
    graph (sim_graph w') = Some G' ∧
    length new_group = group_size `min` length (nonzero row) ∧
    (∀ j, j ∈ new_group → ∃ x, row !! j = Some x ∧ (x =? 0)%float = false) ∧
    (∀ j, j ∈ new_group → has_edge G' node j = true) ∧
    (∀ k d, edges G !! k = Some d → edges G' !! k = Some d) ∧
    (∀ k d, edges G' !! k = Some d →
            edges G !! k = Some d ∨
            d = {| weight := infection_rate (sim_graph w); interaction_edge := true |} ∧
            ∃ j, j ∈ new_group ∧ k = edge_key node j).
Proof.
  intros HG Harr Hrow. unfold set_group_interaction_edges.
  rewrite !decide_True by done.
  erewrite bind_runs; [|erewrite bind_runs by reflexivity;
                        erewrite bind_runs by (rewrite Harr; reflexivity);
                        erewrite bind_runs by (rewrite Hrow; reflexivity); reflexivity].
  set (close := nonzero row).
  set (size := if decide (group_size ≤ length close) then group_size else length close).
  assert (size = group_size `min` length close) as Hsize.
  { unfold size. destruct (decide _); lia. }
  assert (size ≤ length close) as Hle by lia.
  destruct (pick_without_replacement close size (rng w)) as [new_group r'] eqn:Hpick.
  assert (random_sample close size (rng w) = Ok (new_group, r')) as Hsample.
  { unfold random_sample. by rewrite decide_True, Hpick. }
  erewrite bind_runs by (apply with_random_result_returned; eauto).
  cbv beta zeta. rewrite decide_True by done.
  destruct (add_interaction_edges_runs ((λ neighbour, (node, neighbour)) <$> new_group)
              (with_rng r' w) G HG)
    as (w' & G' & Hrun & HG' & _ & _ & _ & _ & Hall & Hold & Hnew).
  exists w', G', new_group. split; [exact Hrun|]. split; [done|].
  destruct (pick_without_replacement_perm close size (rng w) Hle) as [Hlen _].
  rewrite Hpick in Hlen. split; [by rewrite <- Hsize|]. split; [|split; [|split; [done|]]].
  - intros j Hj. apply nonzero_elem. by eapply random_sample_subset.
  - intros j Hj. apply (Hall (node, j)). apply list_elem_of_fmap. by exists j.
  - intros k d Hd. destruct (Hnew k d Hd) as [?|(-> & p & Hp & ->)]; [by left|right].
    split; [done|]. apply list_elem_of_fmap in Hp as (j & -> & Hj). by exists j.
Qed.

Lemma food_shopping_meets_close_nodes_witness :
  ∃ w' G' new_group,
    set_group_interaction_edges "food_shopping" 0 [] 5 example_built = Returned tt w' ∧
    graph (sim_graph w') = Some G' ∧
    length new_group = 5 `min` length (nonzero example_row) ∧
    (∀ j, j ∈ new_group → ∃ x, example_row !! j = Some x ∧ (x =? 0)%float = false) ∧
    (∀ j, j ∈ new_group → has_edge G' 0 j = true) ∧
    (∀ k d, edges example_built_nx !! k = Some d → edges G' !! k = Some d) ∧
    (∀ k d, edges G' !! k = Some d →
            edges example_built_nx !! k = Some d ∨
            d = {| weight := infection_rate (sim_graph example_built);
                   interaction_edge := true |} ∧
            ∃ j, j ∈ new_group ∧ k = edge_key 0 j).
Proof.
  apply (food_shopping_meets_close_nodes 0 [] 5 example_built example_built_nx
           (default [] (close_nodes_arr (sim_graph example_built))) example_row);
    vm_compute; reflexivity.
Defined.

(** ** The Chebyshev distance *)

(** [_calculate_chebyshev_dist] is a metric on grid locations, and its balls
    are squares: two locations are within distance [t] exactly when both of
    their coordinates are, so diagonal neighbours are as close as adjacent
    ones. *)
Theorem chebyshev_dist_is_a_metric (a b c : Z * Z) (t : Z) :
  (0 ≤ _calculate_chebyshev_dist a b)%Z ∧
  (_calculate_chebyshev_dist a b = 0%Z ↔ a = b) ∧
  _calculate_chebyshev_dist a b = _calculate_chebyshev_dist b a ∧
  (_calculate_chebyshev_dist a c
   ≤ _calculate_chebyshev_dist a b + _calculate_chebyshev_dist b c)%Z ∧
  ((_calculate_chebyshev_dist a b ≤ t)%Z ↔
   (Z.abs (a.1 - b.1) ≤ t)%Z ∧ (Z.abs (a.2 - b.2) ≤ t)%Z).
Proof.
  destruct a as [a1 a2], b as [b1 b2], c as [c1 c2]. unfold _calculate_chebyshev_dist.
  cbn [fst snd]. split; [lia|]. split; [|split; [lia|split; [lia|lia]]].
  split; [|intros [= -> ->]; lia]. intros H. f_equal; lia.
Qed.

(** ** The series of a single run *)

Lemma get_results_entries (w : World) (T : nat) :
  time_horizon (sim_graph w) = Some T →
  (∀ t, t ≤ T → is_Some (states_dict w !! t)) →
  ∃ results, get_results w = Returned results w ∧
    ∀ state, state ∈ STATES →
      ∃ l, results !! state = Some l ∧
           ∀ k, k < (T + 6) / 7 →
                l !! k = Some (count_state (default ∅ (states_dict w !! (1 + 7 * k))) state).
Proof.
  intros HT Hrows. unfold get_results.
  erewrite bind_runs by reflexivity. erewrite bind_runs by (rewrite HT; reflexivity).
  edestruct (get_results_loop_returns (py_range 1 (T + 1) 7)) as (results & Hrun & Hres).
  2:{ exists results. split; [exact Hrun|]. intros state Hstate.
      rewrite Hres, empty_output_lookup by done. cbn [fmap option_fmap option_map app].
      eexists. split; [reflexivity|]. intros k Hk.
      unfold py_range. rewrite <- list_fmap_compose, list_lookup_fmap.
      replace (T + 1 - 1 + (7 - 1)) with (T + 6) by lia.
      by rewrite lookup_seq_lt by done. }
  intros step Hstep. apply Hrows. unfold py_range in Hstep.
  apply list_elem_of_fmap in Hstep as (k & -> & Hk). apply elem_of_seq in Hk.
  assert (7 * k + 7 ≤ T + 1 - 1 + (7 - 1)); [|lia].
  pose proof (Nat.Div0.mul_div_le (T + 1 - 1 + (7 - 1)) 7). lia.
Qed.

Lemma map_result_all_ok {A B} (f : A → result B) (g : A → B) (l : list A) :
  (∀ x, x ∈ l → f x = Ok (g x)) → map_result f l = Ok (g <$> l).
Proof.
  induction l as [|x l IH]; intros Hf; [done|]. cbn [map_result].
  rewrite (Hf x) by left. cbn. rewrite IH by (intros y Hy; apply Hf; by right). done.
Qed.

(** Every reporting step of a single run accounts for the whole population:
    the series has an entry for each of the [ceil(time_horizon / 7)] steps,
    and at each of them the counts of the 7 compartments add up to the number
    of nodes of the graph.  The graph is the one of the simulation (no new
    graph per run); the transition table is assumed to name only compartments
    as targets. *)
Theorem run_single_conserves_population (w w' : World) (results : gmap string (list Z))
    (G : nxGraph) (T : nat) :
  new_graph_per_run w = false →
  graph (sim_graph w) = Some G → nx_wf G →
  time_horizon (sim_graph w) = Some T →
  valid_targets (sim_params w) →
  run_single w = Returned results w' →
  ∀ k, k < (T + 6) / 7 →
       ∃ vals, step_counts results k = Ok vals ∧
               foldr Z.add 0%Z vals = Z.of_nat (length (nodes G)).
Proof.
  intros Hnew HG Hwf HT Hvalid Hrun k Hk. unfold run_single in Hrun.
  apply bind_returned in Hrun as (w0 & w1 & [= <- <-] & Hrun). rewrite Hnew in Hrun.
  apply bind_returned in Hrun as ([] & w1 & [= <-] & Hrun).
  apply bind_returned in Hrun as ([] & w1 & Hsim & Hrun).
  destruct (basic_simulation_timeline_inv w w1 G T HG Hwf HT Hvalid Hsim)
    as (p & _ & _ & _ & (HT1 & _) & Hrows & _).
  destruct (get_results_entries w1 T) as (results' & Hres & Hentries).
  { by rewrite HT1. }
  { intros t Ht. destruct (Hrows t Ht) as (row & -> & _). eauto. }
  rewrite Hres in Hrun. injection Hrun as <- <-.
  assert (1 + 7 * k ≤ T) as Hstep.
  { pose proof (Nat.Div0.mul_div_le (T + 6) 7). lia. }
  destruct (Hrows (1 + 7 * k) Hstep) as (row & Hrow & Hcover).
  exists (compartment_counts row). split.
  - unfold step_counts, compartment_counts. apply map_result_all_ok.
    intros state Hstate. destruct (Hentries state Hstate) as (l & Hl & Hlk).
    unfold averaged_at. by rewrite Hl, (Hlk k Hk), Hrow.
  - apply covers_counts; [apply Hwf|done].
Qed.

Lemma run_single_conserves_population_witness :
  ∃ vals, step_counts (default ∅ (returned (run_single example_world))) 0 = Ok vals ∧
          foldr Z.add 0%Z vals = Z.of_nat (length (nodes example_nx)).
Proof.
  apply (run_single_conserves_population example_world (final_world (run_single example_world))
           (default ∅ (returned (run_single example_world))) example_nx 7);
    [reflexivity|reflexivity|apply example_nx_wf|reflexivity|apply example_valid_targets
    |vm_compute; reflexivity|vm_compute; lia].
Defined.

(** ** Planning the visits of a week *)

Lemma add_node_keeps G u n :
  n ∈ nodes G → n ∈ nodes (add_node G u) ∧ node_data (add_node G u) !! n = node_data G !! n.
Proof.
  intros Hn. unfold add_node. destruct (decide (u ∈ nodes G)) as [|Hu]; [done|].
  cbn [nodes node_data]. split; [apply elem_of_app; by left|].
  rewrite lookup_insert_ne; [done|]. by intros ->.
Qed.

Lemma add_edge_keeps G u v attr n :
  n ∈ nodes G →
  n ∈ nodes (add_edge G u v attr) ∧ node_data (add_edge G u v attr) !! n = node_data G !! n.
Proof.
  intros Hn. unfold add_edge. cbn [nodes node_data].
  destruct (add_node_keeps G u n Hn) as [Hn1 Hd1].
  destruct (add_node_keeps (add_node G u) v n Hn1) as [Hn2 Hd2]. split; [done|congruence].
Qed.

Lemma _add_new_interaction_edge_keeps pair n d w w' :
  node_keeps n d w → _add_new_interaction_edge pair w = Returned tt w' → node_keeps n d w'.
Proof.
  intros (G & HG & Hn & Hd) Hrun.
  rewrite (_add_new_interaction_edge_runs pair w G HG) in Hrun. injection Hrun as <-.
  destruct (has_edge G pair.1 pair.2); [by exists G|].
  eexists. split; [reflexivity|]. 
  destruct (add_edge_keeps G pair.1 pair.2
              (interaction_data (infection_rate (sim_graph w))) n Hn) as [Hn' Hd'].
  split; [done|]. by rewrite Hd'.
Qed.

Lemma set_group_interaction_edges_keeps behaviour node other_nodes group_size n d w w' :
  node_keeps n d w →
  set_group_interaction_edges behaviour node other_nodes group_size w = Returned tt w' →
  node_keeps n d w'.
Proof.
  intros Hkeep Hrun. unfold set_group_interaction_edges in Hrun.
  apply bind_returned in Hrun as (others & w1 & Hothers & Hrun).
  assert (w1 = w) as ->.
  { destruct (decide (behaviour = "food_shopping")).
    - apply bind_returned in Hothers as (w0 & w2 & [= <- <-] & Hothers).
      apply bind_returned in Hothers as (arr & w2 & Harr & Hothers).
      apply from_option_returned in Harr as [_ <-].
      apply bind_returned in Hothers as (row & w2 & Hrow & Hothers).
      apply from_option_returned in Hrow as [_ <-]. by injection Hothers.
    - by injection Hothers. }
  apply bind_returned in Hrun as (new_group & w1 & Hsample & Hrun).
  apply with_random_result_returned in Hsample as (r & _ & ->).
  revert Hrun. apply (for_each_returned (λ _, node_keeps n d)); [|done].
  intros done x rest w1 w2 _ Hk Hx. by eapply _add_new_interaction_edge_keeps.
Qed.

(** On the first day of a week [_add_interactions] plans the week of the
    node: for every behaviour it chooses as many distinct weekdays (numbers
    below 7) as the behaviour has visits, and the interactions it then adds
    leave the plan in place.  So it can only return when no behaviour asks for
    more than 7 visits. *)
Theorem add_interactions_plans_the_week (node : nat) (w w' : World) (G : nxGraph)
    (d0 : NodeData) (bd : list (string * Behaviour)) :
  graph (sim_graph w) = Some G → node ∈ nodes G → node_data G !! node = Some d0 →
  behaviours_dict (sim_params w) = Some bd → NoDup bd.*1 →
  curr_time w `mod` 7 = 0 →
  _add_interactions node w = Returned tt w' →
  ∃ G' d,
    graph (sim_graph w') = Some G' ∧ node_data G' !! node = Some d ∧
    ∀ name b, (name, b) ∈ bd →
      visits b ≤ 7 ∧
      ∃ days, visit_days d !! name = Some days ∧ length days = visits b ∧
              NoDup days ∧ ∀ day, day ∈ days → day < 7.
Proof.
  intros HG Hnode Hd0 Hbd Hnd Hweek Hrun. unfold _add_interactions in Hrun.
  apply bind_returned in Hrun as (w0 & w1 & [= <- <-] & Hrun).
  apply bind_returned in Hrun as (G0 & w1 & HG0 & Hrun).
  apply the_graph_returned in HG0 as [HG0 <-]. rewrite HG in HG0. injection HG0 as <-.
  apply bind_returned in Hrun as (bd0 & w1 & Hbd0 & Hrun).
  apply from_option_returned in Hbd0 as [Hbd0 <-]. rewrite Hbd in Hbd0. injection Hbd0 as <-.
  apply bind_returned in Hrun as ([] & w1 & Hplan & Hrun).
  rewrite decide_True in Hplan by done.
  set (good := λ (b : Behaviour) (days : list nat),
         length days = visits b ∧ NoDup days ∧ ∀ day, day ∈ days → day < 7).
  assert (∃ d1, node_keeps node d1 w1 ∧
                ∀ name b, (name, b) ∈ bd →
                          ∃ days, visit_days d1 !! name = Some days ∧ good b days)
    as (d1 & Hkeep1 & Hdays).
  { pose (I := λ (done : list (string * Behaviour)) (w1 : World),
      ∃ d1, node_keeps node d1 w1 ∧
            ∀ name b, (name, b) ∈ done →
                      ∃ days, visit_days d1 !! name = Some days ∧ good b days).
    apply (for_each_returned I bd _ w w1) in Hplan; [exact Hplan| |].
    - intros done [name b] rest wa wb Hl (da & (Ga & HGa & Hna & Hda) & Hdone) Hx. unfold I.
      apply bind_returned in Hx as (chosen & wc & Hsample & Hx).
      apply with_random_result_returned in Hsample as (r & Hsample & ->).
      cbn [fst snd] in *. unfold set_visit_days in Hx.
      apply bind_returned in Hx as (Gc & wc & HGc & Hx).
      apply the_graph_returned in HGc as [HGc <-]. cbn in HGc. rewrite HGa in HGc.
      injection HGc as <-.
      apply bind_returned in Hx as (dc & wc & Hdc & Hx).
      apply from_option_returned in Hdc as [Hdc <-]. rewrite Hda in Hdc.
      injection Hdc as <-. injection Hx as <-.
      eexists. split.
      + eexists. split; [reflexivity|]. cbn [nodes node_data]. split; [done|].
        by rewrite lookup_insert_eq.
      + cbn [visit_days]. intros name' b' [Hin|Hin]%elem_of_app.
        * destruct (Hdone name' b' Hin) as (days & Hdays & Hgood).
          exists days. split; [|done]. rewrite lookup_insert_ne; [done|].
          intros <-. rewrite Hl, fmap_app, fmap_cons in Hnd.
          apply NoDup_app in Hnd as (_ & Hnot & _). apply (Hnot name).
          -- apply list_elem_of_fmap. by exists (name, b').
          -- left.
        * apply list_elem_of_singleton in Hin as [= -> ->].
          exists chosen. rewrite lookup_insert_eq. split; [done|].
          destruct (random_sample_NoDup _ _ _ _ _ (NoDup_seq 0 7) Hsample) as [? ?].
          split; [done|]. split; [done|]. intros day Hday.
          apply (random_sample_subset _ _ _ _ _ Hsample) in Hday.
          apply elem_of_seq in Hday. lia.
    - exists d0. split; [by exists G|]. by intros name b ?%elem_of_nil. }
  assert (node_keeps node d1 w') as (G' & HG' & _ & Hd').
  { apply (for_each_returned (λ _, node_keeps node d1) bd _ w1 w') in Hrun; [done| |done].
    intros done [name b] rest wa wb _ Hk Hx.
    apply bind_returned in Hx as (Ga & wc & HGa & Hx).
    apply the_graph_returned in HGa as [HGa <-].
    apply bind_returned in Hx as (da & wc & Hda & Hx).
    apply from_option_returned in Hda as [Hda <-].
    apply bind_returned in Hx as (days & wc & Hdays' & Hx).
    apply from_option_returned in Hdays' as [Hdays' <-].
    destruct (decide _); [by eapply set_group_interaction_edges_keeps|].
    by injection Hx as <-. }
  exists G', d1. split; [done|]. split; [done|].
  intros name b Hin. destruct (Hdays name b Hin) as (days & Hlook & Hlen & Hnodup & Hlt).
  split; [|by exists days].
  assert (length days ≤ length (seq 0 7)) as Hle.
  { apply submseteq_length, NoDup_submseteq; [done|].
    intros day Hday. apply elem_of_seq. specialize (Hlt day Hday). lia. }
  rewrite length_seq in Hle. lia.
Qed.

Lemma add_interactions_plans_the_week_witness :
  ∃ G' d,
    graph (sim_graph (final_world (_add_interactions 0 example_seeded))) = Some G' ∧
    node_data G' !! 0 = Some d ∧
    ∀ name b, (name, b) ∈ [("party", {| visits := 7; num_people := 2 |})] →
      visits b ≤ 7 ∧
      ∃ days, visit_days d !! name = Some days ∧ length days = visits b ∧
              NoDup days ∧ ∀ day, day ∈ days → day < 7.
Proof.
  apply (add_interactions_plans_the_week 0 example_seeded
           (final_world (_add_interactions 0 example_seeded)) example_nx example_node
           [("party", {| visits := 7; num_people := 2 |})]);
    [reflexivity|apply list_elem_of_here|reflexivity|reflexivity| |reflexivity
    |vm_compute; reflexivity].
  apply NoDup_singleton.
Defined.

(** ** Setting the community *)

(** [set_community] fails in three ways.  Without community data, and for a
    community that is not in the data, it raises an exception with a message
    and changes nothing.  For a community whose data has no age structure it
    raises KeyError after it has stored the name: the object then names the
    new community while its age structure and population size are still the
    old ones. *)
Theorem set_community_failures (c : string) (p : ParamsObject) :
  (community_data p = None →
   set_community c p = PRaised (Exception "Please load the community data first.") p) ∧
  (∀ data, community_data p = Some data → data !! c = None →
     set_community c p
     = PRaised (Exception ("Community " +:+ c +:+ " not found in the community data")) p) ∧
  (∀ data, community_data p = Some data → data !! c = Some None →
     ∃ p', set_community c p = PRaised KeyError p' ∧
           community p' = Some c ∧ base p' = base p ∧ community_data p' = community_data p).
Proof.
  unfold set_community. split; [|split].
  - by intros ->.
  - by intros data -> ->.
  - intros data -> ->. eexists. split; [reflexivity|]. done.
Qed.



(** ** Behaviour variants *)

Lemma append_empty (s : string) : "" +:+ s = s.
Proof. reflexivity. Qed.

Lemma append_String c (a b : string) : String c a +:+ b = String c (a +:+ b).
Proof. reflexivity. Qed.

Lemma py_split_nonempty sep s : py_split sep s ≠ [].
Proof.
  destruct s as [|c s]; cbn; [done|]. destruct (decide (c = sep)); [done|].
  by destruct (py_split sep s).
Qed.

Lemma py_split_app sep s1 s2 :
  py_split sep (s1 +:+ String sep s2) = py_split sep s1 ++ py_split sep s2.
Proof.
  induction s1 as [|c s1 IH]; rewrite ?append_empty, ?append_String; cbn [py_split].
  - cbn [app]. by destruct (decide (sep = sep)).
  - rewrite IH. destruct (decide (c = sep)); [done|].
    pose proof (py_split_nonempty sep s1). by destruct (py_split sep s1).
Qed.

Lemma concat_two sep (x y : string) l :
  String.concat sep (x :: y :: l) = x +:+ sep +:+ String.concat sep (y :: l).
Proof. reflexivity. Qed.

(** Joining the pieces of a split gives the string back. *)
Lemma join_py_split sep s : String.concat (String sep "") (py_split sep s) = s.
Proof.
  induction s as [|c s IH]; [done|]. cbn [py_split].
  pose proof (py_split_nonempty sep s) as Hne.
  destruct (py_split sep s) as [|piece pieces]; [done|].
  destruct (decide (c = sep)) as [->|_].
  - by rewrite concat_two, IH, append_empty, append_String, append_empty.
  - destruct pieces as [|piece' pieces].
    + cbn [String.concat] in *. by rewrite IH.
    + rewrite concat_two in *. by rewrite append_String, IH.
Qed.

Lemma py_split_whole sep s : sep ∉ chars s → py_split sep s = [s].
Proof.
  induction s as [|c s IH]; [done|]. cbn [chars py_split]. intros Hnot.
  rewrite decide_False by (intros ->; apply Hnot; left).
  rewrite IH; [done|]. intros ?. apply Hnot. by right.
Qed.

Lemma digits_of_uint d : Forall is_digit (chars (DecimalString.NilEmpty.string_of_uint d)).
Proof.
  induction d; cbn; [constructor|..]; (constructor; [|done]);
    unfold is_digit; cbn; repeat (first [apply list_elem_of_here | apply list_elem_of_further]).
Qed.

Lemma strip_digits s : Forall is_digit (chars s) → rstrip (lstrip s) = s.
Proof.
  intros Hs.
  assert (∀ c, is_digit c → is_space c = false) as Hspace.
  { intros c Hc. unfold is_digit in Hc. cbn in Hc.
    repeat (apply elem_of_cons in Hc as [->|Hc]; [done|]). by apply elem_of_nil in Hc. }
  assert (lstrip s = s) as ->.
  { destruct s as [|c s]; [done|]. cbn. apply Forall_cons in Hs as [Hc _].
    by rewrite (Hspace c Hc). }
  induction s as [|c s IH]; [done|]. cbn [chars] in Hs. apply Forall_cons in Hs as [Hc Hs].
  cbn [rstrip]. rewrite (IH Hs). destruct s; [|done]. by rewrite (Hspace c Hc).
Qed.

Lemma py_int_digits d :
  d ≠ Decimal.Nil → py_int (DecimalString.NilEmpty.string_of_uint d) = Ok (Z.of_uint d).
Proof.
  intros Hd. unfold py_int. rewrite strip_digits by apply digits_of_uint.
  pose proof (DecimalString.NilZero.usu d Hd) as Husu.
  pose proof (digits_of_uint d) as Hdigits.
  assert (DecimalString.NilZero.string_of_uint d = DecimalString.NilEmpty.string_of_uint d)
    as Heq by (by destruct d).
  rewrite Heq in Husu.
  destruct (DecimalString.NilEmpty.string_of_uint d) as [|c s] eqn:Hs; [done|].
  cbn [chars] in Hdigits. apply Forall_cons in Hdigits as [Hc _].
  unfold is_digit in Hc. cbn in Hc.
  repeat (apply elem_of_cons in Hc as [->|Hc]; [by rewrite Husu|]). by apply elem_of_nil in Hc.
Qed.

(** Round trip of [str] and [int] on the natural numbers. *)
Lemma py_int_py_str (n : nat) : py_int (py_str (Z.of_nat n)) = Ok (Z.of_nat n).
Proof.
  unfold py_str. pose proof (DecimalZ.of_to (Z.of_nat n)) as Hof.
  destruct (Z.of_nat n) as [|p|p] eqn:Hn; [done| |lia].
  cbn [Z.to_int DecimalString.NilZero.string_of_int] in *.
  assert (Pos.to_uint p ≠ Decimal.Nil) as Hnil by apply DecimalPos.Unsigned.to_uint_nonnil.
  assert (DecimalString.NilZero.string_of_uint (Pos.to_uint p)
          = DecimalString.NilEmpty.string_of_uint (Pos.to_uint p)) as ->
    by (by destruct (Pos.to_uint p)).
  rewrite py_int_digits by done. by rewrite <- Hof.
Qed.

Lemma py_str_no_underscore (n : nat) : "_"%char ∉ chars (py_str (Z.of_nat n)).
Proof.
  unfold py_str. destruct (Z.of_nat n) as [|p|p] eqn:Hn; [|  |lia].
  - cbn. intros H. repeat (apply elem_of_cons in H as [?|H]; [done|]). by apply elem_of_nil in H.
  - cbn [Z.to_int DecimalString.NilZero.string_of_int].
    assert (DecimalString.NilZero.string_of_uint (Pos.to_uint p)
            = DecimalString.NilEmpty.string_of_uint (Pos.to_uint p)) as ->.
    { pose proof (DecimalPos.Unsigned.to_uint_nonnil p). by destruct (Pos.to_uint p). }
    intros Hin. pose proof (digits_of_uint (Pos.to_uint p)) as Hd.
    rewrite Forall_forall in Hd. specialize (Hd _ Hin). unfold is_digit in Hd. cbn in Hd.
    repeat (apply elem_of_cons in Hd as [?|Hd]; [done|]). by apply elem_of_nil in Hd.
Qed.

Lemma split_variant name (v n : nat) :
  py_split "_" (variant name (Z.of_nat v) (Z.of_nat n))
  = py_split "_" name ++ [py_str (Z.of_nat v); py_str (Z.of_nat n)].
Proof.
  unfold variant. rewrite !append_String, !append_empty.
  rewrite py_split_app. f_equal.
  rewrite py_split_app. rewrite !py_split_whole by apply py_str_no_underscore. done.
Qed.

Lemma split_variant_back (name : string) (visits num_people : nat) :
  split_behaviour (variant name (Z.of_nat visits) (Z.of_nat num_people))
  = Ok (name, (Z.of_nat visits, Z.of_nat num_people)).
Proof.
  unfold split_behaviour. rewrite split_variant.
  set (pieces := py_split "_" name).
  assert (length (pieces ++ [py_str (Z.of_nat visits); py_str (Z.of_nat num_people)]) - 2
          = length pieces) as -> by (rewrite length_app; cbn; lia).
  rewrite take_app_length. unfold pieces. rewrite (join_py_split "_" name).
  unfold from_end. rewrite !length_app. cbn [length].
  rewrite !decide_True by lia.
  fold pieces. rewrite !lookup_app_r by lia.
  replace (length pieces + 2 - 2 - length pieces) with 0 by lia.
  replace (length pieces + 2 - 1 - length pieces) with 1 by lia.
  cbn [lookup list_lookup mbind result_bind]. rewrite !py_int_py_str.
  cbn [mbind result_bind]. done.
Qed.

(** Round trip: the string of a variant, [name_visits_people], is split into
    the name and the two numbers it was made of, whatever the name is, also
    when the name has underscores of its own.  A string without any
    underscore is no variant: IndexError. *)
Theorem split_behaviour_round_trip (name : string) (visits num_people : nat) :
  split_behaviour (variant name (Z.of_nat visits) (Z.of_nat num_people))
  = Ok (name, (Z.of_nat visits, Z.of_nat num_people)) ∧
  ("_"%char ∉ chars name → split_behaviour name = Raise IndexError).
Proof.
  split; [apply split_variant_back|].
  intros Hnot. unfold split_behaviour. by rewrite py_split_whole.
Qed.

Lemma dict_set_fmap {V W} (g : V → W) k v (d : list (string * V)) :
  dict_set k (g v) ((λ kv, (kv.1, g kv.2)) <$> d) = (λ kv, (kv.1, g kv.2)) <$> dict_set k v d.
Proof.
  induction d as [|[k' v'] d IH]; [done|]. cbn [fmap list_fmap dict_set fst snd].
  destruct (decide (k = k')); [done|]. cbn [fmap list_fmap fst snd]. f_equal. apply IH.
Qed.

(** The conversion of behaviour variants on their strings agrees with the
    conversion on names and numbers that the model of the simulation uses:
    converting the strings of a list of variants gives the dictionary of the
    variants themselves (a later variant of a behaviour replaces an earlier
    one). *)
Theorem convert_behaviour_strings_of_variants (bs : list (string * Behaviour)) :
  convert_behaviour_strings
    ((λ nb, variant nb.1 (Z.of_nat (visits nb.2)) (Z.of_nat (num_people nb.2))) <$> bs)
  = Ok (numbers_of <$> _convert_behaviours_to_dict bs).
Proof.
  unfold convert_behaviour_strings, _convert_behaviours_to_dict.
  change (@nil (string * (Z * Z))) with (numbers_of <$> @nil (string * Behaviour)).
  generalize (@nil (string * Behaviour)). induction bs as [|[name b] bs IH]; intros acc; [done|].
  cbn [fmap list_fmap fold_result foldl fst snd]. rewrite split_variant_back.
  cbn [mbind result_bind].
  rewrite <- (IH (dict_set name b acc)). f_equal.
  apply (dict_set_fmap (λ b, (Z.of_nat (visits b), Z.of_nat (num_people b))) name b acc).
Qed.

Lemma map_result_app {A B} (f : A → result B) (l1 l2 : list A) v1 v2 :
  map_result f l1 = Ok v1 → map_result f l2 = Ok v2 → map_result f (l1 ++ l2) = Ok (v1 ++ v2).
Proof.
  revert v1. induction l1 as [|x l1 IH]; intros v1; cbn [map_result app].
  - by intros [= <-].
  - unfold mbind, result_bind. destruct (f x) as [y|]; [|done].
    destruct (map_result f l1) as [ys|] eqn:Hys; [|done]. intros [= <-] H2.
    by rewrite (IH ys eq_refl H2).
Qed.

(** Every variant that [get_behaviour_variants] generates for a behaviour is
    read back by the conversion as that behaviour with the numbers it was
    generated from, in the order of generation; the last one is the variant
    without visits. *)
Theorem get_behaviour_variants_parse_back (behaviour : string)
    (num_visits num_people : gmap string (list Z)) (visits people : list nat) :
  num_visits !! behaviour = Some (Z.of_nat <$> visits) →
  num_people !! behaviour = Some (Z.of_nat <$> people) →
  ∃ variants,
    get_behaviour_variants behaviour num_visits num_people = Ok variants ∧
    map_result split_behaviour variants
    = Ok ((v ← visits; n ← people; [(behaviour, (Z.of_nat v, Z.of_nat n))])
          ++ [(behaviour, (0, 0)%Z)]).
Proof.
  intros Hv Hp. unfold get_behaviour_variants. rewrite Hv, Hp. cbn [mbind result_bind].
  eexists. split; [reflexivity|]. apply map_result_app.
  - cbn [mbind list_bind app]. rewrite app_nil_r.
    clear Hv. induction visits as [|v visits IH]; [done|].
    cbn [fmap list_fmap]. rewrite !bind_cons, fmap_app.
    apply map_result_app; [|apply IH].
    clear. induction people as [|n people IH]; [done|].
    cbn [fmap list_fmap]. rewrite !bind_cons, fmap_app.
    apply (map_result_app _ [_] _ [_]); [|apply IH].
    cbn [mbind list_bind fmap list_fmap app map_result]. rewrite concat_two, concat_two.
    cbn [String.concat].
    change (behaviour +:+ "_" +:+ py_str (Z.of_nat v) +:+ "_" +:+ py_str (Z.of_nat n))
      with (variant behaviour (Z.of_nat v) (Z.of_nat n)).
    by rewrite split_variant_back.
  - cbn [map_result].
    change (behaviour +:+ "_0_0") with (variant behaviour (Z.of_nat 0) (Z.of_nat 0)).
    by rewrite split_variant_back.
Qed.

Lemma get_behaviour_variants_parse_back_witness :
  ∃ variants,
    get_behaviour_variants "food_shopping" {[ "food_shopping" := Z.of_nat <$> [1; 2] ]}
      {[ "food_shopping" := Z.of_nat <$> [5; 10] ]} = Ok variants ∧
    map_result split_behaviour variants
    = Ok ((v ← [1; 2]; n ← [5; 10]; [("food_shopping", (Z.of_nat v, Z.of_nat n))])
          ++ [("food_shopping", (0, 0)%Z)]).
Proof.
  apply (get_behaviour_variants_parse_back "food_shopping"
           {[ "food_shopping" := Z.of_nat <$> [1; 2] ]}
           {[ "food_shopping" := Z.of_nat <$> [5; 10] ]} [1; 2] [5; 10]);
    reflexivity.
Defined.

(** ** Transitions follow the table *)

(** In one timestep a node that is exposed, asymptomatic, symptomatic or
    hospitalised moves to one of the target states that the transition table
    lists for its state; the infection pass does not touch it. *)
Theorem timestep_follows_table (t : nat) (w w' : World) (G : nxGraph)
    (row1 : gmap nat string) (u : nat) (s : string) :
  graph (sim_graph w) = Some G →
  states_dict w !! (t + 1) = Some row1 →
  timestep t w = Returned tt w' →
  u ∈ nodes G → state_at w t u = Some s → s ∉ ["R"; "D"; "S"] →
  ∃ table distrib v,
    state_transitions (sim_params w) = Some table ∧ table !! s = Some distrib ∧
    v ∈ distrib.*1 ∧ state_at w' (t + 1) u = Some v.
Proof.
  intros HG Hnext Hstep Hu Hs Hnot.
  destruct (timestep_returned t w w' G row1 HG Hnext Hstep)
    as (G1 & G' & vs & evs & row3 & Hext & _ & Hevs & _ & _ & _ & Hrow3 & _ & Hin & _).
  assert (u ∈ nodes G1) as Hu1.
  { destruct Hext as [[extra ->] _]. apply elem_of_app. by left. }
  destruct (Hin u Hu1) as (s' & v & Hs' & Hprog & Hfinal).
  rewrite Hs in Hs'. injection Hs' as <-.
  unfold progresses_to in Hprog. rewrite decide_False in Hprog by done.
  destruct Hprog as (table & distrib & Htable & Hdistrib & Hv).
  exists table, distrib, v. split; [done|]. split; [done|]. split; [done|].
  unfold state_at. rewrite Hrow3. cbn. rewrite Hfinal.
  destruct (infected_in evs u) eqn:Hi; [|done].
  apply infected_in_spec in Hi as (v' & luck & prob & Hdraw & _).
  rewrite Forall_forall in Hevs. destruct (Hevs _ Hdraw) as (_ & _ & _ & HS & _).
  rewrite Hs in HS. injection HS as ->. exfalso. apply Hnot.
  do 2 apply list_elem_of_further. apply list_elem_of_here.
Qed.

Lemma timestep_follows_table_witness :
  ∃ table distrib v,
    state_transitions (sim_params example_seeded) = Some table ∧
    table !! "I" = Some distrib ∧ v ∈ distrib.*1 ∧ state_at example_after (0 + 1) 3 = Some v.
Proof.
  apply (timestep_follows_table 0 example_seeded example_after example_nx ∅ 3 "I");
    [reflexivity|reflexivity|apply example_timestep_returns
    |do 3 apply list_elem_of_further; apply list_elem_of_here|reflexivity|].
  intros H. repeat (apply elem_of_cons in H as [?|H]; [done|]). by apply elem_of_nil in H.
Defined.

(** ** One run, averaged *)

Lemma round_mean_single (x : Z) : round_mean [x] = x.
Proof.
  unfold round_mean. cbn [length foldr]. rewrite Z.add_0_r.
  change (Z.of_nat 1) with 1%Z. rewrite Z.div_1_r, Z.mod_1_r.
  rewrite decide_True by lia. done.
Qed.

Lemma average_single (results : gmap string (list Z)) :
  (∀ state, state ∈ STATES → is_Some (results !! state)) →
  ∃ averaged, average [results] = Ok averaged ∧
              ∀ state, state ∈ STATES → averaged !! state = results !! state.
Proof.
  intros Hall. unfold average.
  assert (∀ (states : list string) (acc : gmap string (list Z)),
            (∀ state, state ∈ states → is_Some (results !! state)) →
            ∃ averaged,
              fold_result (λ (averaged : gmap string (list Z)) (state : string),
                  state_lists ← map_result (λ state_dict, result_of state_dict state) [results];
                  Ok (<[state := round_mean <$> zip_star state_lists]> averaged)) states acc
              = Ok averaged ∧
              ∀ state, averaged !! state
                       = if decide (state ∈ states) then results !! state else acc !! state)
    as Hfold.
  { induction states as [|s states IH]; intros acc Hstates.
    - exists acc. split; [done|]. intros state. rewrite decide_False; [done|].
      apply not_elem_of_nil.
    - cbn [fold_result map_result]. destruct (Hstates s) as [l Hl]; [left|].
      unfold result_of. rewrite Hl. cbn [mbind result_bind zip_star].
      destruct (IH (<[s := round_mean <$> ((λ x, [x]) <$> l)]> acc)) as (averaged & Hrun & Hlook).
      { intros state Hstate. apply Hstates. by right. }
      exists averaged. split; [exact Hrun|]. intros state. rewrite Hlook.
      destruct (decide (state ∈ states)) as [Hin|Hin].
      + rewrite decide_True by (by right). done.
      + destruct (decide (state = s)) as [->|Hne].
        * rewrite decide_True by left. rewrite lookup_insert_eq, Hl. f_equal.
          rewrite <- list_fmap_compose. rewrite <- (list_fmap_id l) at 2.
          apply list_fmap_ext. intros i x _. apply round_mean_single.
        * rewrite lookup_insert_ne by done. rewrite decide_False; [done|].
          intros [->|?]%elem_of_cons; done. }
  destruct (Hfold STATES ∅ Hall) as (averaged & Hrun & Hlook).
  exists averaged. split; [exact Hrun|]. intros state Hstate.
  by rewrite Hlook, decide_True.
Qed.

Lemma repair_keeps (pop : nat) (averaged : gmap string (list Z)) k vals :
  step_counts averaged k = Ok vals → foldr Z.add 0%Z vals = Z.of_nat pop →
  repair (Some pop) averaged k = Ok averaged.
Proof.
  unfold step_counts, repair. intros -> Hsum. cbn [mbind result_bind].
  rewrite decide_False; [done|]. intros Hne. apply Hne. cbn. by rewrite Hsum.
Qed.

Lemma repair_loop_keeps (pop : nat) (averaged : gmap string (list Z)) (steps : list nat) :
  (∀ k, k ∈ steps → ∃ vals, step_counts averaged k = Ok vals ∧
                            foldr Z.add 0%Z vals = Z.of_nat pop) →
  fold_result (repair (Some pop)) steps averaged = Ok averaged.
Proof.
  induction steps as [|k steps IH]; intros Hall; [done|]. cbn [fold_result].
  destruct (Hall k) as (vals & Hvals & Hsum); [left|].
  rewrite (repair_keeps pop averaged k vals Hvals Hsum). cbn [mbind result_bind].
  apply IH. intros k' Hk'. apply Hall. by right.
Qed.

(** The average of a single run is that run: when the population size is
    the number of nodes of the graph, [run_multiple(1)] returns for every
    compartment the series that its one [run_single] produced.  (No new graph
    per run; the transition table names only compartments as targets.) *)
Theorem run_multiple_of_one_run (w w1 w' : World) (results series : gmap string (list Z))
    (G : nxGraph) (T : nat) :
  new_graph_per_run w = false →
  graph (sim_graph w) = Some G → nx_wf G →
  time_horizon (sim_graph w) = Some T →
  population_size (sim_params w) = Some (length (nodes G)) →
  valid_targets (sim_params w) →
  run_single w = Returned results w1 →
  run_multiple 1 w = Returned series w' →
  w' = w1 ∧ ∀ state, state ∈ STATES → series !! state = results !! state.
Proof.
  intros Hnew HG Hwf HT Hpop Hvalid Hsingle Hmulti.
  unfold run_multiple in Hmulti. cbn [repeat_run] in Hmulti.
  apply bind_returned in Hmulti as (all_results & w2 & Hall & Hmulti).
  apply bind_returned in Hall as (r & w3 & Hr & Hall). rewrite Hsingle in Hr.
  injection Hr as Hr1 Hr2. subst r w3.
  apply bind_returned in Hall as (rs & w3 & [= <- <-] & [= <- <-]).
  apply bind_returned in Hmulti as (averaged & w2 & Haveraged & Hmulti).
  apply lift_result_returned in Haveraged as [Haveraged <-].
  apply bind_returned in Hmulti as (w0 & w2 & [= <- <-] & Hmulti).
  apply bind_returned in Hmulti as (T' & w2 & HT' & Hmulti).
  apply from_option_returned in HT' as [HT' <-].
  apply lift_result_returned in Hmulti as [Hmulti <-]. split; [done|].
  pose proof Hsingle as Hrun. unfold run_single in Hrun.
  apply bind_returned in Hrun as (w0 & w2 & [= <- <-] & Hrun). rewrite Hnew in Hrun.
  apply bind_returned in Hrun as ([] & w2 & [= <-] & Hrun).
  apply bind_returned in Hrun as ([] & w2 & Hsim & Hrun).
  destruct (basic_simulation_timeline_inv w w2 G T HG Hwf HT Hvalid Hsim)
    as (p & Hp & _ & Hp2 & (HT2 & _) & Hrows & _).
  destruct (basic_simulation_decomposes w w2 T HT Hsim) as (_ & Hpop2 & _).
  destruct (get_results_entries w2 T) as (results' & Hres & Hentries).
  { by rewrite HT2. }
  { intros t Ht. destruct (Hrows t Ht) as (row & -> & _). eauto. }
  rewrite Hres in Hrun. injection Hrun as Hsame1 Hsame2. subst results' w1.
  assert (T' = T) as -> by congruence. rewrite Hpop2, Hpop in Hmulti.
  destruct (average_single results) as (averaged' & Haveraged' & Hsame).
  { intros state Hstate. destruct (Hentries state Hstate) as (l & -> & _). eauto. }
  rewrite Haveraged' in Haveraged. injection Haveraged as <-.
  rewrite repair_loop_keeps in Hmulti; [by injection Hmulti as <-|].
  intros k [_ Hk]%elem_of_seq.
  assert (k < (T + 6) / 7) as Hk'.
  { eapply Nat.lt_le_trans; [exact Hk|]. apply Nat.Div0.div_le_mono. lia. }
  assert (1 + 7 * k ≤ T) as Hstep.
  { pose proof (Nat.Div0.mul_div_le (T + 6) 7). lia. }
  destruct (Hrows (1 + 7 * k) Hstep) as (row & Hrow & Hcover).
  exists (compartment_counts row). split.
  - unfold step_counts, compartment_counts. apply map_result_all_ok.
    intros state Hstate. destruct (Hentries state Hstate) as (l & Hl & Hlk).
    unfold averaged_at. by rewrite (Hsame state Hstate), Hl, (Hlk k Hk'), Hrow.
  - apply covers_counts; [apply Hwf|done].
Qed.

Lemma run_multiple_of_one_run_witness :
  final_world (run_multiple 1 example_world) = final_world (run_single example_world) ∧
  ∀ state, state ∈ STATES →
           default ∅ (returned (run_multiple 1 example_world)) !! state
           = default ∅ (returned (run_single example_world)) !! state.
Proof.
  apply (run_multiple_of_one_run example_world (final_world (run_single example_world))
           (final_world (run_multiple 1 example_world))
           (default ∅ (returned (run_single example_world)))
           (default ∅ (returned (run_multiple 1 example_world))) example_nx 7);
    [reflexivity|reflexivity|apply example_nx_wf|reflexivity|reflexivity
    |apply example_valid_targets|vm_compute; reflexivity|vm_compute; reflexivity].
Defined.

(** ** Horizons of full weeks *)

(** When the time horizon is a multiple of 7, the repair loop of
    [run_multiple] reaches every reporting step: at each of the
    [ceil(time_horizon / 7)] steps of the averaged series the counts of the 7
    compartments add up to the population size. *)
Theorem run_multiple_conserves_on_full_weeks (n : nat) (w w' : World)
    (series : gmap string (list Z)) (T pop : nat) :
  run_multiple n w = Returned series w' →
  time_horizon (sim_graph w') = Some T →
  population_size (sim_params w') = Some pop →
  T `mod` 7 = 0 →
  ∀ k, k < (T + 6) / 7 →
       ∃ vals, step_counts series k = Ok vals ∧ foldr Z.add 0%Z vals = Z.of_nat pop.
Proof.
  unfold run_multiple. intros H HT Hpop Hweeks k Hk.
  apply bind_returned in H as (all_results & w1 & _ & H).
  apply bind_returned in H as (averaged & w2 & Haveraged & H).
  apply lift_result_returned in Haveraged as [_ <-].
  apply bind_returned in H as (w0 & w2 & [= <- <-] & H).
  apply bind_returned in H as (T' & w2 & HT' & H).
  apply from_option_returned in HT' as [HT' <-].
  apply lift_result_returned in H as [H <-].
  rewrite HT in HT'. injection HT' as <-. rewrite Hpop in H.
  apply repair_loop_conserves in H as [Hdone _]. apply Hdone.
  pose proof (Nat.div_mod_eq T 7) as Hdiv. rewrite Hweeks, Nat.add_0_r in Hdiv.
  assert ((T + 6) / 7 = T / 7) as <-; [|done].
  rewrite Hdiv at 1. rewrite Nat.mul_comm, Nat.div_add_l by lia.
  rewrite (Nat.div_small 6 7) by lia. lia.
Qed.

Lemma run_multiple_conserves_on_full_weeks_witness :
  ∃ vals, step_counts (default ∅ (returned (run_multiple 2 example_world))) 0 = Ok vals ∧
          foldr Z.add 0%Z vals = Z.of_nat 5.
Proof.
  apply (run_multiple_conserves_on_full_weeks 2 example_world
           (final_world (run_multiple 2 example_world))
           (default ∅ (returned (run_multiple 2 example_world))) 7 5);
    [vm_compute; reflexivity|reflexivity|reflexivity|reflexivity|vm_compute; lia].
Defined.
